(** * QB_agent: per-user isolation lifecycle and command wrapping

    A shallow embedding of the isolation core of the backend:
    - [core/firewall/firewall_bash.py]: port-block allocation, the bash
      command wrapper, the wrapped-command checker and the tool
      permission handler;
    - [core/agent/agent_manager.py]: the registry of agent clients;
    - [core/scheduler/background_tasks.py]: the idle-agent sweep;
    - [core/chat/chat_api.py]: the retry logic of [_process_ai_response].

    Python [str] values are modelled as their UTF-8 byte sequences
    ([list ascii]).  Every string operation used by the embedded code
    ([shlex.quote], [shlex.split], [str.split], [os.path.normpath],
    [os.path.commonpath], substring search, list ordering) acts on
    ASCII delimiters only and therefore commutes with the encoding. *)

From Stdlib Require Import ZArith Lia Ascii String List Bool.
From Stdlib Require Import Numbers.DecimalString.
From stdpp Require Import base option list gmap strings.
Import ListNotations.

Local Open Scope Z_scope.
Local Open Scope list_scope.

(* ===================================================================== *)
(** ** Python strings                                                     *)
(* ===================================================================== *)

Abbreviation str := (list ascii).

(** A string literal of the source. *)
Definition py (s : string) : str := list_ascii_of_string s.

(** The double-quote character as a one-character string. *)
Definition dquote : str := ["034"%char].

Definition str_eqb (a b : str) : bool := bool_decide (a = b).

(** Truthiness of a [str]: the empty string is falsy. *)
Definition str_truthy (s : str) : bool :=
  match s with [] => false | _ :: _ => true end.

(** [a.startswith(p)] *)
Fixpoint startswith (p a : str) : bool :=
  match p, a with
  | [], _ => true
  | _ :: _, [] => false
  | c :: p', d :: a' => if Ascii.eqb c d then startswith p' a' else false
  end.

(** [p in a] for strings: substring test. *)
Fixpoint contains (p a : str) : bool :=
  startswith p a ||
  match a with
  | [] => false
  | _ :: a' => contains p a'
  end.

(** [a.endswith(p)] *)
Definition endswith (p a : str) : bool := startswith (rev p) (rev a).

(** [s.split(sep)] for a one-character separator. *)
Fixpoint split_sep (sep : ascii) (s : str) : list str :=
  match s with
  | [] => [[]]
  | c :: s' =>
      if Ascii.eqb c sep then [] :: split_sep sep s'
      else match split_sep sep s' with
           | comp :: comps => (c :: comp) :: comps
           | [] => [[c]]
           end
  end.

(** [sep.join(parts)] *)
Fixpoint join (sep : str) (parts : list str) : str :=
  match parts with
  | [] => []
  | [p] => p
  | p :: ps => p ++ sep ++ join sep ps
  end.

(** Order of two [str] values, character by character. *)
Fixpoint str_compare (a b : str) : comparison :=
  match a, b with
  | [], [] => Eq
  | [], _ :: _ => Lt
  | _ :: _, [] => Gt
  | c :: a', d :: b' =>
      match Nat.compare (nat_of_ascii c) (nat_of_ascii d) with
      | Eq => str_compare a' b'
      | r => r
      end
  end.

(** Order of two lists of [str], element by element. *)
Fixpoint list_compare (a b : list str) : comparison :=
  match a, b with
  | [], [] => Eq
  | [], _ :: _ => Lt
  | _ :: _, [] => Gt
  | c :: a', d :: b' =>
      match str_compare c d with
      | Eq => list_compare a' b'
      | r => r
      end
  end.

(** [min(xs)] and [max(xs)] on a non-empty list [x :: xs]: the first
    least, respectively greatest, element. *)
Definition list_min (x : list str) (xs : list (list str)) : list str :=
  fold_left (fun m y => match list_compare y m with Lt => y | _ => m end) xs x.

Definition list_max (x : list str) (xs : list (list str)) : list str :=
  fold_left (fun m y => match list_compare y m with Gt => y | _ => m end) xs x.

(** [ch.lower()] on an ASCII letter; other bytes are left alone. *)
Definition ascii_lower (c : ascii) : ascii :=
  let n := nat_of_ascii c in
  if (65 <=? n)%nat && (n <=? 90)%nat then ascii_of_nat (n + 32) else c.

(** [s.lower()] for ASCII-only text: ASCII letters are lowered. *)
Definition lower (s : str) : str := map ascii_lower s.

(** [str(n)] for an [int]. *)
Definition str_of_int (n : Z) : str :=
  py (NilZero.string_of_int (Z.to_int n)).

(* ===================================================================== *)
(** ** Configuration ([core/system/config.py]) and host                   *)
(* ===================================================================== *)

Record Config := {
  FIREWALL_ENABLED : bool;
  LINUX_USER_PREFIX : str;
  USER_PORT_POOL_START : Z;
  USER_PORT_POOL_END : Z;
  USER_PORT_BLOCK_SIZE : Z;
  USER_DEFAULT_STORAGE_QUOTA_BYTES : Z;
  (** [str(config.get_work_base_dir())] *)
  WORK_BASE_DIR : str;
  IDLE_TIMEOUT_SECONDS : Z;
  IDLE_AGENT_CLEANUP_INTERVAL : Z
}.

(** The values [config.py] takes when no environment variable is set. *)
Definition default_config : Config := {|
  FIREWALL_ENABLED := true;
  LINUX_USER_PREFIX := py "queen";
  USER_PORT_POOL_START := 20001;
  USER_PORT_POOL_END := 40000;
  USER_PORT_BLOCK_SIZE := 10;
  USER_DEFAULT_STORAGE_QUOTA_BYTES := 1024 * 1024 * 1024;
  WORK_BASE_DIR := py "/home/queen";
  IDLE_TIMEOUT_SECONDS := 1200;
  IDLE_AGENT_CLEANUP_INTERVAL := 300
|}.

(** Exceptions raised by the embedded code itself. *)
Inductive Exn :=
| RuntimeError (msg : str)
| ValueError (msg : str)
| IndexError
| TypeError.

(** The process the backend runs in: [os.name] and [os.getcwd()]. *)
Record Host := {
  os_name : str;
  getcwd : str
}.

(** What Python's Unicode tables say about text outside ASCII.  Strings
    are held as UTF-8: [str_lower s] is [s.lower()], and [char_isalnum
    ch] is [ch.isalnum()] for the encoding [ch] of one character. *)
Record Unicode := {
  str_lower : str -> str;
  char_isalnum : str -> bool
}.

(** A byte below 128 is an ASCII character. *)
Definition is_ascii (c : ascii) : bool := (nat_of_ascii c <? 128)%nat.

(** A continuation byte [10xxxxxx] of a multi-byte character. *)
Definition is_continuation (c : ascii) : bool :=
  ((128 <=? nat_of_ascii c) && (nat_of_ascii c <=? 191))%nat.

(** The characters of a string, each with its bytes: a byte that is not
    a continuation byte starts a character, the continuation bytes
    after it belong to it. *)
Fixpoint utf8_chars (s : str) : list str :=
  match s with
  | [] => []
  | c :: s' =>
      let chars := utf8_chars s' in
      match s', chars with
      | d :: _, ch :: rest =>
          if is_continuation d then (c :: ch) :: rest else [c] :: chars
      | _, _ => [c] :: chars
      end
  end.

(** [s.lower()] on any text: on ASCII-only text it is [lower]. *)
Definition py_lower (u : Unicode) (s : str) : str :=
  if forallb is_ascii s then lower s else str_lower u s.

(** A Unicode table that knows no letter or digit outside ASCII and
    leaves other text as it is. *)
Definition ascii_unicode : Unicode := {|
  str_lower := lower;
  char_isalnum := fun _ => false
|}.

Inductive Outcome (A : Type) :=
| Return (a : A)
| Raise (e : Exn).
Arguments Return {A} a.
Arguments Raise {A} e.

(* ===================================================================== *)
(** ** Port allocator ([firewall_bash.py], [ensure_user_settings])        *)
(* ===================================================================== *)

Module PortAllocator.

(** One row of the [user_set] table ([db/init_db.py]). *)
Record UserSetRow := {
  row_id : str;
  row_user_id : str;
  port_start : Z;
  port_end : Z;
  storage_quota_bytes : Z;
  settings : str;
  created_at : Z;
  updated_at : Z
}.

(** The table, in insertion order. *)
Definition user_set := list UserSetRow.

(** What a call draws from its environment: [uuid.uuid4()] for the row
    id and the store's [CURRENT_TIMESTAMP]. *)
Record CallEnv := {
  fresh_uuid : str;
  current_timestamp : Z
}.

(** [SELECT port_start, port_end FROM user_set WHERE user_id = %s]
    followed by [fetchone()]. *)
Definition select_port_range (user_id : str) (t : user_set) : option (Z * Z) :=
  match List.find (fun r => str_eqb (row_user_id r) user_id) t with
  | Some r => Some (port_start r, port_end r)
  | None => None
  end.

Definition _get_user_port_range (user_id : str) (t : user_set) : option (Z * Z) :=
  select_port_range user_id t.

(** [SELECT MAX(port_end) FROM user_set]: [None] is SQL [NULL]. *)
Fixpoint sql_max_port_end (t : user_set) : option Z :=
  match t with
  | [] => None
  | r :: t' =>
      match sql_max_port_end t' with
      | None => Some (port_end r)
      | Some m => Some (Z.max (port_end r) m)
      end
  end.

(** [SELECT COALESCE(MAX(port_end), %s) AS max_end FROM user_set] *)
Definition select_max_end (dflt : Z) (t : user_set) : Z :=
  match sql_max_port_end t with
  | Some m => m
  | None => dflt
  end.

Definition pool_exhausted : Exn :=
  RuntimeError (py "用户端口池已用尽").

(** [ensure_user_settings(user_id)].  The second component is the table
    as committed when the call ends: an exception rolls the transaction
    back.  Failures of the store itself (lost connection, constraint
    violations) are outside the model. *)
Definition ensure_user_settings (cfg : Config) (env : CallEnv)
    (user_id : str) (t : user_set) : Outcome (Z * Z) * user_set :=
  match select_port_range user_id t with
  | Some (ps, pe) => (Return (ps, pe), t)
  | None =>
      let max_end := select_max_end (USER_PORT_POOL_START cfg - 1) t in
      let ps := Z.max (max_end + 1) (USER_PORT_POOL_START cfg) in
      let pe := ps + USER_PORT_BLOCK_SIZE cfg - 1 in
      if pe >? USER_PORT_POOL_END cfg then
        (Raise pool_exhausted, t)
      else
        let row := {| row_id := fresh_uuid env;
                      row_user_id := user_id;
                      port_start := ps;
                      port_end := pe;
                      storage_quota_bytes := USER_DEFAULT_STORAGE_QUOTA_BYTES cfg;
                      settings := py "{}";
                      created_at := current_timestamp env;
                      updated_at := current_timestamp env |} in
        (Return (ps, pe), t ++ [row])
  end.

(** A sequence of calls, each with the user id it is made for; a call
    that raises leaves the table as it was and the next call proceeds. *)
Definition run_calls (cfg : Config) (calls : list (CallEnv * str))
    (t : user_set) : user_set :=
  fold_left (fun t c => snd (ensure_user_settings cfg (fst c) (snd c) t)) calls t.

(** The tables the allocator can produce from the empty table. *)
Definition reachable (cfg : Config) (t : user_set) : Prop :=
  exists calls, t = run_calls cfg calls [].

(** Port [p] lies in the block of row [r]. *)
Definition in_block (p : Z) (r : UserSetRow) : Prop :=
  port_start r <= p <= port_end r.

(** Blocks are laid out left to right: each row starts after the end of
    every row inserted before it. *)
Definition ascending (t : user_set) : Prop :=
  ForallOrdPairs (fun a b => port_end a < port_start b) t.

(** The invariant of the table: ascending blocks, one row per tenant. *)
Definition table_ok (t : user_set) : Prop :=
  ascending t /\ List.NoDup (map row_user_id t).

End PortAllocator.

(* ===================================================================== *)
(** ** Agent registry ([core/agent/agent_manager.py])                     *)
(* ===================================================================== *)

Module AgentManager.

(** The OS subprocess behind a client's transport, as far as
    [_force_kill_cli_process] looks at it. *)
Record Process := {
  returncode : option Z;
  terminate_raises : bool;
  wait_raises : bool
}.

Record Transport := { _process : option Process }.
Record Query := { transport : option Transport }.

(** A [ClaudeSDKClient] handle: which methods it has, which of them
    raise when awaited, and the transport objects reachable from it. *)
Record Client := {
  connect_raises : bool;
  has_disconnect : bool;
  disconnect_raises : bool;
  has_close : bool;
  close_raises : bool;
  _transport : option Transport;
  _query : option Query
}.

(** The fields of [ClaudeAgentOptions] the registry reads back. *)
Record ClientOptions := {
  cwd : str;
  system_prompt : str;
  resume : option str
}.

(** [datetime] values are microseconds since the epoch. *)
Abbreviation datetime := Z.

(** The four dictionaries of [AgentManager.__init__]. *)
Record AgentManager := {
  _clients : gmap str Client;
  _client_options : gmap str ClientOptions;
  _client_connected : gmap str bool;
  _agent_last_active : gmap str datetime
}.

(** Calls made on client handles and their processes, in order. *)
Inductive Event :=
| EvConnect (agent_id : str)
| EvDisconnect (agent_id : str)
| EvClose (agent_id : str)
| EvTerminate (agent_id : str)
| EvWait (agent_id : str).

(** The agent a call is made for. *)
Definition event_agent (e : Event) : str :=
  match e with
  | EvConnect agent_id | EvDisconnect agent_id | EvClose agent_id
  | EvTerminate agent_id | EvWait agent_id => agent_id
  end.

(** [ensure_client_connected(agent_id)], with [now] the value of
    [datetime.now()] at the bump.  Returns the boolean, the registry
    afterwards and the calls made. *)
Definition ensure_client_connected (now : datetime) (agent_id : str)
    (st : AgentManager) : bool * AgentManager * list Event :=
  match _clients st !! agent_id with
  | None => (false, st, [])
  | Some client =>
      if negb (default false (_client_connected st !! agent_id)) then
        if connect_raises client then
          (false, st, [EvConnect agent_id])
        else
          (true,
           {| _clients := _clients st;
              _client_options := _client_options st;
              _client_connected := <[agent_id := true]> (_client_connected st);
              _agent_last_active := <[agent_id := now]> (_agent_last_active st) |},
           [EvConnect agent_id])
      else
        (true,
         {| _clients := _clients st;
            _client_options := _client_options st;
            _client_connected := _client_connected st;
            _agent_last_active := <[agent_id := now]> (_agent_last_active st) |},
         [])
  end.

(** [_force_kill_cli_process(client, agent_id)]: every failure inside is
    suppressed, so only the calls made are recorded. *)
Definition _force_kill_cli_process (client : Client) (agent_id : str)
    : list Event :=
  let transport :=
    match _transport client, _query client with
    | None, Some query => transport query
    | t, _ => t
    end in
  let process :=
    match transport with
    | Some t => _process t
    | None => None
    end in
  match process with
  | None => []
  | Some p =>
      match returncode p with
      | Some _ => []
      | None =>
          [EvTerminate agent_id; EvWait agent_id] ++
          (if wait_raises p then [EvTerminate agent_id] else [])
      end
  end.

(** [close_agent_client(agent_id)]: disconnect, close and process kill
    are attempted in turn, each failure ignored, then the four entries
    are deleted. *)
Definition close_agent_client (agent_id : str) (st : AgentManager)
    : bool * AgentManager * list Event :=
  match _clients st !! agent_id with
  | Some client =>
      let ev_disconnect :=
        if has_disconnect client then [EvDisconnect agent_id] else [] in
      let ev_close :=
        if has_close client then [EvClose agent_id] else [] in
      (true,
       {| _clients := delete agent_id (_clients st);
          _client_options := delete agent_id (_client_options st);
          _client_connected := delete agent_id (_client_connected st);
          _agent_last_active := delete agent_id (_agent_last_active st) |},
       ev_disconnect ++ ev_close ++ _force_kill_cli_process client agent_id)
  | None => (false, st, [])
  end.

(** A client all of whose teardown calls raise. *)
Definition failing_client : Client := {|
  connect_raises := true;
  has_disconnect := true; disconnect_raises := true;
  has_close := true; close_raises := true;
  _transport := Some {| _process := Some {| returncode := None;
                                           terminate_raises := true;
                                           wait_raises := true |} |};
  _query := None
|}.

Definition quiet_client : Client := {|
  connect_raises := false;
  has_disconnect := true; disconnect_raises := false;
  has_close := false; close_raises := false;
  _transport := None;
  _query := None
|}.

(** Three sessions at time 2000 s with the default timeout of 1200 s:
    [a1] idle for 1500 s with a client whose teardown fails throughout,
    [a2] idle for 1300 s, [a3] idle for exactly 1200 s. *)
Definition sample_registry : AgentManager := {|
  _clients := <[py "a1" := failing_client]>
              (<[py "a2" := quiet_client]> (<[py "a3" := quiet_client]> ∅));
  _client_options := ∅;
  _client_connected := <[py "a1" := true]> ∅;
  _agent_last_active := <[py "a1" := 500000000]>
                        (<[py "a2" := 700000000]> (<[py "a3" := 800000000]> ∅))
|}.

(** The four registry entries of one agent. *)
Definition entries (st : AgentManager) (agent_id : str) :=
  (_clients st !! agent_id, _client_options st !! agent_id,
   _client_connected st !! agent_id, _agent_last_active st !! agent_id).

End AgentManager.

(* ===================================================================== *)
(** ** Idle sweep ([core/scheduler/background_tasks.py])                  *)
(* ===================================================================== *)

Module BackgroundTasks.
Import AgentManager.

(** [timedelta(seconds=timeout_seconds)] in microseconds. *)
Definition timedelta_seconds (seconds : Z) : Z := seconds * 1000000.

(** State of one sweep: the registry, [closed_count] and the calls made. *)
Definition SweepState : Type := AgentManager * Z * list Event.

(** Body of the [for agent_id in agent_ids] loop of
    [_idle_agent_cleanup_task]. *)
Definition sweep_agent (now : datetime) (timeout_threshold : Z)
    (s : SweepState) (agent_id : str) : SweepState :=
  let '(st, closed_count, log) := s in
  match _agent_last_active st !! agent_id with
  | None => s
  | Some last_active =>
      let idle_time := now - last_active in
      if idle_time >? timeout_threshold then
        let '(_, st', evs) := close_agent_client agent_id st in
        (st', closed_count + 1, log ++ evs)
      else s
  end.

(** The sweep over a snapshot [agent_ids] of the registry's keys. *)
Definition sweep (now : datetime) (timeout_threshold : Z)
    (agent_ids : list str) (st : AgentManager) : SweepState :=
  fold_left (sweep_agent now timeout_threshold) agent_ids (st, 0, []).

(** One tick of [_idle_agent_cleanup_task] after its sleep: [now] is read
    once, the keys of [_clients] are snapshotted, and the sweep runs.
    The snapshot lists every key once; a Python dict lists them in
    insertion order, the map here in its own order. *)
Definition idle_agent_cleanup_tick (cfg : Config) (now : datetime)
    (st : AgentManager) : SweepState :=
  sweep now (timedelta_seconds (IDLE_TIMEOUT_SECONDS cfg))
        (fst <$> map_to_list (_clients st)) st.

End BackgroundTasks.
(* ===================================================================== *)
(** ** Chat exchange and its recovery ([core/chat/chat_api.py])           *)
(* ===================================================================== *)

Module ChatApi.

(** A call to a collaborator either returns or raises an exception [e]
    whose [str(e)] is [err_msg]. *)
Inductive Step (A : Type) :=
| Ok (a : A)
| Fails (err_msg : str).
Arguments Ok {A} a.
Arguments Fails {A} err_msg.

(** The row of [chat_sessions] read at the start of an attempt. *)
Record SessionInfo := {
  user_id : str;
  session_claude_id : option str
}.

(** What the function does to its collaborators, in order. *)
Inductive Event :=
| EvEnsureClient (agent_id user_id : str) (resume : option str)
| EvQuery (agent_id message : str)
| EvSaveMessage (session_id sender_id content : str) (metadata : option str)
| EvCloseAgent (agent_id : str)
| EvUpdateSessionClaudeId (session_id : str) (claude_id : option str).

(** What the locked region does besides the query: it saves progress
    and reply messages and records the session id announced by the
    agent runtime. *)
Inductive ExchangeEvent :=
| ExSaveMessage (content : str) (metadata : option str)
| ExUpdateSessionClaudeId (claude_id : str).

Definition exchange_event (session_id agent_id : str) (e : ExchangeEvent)
    : Event :=
  match e with
  | ExSaveMessage content metadata =>
      EvSaveMessage session_id agent_id content metadata
  | ExUpdateSessionClaudeId claude_id =>
      EvUpdateSessionClaudeId session_id (Some claude_id)
  end.

(** The collaborators.  Fields taking a [bool] are asked once per
    attempt: [false] in the first attempt, [true] in the retry.
    - [session_lookup]: the [SELECT] on [chat_sessions];
    - [kb_context user_id message]: [_build_kb_context];
    - [ensure_client]: [_ensure_agent_client], [Ok b] with [b] telling
      whether a client came back;
    - [exchange message]: the locked region and the final save, from
      [ensure_agent_connected] to the end of the [try] block: the
      messages it saved and whether it ran to the end or raised;
    - [clear_resume]: [update_session_claude_id(session_id, None)] in
      the recovery; [recover_client]: [_ensure_agent_client] there.
    [save_message] itself is taken to succeed. *)
Record World := {
  session_lookup : bool -> Step (option SessionInfo);
  kb_context : bool -> str -> str -> option str;
  ensure_client : bool -> Step bool;
  exchange : bool -> str -> list ExchangeEvent * Step unit;
  clear_resume : Step unit;
  recover_client : Step bool
}.

(** How the [try] block of one attempt ended: by falling off its end or
    returning ([Completed]), or by an exception, in which case the
    handler sees the variable [message] as last assigned and [user_id]
    only if it was bound. *)
Inductive BodyResult :=
| Completed (log : list Event)
| Raised (log : list Event) (err_msg : str) (message : str)
         (user_id : option str).

(** The message the try block goes on with once the knowledge-base
    context is known. *)
Definition with_kb_context (message : str) (kb : option str) : str :=
  match kb with
  | Some ctx =>
      if str_truthy ctx then
        message ++ py (String "010" "==========")
                ++ py (String "010" "根据用户消息查到的知识库片段：")
                ++ py (String "010" "") ++ ctx
      else message
  | None => message
  end.

(** The [try] block of [_process_ai_response]. *)
Definition try_block (w : World) (_retry : bool)
    (session_id agent_id message : str) : BodyResult :=
  match session_lookup w _retry with
  | Fails e => Raised [] e message None
  | Ok None => Completed []
  | Ok (Some session_info) =>
      let uid := user_id session_info in
      let message := with_kb_context message (kb_context w _retry uid message) in
      let ev_client :=
        [EvEnsureClient agent_id uid (session_claude_id session_info)] in
      match ensure_client w _retry with
      | Fails e => Raised ev_client e message (Some uid)
      | Ok false => Completed ev_client
      | Ok true =>
          let '(saved, outcome) := exchange w _retry message in
          let log := ev_client ++ [EvQuery agent_id message]
                     ++ map (exchange_event session_id agent_id) saved in
          match outcome with
          | Ok _ => Completed log
          | Fails e => Raised log e message (Some uid)
          end
      end
  end.

(** The test of the [except] branch on [err_msg]. *)
Definition is_fatal_cli_error (u : Unicode) (err_msg : str) : bool :=
  contains (py "terminated process") (py_lower u err_msg)
  || contains (py "message reader") (py_lower u err_msg)
  || contains (py "exit code") (py_lower u err_msg)
  || contains (py "cannot write to terminated process") (py_lower u err_msg).

(** The error message saved for the user. *)
Definition error_message (session_id agent_id : str) : Event :=
  EvSaveMessage session_id agent_id
    (py "抱歉，处理您的消息时出现了错误,请重新登陆系统方可解决")
    (Some (py "{" ++ dquote ++ py "error" ++ dquote ++ py ": true}")).

(** [_process_ai_response], with [recurse] standing for the call the
    function makes to itself with [_retry=True]. *)
Definition process_with (u : Unicode) (recurse : str -> list Event)
    (w : World) (session_id agent_id message : str) (_retry : bool)
    : list Event :=
  match try_block w _retry session_id agent_id message with
  | Completed log => log
  | Raised log err_msg message uid =>
      if negb _retry && is_fatal_cli_error u err_msg then
        let ev_close := [EvCloseAgent agent_id] in
        match clear_resume w with
        | Fails _ => log ++ ev_close ++ [error_message session_id agent_id]
        | Ok _ =>
            let ev_clear := [EvUpdateSessionClaudeId session_id None] in
            match uid with
            | None =>
                (* [user_id] is unbound: NameError, caught *)
                log ++ ev_close ++ ev_clear ++ [error_message session_id agent_id]
            | Some uid =>
                let ev_client := [EvEnsureClient agent_id uid None] in
                match recover_client w with
                | Fails _ =>
                    log ++ ev_close ++ ev_clear ++ ev_client
                        ++ [error_message session_id agent_id]
                | Ok _ =>
                    log ++ ev_close ++ ev_clear ++ ev_client ++ recurse message
                end
            end
        end
      else log ++ [error_message session_id agent_id]
  end.

Definition _process_ai_response (u : Unicode) (w : World)
    (session_id agent_id message : str) (_retry : bool) : list Event :=
  process_with u
    (fun message =>
       process_with u (fun _ => []) w session_id agent_id message true)
    w session_id agent_id message _retry.

(** Number of [client.query] calls in a log. *)
Definition count_queries (log : list Event) : nat :=
  length (List.filter (fun e => match e with EvQuery _ _ => true | _ => false end) log).

(** Number of recovery actions (closing the agent, clearing the resume
    token) in a log. *)
Definition count_recoveries (log : list Event) : nat :=
  length (List.filter (fun e => match e with
                           | EvCloseAgent _ | EvUpdateSessionClaudeId _ None => true
                           | _ => false
                           end) log).

(** The log of a [try] block, however it ends. *)
Definition body_log (r : BodyResult) : list Event :=
  match r with
  | Completed log => log
  | Raised log _ _ _ => log
  end.

(** A world in which the agent's subprocess dies during the first
    exchange and the exchange fails again after the recreation. *)
Definition dying_cli_world : World := {|
  session_lookup := fun _ =>
    Ok (Some {| user_id := py "u1"; session_claude_id := Some (py "c-1") |});
  kb_context := fun _ _ _ => None;
  ensure_client := fun _ => Ok true;
  exchange := fun _retry _ =>
    if _retry
    then ([ExSaveMessage (py "thinking") None], Fails (py "boom"))
    else ([], Fails (py "Cannot write to terminated process (exit code: 1)"));
  clear_resume := Ok tt;
  recover_client := Ok true
|}.


(** A world in which the first exchange dies and, by the time of the
    retry, the client cannot be had any more. *)
Definition client_lost_world : World := {|
  session_lookup := fun _ =>
    Ok (Some {| user_id := py "u1"; session_claude_id := Some (py "c-1") |});
  kb_context := fun _ _ _ => None;
  ensure_client := fun _retry => Ok (negb _retry);
  exchange := fun _ _ =>
    ([], Fails (py "Cannot write to terminated process (exit code: 1)"));
  clear_resume := Ok tt;
  recover_client := Ok false
|}.

End ChatApi.
(* ===================================================================== *)
(** ** [shlex] (Python standard library)                                  *)
(* ===================================================================== *)

Module Shlex.

Definition in_range (lo hi : nat) (c : ascii) : bool :=
  ((lo <=? nat_of_ascii c) && (nat_of_ascii c <=? hi))%nat.

Definition char_in (c : ascii) (s : string) : bool :=
  existsb (Ascii.eqb c) (list_ascii_of_string s).

(** [\w] under [re.ASCII]: letters, digits, underscore. *)
Definition is_word_char (c : ascii) : bool :=
  in_range 48 57 c || in_range 65 90 c || in_range 97 122 c
  || Ascii.eqb c "_".

(** The complement of [_find_unsafe = re.compile(r'[^\w@%+=:,./-]',
    re.ASCII).search]. *)
Definition is_safe_char (c : ascii) : bool :=
  is_word_char c || char_in c "@%+=:,./-".

(** [s.replace("'", "'\"'\"'")] *)
Definition escape_squotes (s : str) : str :=
  flat_map (fun c => if Ascii.eqb c "'" then py "'" ++ dquote ++ py "'"
                                             ++ dquote ++ py "'"
                     else [c]) s.

(** [shlex.quote(s)] *)
Definition quote (s : str) : str :=
  match s with
  | [] => py "''"
  | _ :: _ =>
      if forallb is_safe_char s then s
      else py "'" ++ escape_squotes s ++ py "'"
  end.

(** The states of [shlex.read_token] that [shlex.split] can be in
    (POSIX mode, [whitespace_split], no commenters): [' '], ['a'], a
    quote character, or the escape character together with
    [escapedstate], which is ['a'] or the double quote. *)
Inductive LexState :=
| InSpace
| InWord
| InQuote (q : ascii)
| InEscape (in_dquote : bool).

Definition is_whitespace (c : ascii) : bool :=
  Ascii.eqb c " " || Ascii.eqb c "009" || Ascii.eqb c "013" || Ascii.eqb c "010".

Definition is_quote (c : ascii) : bool :=
  Ascii.eqb c "'" || Ascii.eqb c "034".

Definition is_escape (c : ascii) : bool := Ascii.eqb c "\".

(** What the iteration yields when the input ends with [token] read so
    far: nothing if the token is empty and no quote was seen. *)
Definition emit_at_eof (quoted : bool) (token : str) : list str :=
  if negb quoted && negb (str_truthy token) then [] else [token].

(** All the tokens of [list(lex)]: [read_token] run until it signals the
    end of input.  [quoted] and [token] are those of the current
    [read_token] call.  [None] is the [ValueError] of an unterminated
    quotation or escape. *)
Fixpoint lex (state : LexState) (quoted : bool) (token : str) (input : str)
    : option (list str) :=
  match input with
  | [] =>
      match state with
      | InSpace | InWord => Some (emit_at_eof quoted token)
      | InQuote _ | InEscape _ => None
      end
  | nextchar :: rest =>
      match state with
      | InSpace =>
          if is_whitespace nextchar then
            if str_truthy token || quoted
            then option_map (cons token) (lex InSpace false [] rest)
            else lex InSpace quoted token rest
          else if is_escape nextchar then lex (InEscape false) quoted token rest
          else if is_quote nextchar then lex (InQuote nextchar) quoted token rest
          else lex InWord quoted [nextchar] rest
      | InQuote q =>
          if Ascii.eqb nextchar q then lex InWord true token rest
          else if is_escape nextchar && Ascii.eqb q "034"
          then lex (InEscape true) true token rest
          else lex (InQuote q) true (token ++ [nextchar]) rest
      | InEscape in_dquote =>
          let token :=
            if in_dquote && negb (is_escape nextchar)
               && negb (Ascii.eqb nextchar "034")
            then token ++ py "\" else token in
          lex (if in_dquote then InQuote "034" else InWord) quoted
              (token ++ [nextchar]) rest
      | InWord =>
          if is_whitespace nextchar then
            if str_truthy token || quoted
            then option_map (cons token) (lex InSpace false [] rest)
            else lex InSpace quoted token rest
          else if is_quote nextchar then lex (InQuote nextchar) quoted token rest
          else if is_escape nextchar then lex (InEscape false) quoted token rest
          else lex InWord quoted (token ++ [nextchar]) rest
      end
  end.

(** A character the lexer just appends to the current token. *)
Definition is_plain (c : ascii) : bool :=
  negb (is_whitespace c) && negb (is_quote c) && negb (is_escape c).

(** [quote] returns [s] itself. *)
Definition is_safe_str (s : str) : bool :=
  str_truthy s && forallb is_safe_char s.

(** [shlex.split(s)] *)
Definition split (s : str) : option (list str) := lex InSpace false [] s.

End Shlex.
(* ===================================================================== *)
(** ** [os.path] on POSIX (Python standard library, [posixpath])          *)
(* ===================================================================== *)

Module PosixPath.

Definition sep : ascii := "/".

(** [os.path.join(a, p)] *)
Definition path_join (a p : str) : str :=
  if startswith [sep] p then p
  else if negb (str_truthy a) || endswith [sep] a then a ++ p
  else a ++ [sep] ++ p.

(** One round of the loop of [normpath]; [new_comps] is kept as a stack,
    last component first. *)
Definition norm_step (initial_slashes : nat) (new_comps : list str)
    (comp : str) : list str :=
  if str_eqb comp [] || str_eqb comp (py ".") then new_comps
  else if negb (str_eqb comp (py ".."))
          || (Nat.eqb initial_slashes 0
              && match new_comps with [] => true | _ => false end)
          || match new_comps with
             | last :: _ => str_eqb last (py "..")
             | [] => false
             end
       then comp :: new_comps
       else match new_comps with
            | _ :: popped => popped
            | [] => []
            end.

(** [initial_slashes] of [normpath]: POSIX keeps exactly two leading
    slashes and treats three or more as one. *)
Definition initial_slashes (path : str) : nat :=
  if startswith [sep] path then
    if startswith [sep; sep] path && negb (startswith [sep; sep; sep] path)
    then 2%nat else 1%nat
  else 0%nat.

(** [os.path.normpath(path)] *)
Definition normpath (path : str) : str :=
  match path with
  | [] => py "."
  | _ :: _ =>
      let n := initial_slashes path in
      let comps := rev (fold_left (norm_step n) (split_sep sep path) []) in
      let path := repeat sep n ++ join [sep] comps in
      if str_truthy path then path else py "."
  end.

(** [os.path.abspath(path)] *)
Definition abspath (host : Host) (path : str) : str :=
  normpath (if startswith [sep] path then path
            else path_join (getcwd host) path).

(** The loop of [commonpath] over [enumerate(s1)]; [s2[i]] past the end
    of [s2] is an [IndexError]. *)
Fixpoint common_loop (s1 s2 : list str) : Outcome (list str) :=
  match s1 with
  | [] => Return []
  | c :: s1' =>
      match s2 with
      | [] => Raise IndexError
      | d :: s2' =>
          if str_eqb c d then
            match common_loop s1' s2' with
            | Return common => Return (c :: common)
            | Raise e => Raise e
            end
          else Return []
      end
  end.

(** [os.path.commonpath(paths)] *)
Definition commonpath (paths : list str) : Outcome str :=
  match paths with
  | [] => Raise (ValueError (py "commonpath() arg is an empty sequence"))
  | p0 :: ps =>
      let isabs := startswith [sep] p0 in
      if forallb (fun p => Bool.eqb (startswith [sep] p) isabs) ps then
        let clean (s : list str) :=
          List.filter (fun c => str_truthy c && negb (str_eqb c (py "."))) s in
        let split_paths := map (fun p => clean (split_sep sep p)) paths in
        match split_paths with
        | [] => Raise IndexError
        | x :: xs =>
            let s1 := list_min x xs in
            let s2 := list_max x xs in
            match common_loop s1 s2 with
            | Return common =>
                Return ((if isabs then [sep] else []) ++ join [sep] common)
            | Raise e => Raise e
            end
        end
      else Raise (ValueError (py "Can't mix absolute and relative paths"))
  end.

(** The components a path names once split at [/], empty and [.]
    components dropped. *)
Definition components (p : str) : list str :=
  List.filter (fun c => str_truthy c && negb (str_eqb c (py "."))) (split_sep sep p).

(** [prefix] is an initial segment of [l]. *)
Fixpoint is_prefix (prefix l : list str) : bool :=
  match prefix, l with
  | [], _ => true
  | _ :: _, [] => false
  | c :: prefix', d :: l' => str_eqb c d && is_prefix prefix' l'
  end.

(** The longest common initial segment of two lists of components. *)
Fixpoint lcp (a b : list str) : list str :=
  match a, b with
  | c :: a', d :: b' => if str_eqb c d then c :: lcp a' b' else []
  | _, _ => []
  end.

(** A component as [normpath] leaves it: non-empty, not [.], without a
    separator. *)
Definition clean (c : str) : Prop :=
  c <> [] /\ c <> py "." /\ ~ In sep c.

End PosixPath.
(* ===================================================================== *)
(** ** Command isolation ([core/firewall/firewall_bash.py])               *)
(* ===================================================================== *)

Module Firewall.

(** [ch.isalnum()] for one character [ch], given by its bytes: an ASCII
    character is alphanumeric when it is a digit or a letter, any other
    character when the Unicode tables say so. *)
Definition isalnum (u : Unicode) (ch : str) : bool :=
  match ch with
  | [c] =>
      if is_ascii c then
        Shlex.in_range 48 57 c || Shlex.in_range 65 90 c
        || Shlex.in_range 97 122 c
      else char_isalnum u ch
  | _ => char_isalnum u ch
  end.

(** [_to_linux_user(user_id)]: [safe] is kept as the list of its
    characters, so that [safe[:16]] takes sixteen characters. *)
Definition _to_linux_user (cfg : Config) (u : Unicode) (user_id : str)
    : str :=
  let safe := List.filter (isalnum u) (utf8_chars (py_lower u user_id)) in
  LINUX_USER_PREFIX cfg ++ concat (firstn 16 safe).

(** The class [[^/\\\\]] of [USER_ID_PATTERN]: anything but a slash or a
    backslash. *)
Definition is_id_char (c : ascii) : bool :=
  negb (Ascii.eqb c "/" || Ascii.eqb c "\").

Fixpoint take_while (f : ascii -> bool) (s : str) : str :=
  match s with
  | [] => []
  | c :: s' => if f c then c :: take_while f s' else []
  end.

(** [s] with the prefix [p] removed, if it starts with [p]. *)
Fixpoint strip_prefix (p s : str) : option str :=
  match p, s with
  | [], _ => Some s
  | _ :: _, [] => None
  | c :: p', d :: s' => if Ascii.eqb c d then strip_prefix p' s' else None
  end.

(** [USER_ID_PATTERN.match] at the start of [s]: group 1 of
    [userid_([^/\\\\]+)]. *)
Definition match_user_id_here (s : str) : option str :=
  match strip_prefix (py "userid_") s with
  | Some after =>
      match take_while is_id_char after with
      | [] => None
      | group => Some group
      end
  | None => None
  end.

(** [_extract_user_id(work_dir)]: [USER_ID_PATTERN.search], the leftmost
    match. *)
Fixpoint _extract_user_id (work_dir : str) : option str :=
  match work_dir with
  | [] => None
  | _ :: rest =>
      match match_user_id_here work_dir with
      | Some group => Some group
      | None => _extract_user_id rest
      end
  end.

(** [str(base_dir / name)] for a [name] without a slash; [base_dir] is
    the string of a [Path]. *)
Definition path_child (base_dir name : str) : str :=
  if str_eqb base_dir (py ".") then name
  else if endswith (py "/") base_dir then base_dir ++ name
  else base_dir ++ py "/" ++ name.

(** [_resolve_user_workspace(work_dir, user_id)] *)
Definition _resolve_user_workspace (cfg : Config) (work_dir : str)
    (user_id : option str) : str :=
  match user_id with
  | None => work_dir
  | Some uid =>
      if str_truthy uid then path_child (WORK_BASE_DIR cfg) (py "userid_" ++ uid)
      else work_dir
  end.

(** What one call of [_wrap_bash_command] draws from its environment:
    [int(time.time() * 1000)] and [uuid.uuid4().hex]. *)
Record WrapEnv := {
  time_ms : Z;
  uuid4_hex : str
}.

(** The unit name [job-<linux_user>-<ms>-<6 hex digits>]. *)
Definition job_unit (env : WrapEnv) (linux_user : str) : str :=
  let job_id := str_of_int (time_ms env) ++ py "-" ++ firstn 6 (uuid4_hex env) in
  py "job-" ++ linux_user ++ py "-" ++ job_id.

(** [_wrap_bash_command(command, linux_user, work_dir)] *)
Definition _wrap_bash_command (env : WrapEnv) (command linux_user work_dir : str)
    : str :=
  let unit := job_unit env linux_user in
  py "sudo chown -R " ++ Shlex.quote linux_user ++ py ":"
    ++ Shlex.quote linux_user ++ py " " ++ Shlex.quote work_dir ++ py " && "
  ++ py "sudo systemd-run --scope --slice=user-" ++ Shlex.quote linux_user
    ++ py ".slice "
  ++ py "--unit=" ++ Shlex.quote unit ++ py " "
  ++ py "--working-directory=" ++ Shlex.quote work_dir ++ py " "
  ++ py "--uid=" ++ Shlex.quote linux_user ++ py " --gid="
    ++ Shlex.quote linux_user ++ py " --quiet "
  ++ py "bash -lc " ++ Shlex.quote command.

(** [_has_required_workdir(cmd)], local to
    [_is_allowed_wrapped_command]. *)
Definition _has_required_workdir (work_dir cmd : str) : bool :=
  if negb (str_truthy work_dir) then true
  else
    let workdir_snippet := py "cd " ++ Shlex.quote work_dir in
    contains (py "bash -lc") cmd && contains workdir_snippet cmd.

(** [has_systemd_run(tokens, start_idx)] *)
Definition has_systemd_run (linux_user : str) (tokens : list str)
    (start_idx : nat) : bool :=
  match skipn start_idx tokens with
  | t0 :: t1 :: after =>
      if negb (str_eqb t0 (py "sudo")) || negb (str_eqb t1 (py "systemd-run"))
      then false
      else
        let scope_ok := existsb (str_eqb (py "--scope")) after in
        let slice_ok :=
          existsb (str_eqb (py "--slice=user-" ++ linux_user ++ py ".slice"))
                  after in
        scope_ok && slice_ok
  | _ => false
  end.

(** The [for idx in range(len(parts) - 1)] loop over the indices left. *)
Fixpoint legacy_scan (linux_user work_dir command : str) (parts : list str)
    (idxs : list nat) : bool :=
  match idxs with
  | [] => false
  | idx :: idxs' =>
      if str_eqb (nth idx parts []) (py "sudo")
         && str_eqb (nth (S idx) parts []) (py "systemd-run")
         && has_systemd_run linux_user parts idx
      then _has_required_workdir work_dir command
      else legacy_scan linux_user work_dir command parts idxs'
  end.

(** [_is_allowed_wrapped_command(command, linux_user, work_dir)] *)
Definition _is_allowed_wrapped_command (command linux_user work_dir : str)
    : bool :=
  let parts := match Shlex.split command with
               | Some parts => parts
               | None => []
               end in
  let parts := match parts with
               | first :: others =>
                   if str_eqb first (py "time") then others else parts
               | [] => parts
               end in
  if has_systemd_run linux_user parts 0
  then _has_required_workdir work_dir command
  else legacy_scan linux_user work_dir command parts
         (seq 0 (length parts - 1)).

(** Values found in a tool's input dictionary. *)
Inductive pyval :=
| PNone
| PBool (b : bool)
| PInt (n : Z)
| PStr (s : str).

Definition truthy (v : pyval) : bool :=
  match v with
  | PNone => false
  | PBool b => b
  | PInt n => negb (n =? 0)
  | PStr s => str_truthy s
  end.

(** [str(v)] *)
Definition py_str (v : pyval) : str :=
  match v with
  | PNone => py "None"
  | PBool true => py "True"
  | PBool false => py "False"
  | PInt n => str_of_int n
  | PStr s => s
  end.

(** [a or b] *)
Definition py_or (a b : pyval) : pyval := if truthy a then a else b.

Definition pyval_eqb (a b : pyval) : bool :=
  match a, b with
  | PStr s, PStr t => str_eqb s t
  | PNone, PNone => true
  | PBool x, PBool y => Bool.eqb x y
  | PInt x, PInt y => x =? y
  | PBool x, PInt y | PInt y, PBool x => (if x then 1 else 0) =? y
  | _, _ => false
  end.

Abbreviation dict := (gmap str pyval).

(** [d.get(key)] *)
Definition dict_get (d : dict) (key : string) : pyval :=
  default PNone (d !! py key).

(** How [PermissionResultAllow] of the installed agent SDK can be built,
    as [_allow_permission_result] finds out by reflection. *)
Inductive SdkAllow :=
| TakesUpdatedInput
| TakesInputData
| TakesNothing
| NoAllowClass.

(** What a permission handler returns. *)
Inductive PermissionResult :=
| PermissionResultAllow (updated_input : option dict)
| AllowDict (updatedInput : dict)
| DenyDict (systemMessage : str).

(** [_allow_permission_result(updated_input)] *)
Definition _allow_permission_result (sdk : SdkAllow) (updated_input : dict)
    : PermissionResult :=
  match sdk with
  | TakesUpdatedInput | TakesInputData =>
      PermissionResultAllow (Some updated_input)
  | TakesNothing => PermissionResultAllow None
  | NoAllowClass => AllowDict updated_input
  end.

(** [_is_path_allowed(path, allowed_dir)] *)
Definition _is_path_allowed (host : Host) (path allowed_dir : str) : bool :=
  if negb (str_truthy path) then true
  else
    let abs_path := PosixPath.abspath host path in
    let abs_allowed := PosixPath.abspath host allowed_dir in
    match PosixPath.commonpath [abs_path; abs_allowed] with
    | Return common => str_eqb common abs_allowed
    | Raise _ => false
    end.

(** The message of a denial. *)
Definition deny_message (user_workspace : str) : str :=
  py "安全限制：只能访问工作目录 " ++ user_workspace ++ py " 内的文件。".

(** [dict(input_data or {})] *)
Definition dict_or_empty (input_data : option dict) : dict :=
  default ∅ input_data.

(** The handler returned by [build_tool_permission_handler(work_dir)],
    applied to [tool_name] and [input_data].  [env] is what a wrapping
    draws from clock and random source during that call. *)
Definition build_tool_permission_handler (cfg : Config) (u : Unicode)
    (host : Host) (sdk : SdkAllow) (work_dir : str) (env : WrapEnv)
    (tool_name : str) (input_data : option dict)
    : Outcome PermissionResult :=
  if negb (FIREWALL_ENABLED cfg) then
    Return (_allow_permission_result sdk (dict_or_empty input_data))
  else
    let user_id := _extract_user_id work_dir in
    let linux_user :=
      match user_id with
      | Some uid =>
          if str_truthy uid then Some (_to_linux_user cfg u uid) else None
      | None => None
      end in
    let linux_user_ok :=
      match linux_user with Some u => str_truthy u | None => false end in
    let user_workspace := _resolve_user_workspace cfg work_dir user_id in
    let bash_work_dir := work_dir in
    let updated_input := dict_or_empty input_data in
    let resolved_tool :=
      if str_truthy tool_name then PStr tool_name
      else dict_get updated_input "tool_name" in
    let file_path :=
      py_or (dict_get updated_input "file_path")
            (py_or (dict_get updated_input "path")
                   (dict_get updated_input "pattern")) in
    if linux_user_ok
       && (pyval_eqb resolved_tool (PStr (py "Read"))
           || pyval_eqb resolved_tool (PStr (py "Grep"))
           || pyval_eqb resolved_tool (PStr (py "Glob")))
       && truthy file_path
       && negb (_is_path_allowed host (py_str file_path) user_workspace)
    then Return (DenyDict (deny_message user_workspace))
    else if negb (str_eqb (os_name host) (py "nt"))
            && pyval_eqb resolved_tool (PStr (py "Bash"))
            && linux_user_ok
            && truthy (dict_get updated_input "command")
    then
      match dict_get updated_input "command", linux_user with
      | PStr command, Some linux_user =>
          let wrapped := _wrap_bash_command env command linux_user bash_work_dir in
          Return (_allow_permission_result sdk
                    (<[py "command" := PStr wrapped]> updated_input))
      | _, _ => Raise TypeError
      end
    else Return (_allow_permission_result sdk updated_input).

(** The scenarios of the specification, for tenant [u1] under the
    default work base [/home/queen]. *)
Definition read_request (cwd path : string) : Outcome PermissionResult :=
  build_tool_permission_handler default_config ascii_unicode
    {| os_name := py "posix"; getcwd := py cwd |}
    NoAllowClass (py "/home/queen/userid_u1/agent1")
    {| time_ms := 0; uuid4_hex := py "00112233" |}
    (py "Read") (Some (<[py "file_path" := PStr (py path)]> ∅)).

Definition denied : Outcome PermissionResult :=
  Return (DenyDict (deny_message (py "/home/queen/userid_u1"))).

Definition allowed (path : string) : Outcome PermissionResult :=
  Return (AllowDict (<[py "file_path" := PStr (py path)]> ∅)).

End Firewall.
(* ===================================================================== *)
(** ** Port layout and storage quota ([firewall_bash.py])                 *)
(* ===================================================================== *)

Module Quota.
Import PortAllocator.

(** Rows laid out back to back from [start], each of the configured
    block size. *)
Fixpoint packed_from (cfg : Config) (start : Z) (t : user_set) : Prop :=
  match t with
  | [] => True
  | r :: t' =>
      port_start r = start /\
      port_end r = start + USER_PORT_BLOCK_SIZE cfg - 1 /\
      packed_from cfg (start + USER_PORT_BLOCK_SIZE cfg) t'
  end.

(** [SELECT storage_quota_bytes FROM user_set WHERE user_id = %s] and
    [_get_user_storage_quota(user_id)]. *)
Definition _get_user_storage_quota (user_id : str) (t : user_set) : option Z :=
  match List.find (fun r => str_eqb (row_user_id r) user_id) t with
  | Some r => Some (storage_quota_bytes r)
  | None => None
  end.

(** [check_user_storage_quota(user_id)], returning
    [(allowed, used_bytes, quota_bytes)].  [used] is what
    [_get_user_workspace_size_bytes(user_id)] returns: the byte count
    printed by [du -sb] for the tenant's workspace, or [None] when the
    subprocess fails or prints nothing. *)
Definition check_user_storage_quota (cfg : Config) (host : Host)
    (used : option Z) (user_id : str) (t : user_set) : bool * Z * Z :=
  if negb (FIREWALL_ENABLED cfg) || str_eqb (os_name host) (py "nt")
  then (true, 0, 0)
  else
    match _get_user_storage_quota user_id t with
    | None => (true, 0, 0)
    | Some quota =>
        match used with
        | None => (true, 0, quota)
        | Some used => (used <=? quota, used, quota)
        end
    end.

End Quota.
(* ===================================================================== *)
(** ** Work directories ([core/system/config.py])                         *)
(* ===================================================================== *)

Module ConfigPaths.
Import Firewall.

(** [str(config.get_user_work_base_dir(user_id))], for a [user_id]
    without a slash. *)
Definition get_user_work_base_dir (cfg : Config) (user_id : str) : str :=
  path_child (WORK_BASE_DIR cfg) (py "userid_" ++ user_id).

(** [config.get_agent_work_dir(user_id, agent_id)], for ids without a
    slash: [base_dir / "userid_<user_id>" / "agentid_<agent_id>" /
    "work"]. *)
Definition get_agent_work_dir (cfg : Config) (user_id agent_id : str) : str :=
  path_child
    (path_child (get_user_work_base_dir cfg user_id)
                (py "agentid_" ++ agent_id))
    (py "work").


(** The components [normpath] keeps for [path]: its stack of components
    at the end of the loop, first component first. *)
Definition norm_comps (path : str) : list str :=
  rev (fold_left (PosixPath.norm_step (PosixPath.initial_slashes path))
                 (split_sep PosixPath.sep path) []).

End ConfigPaths.
(* ===================================================================== *)
(** ** Creating, replacing and closing clients
       ([core/agent/agent_manager.py], [core/chat/chat_api.py])           *)
(* ===================================================================== *)

Module AgentLifecycle.
Import AgentManager.

(** What [create_agent_client] asks of its collaborators once an
    existing client has been closed; [None] stands for a call that
    raises.
    - [agent_settings_work_dir agent_id]: the [work_dir] entry of
      [db.get_agent_settings(agent_id) or {}];
    - [generate_system_prompt agent_name work_dir agent_id];
    - [bash_isolation_prompt work_dir]: [get_bash_isolation_prompt];
    - [build_client options]: everything from the MCP lookups to
      [ClaudeSDKClient(options)], the [mkdir] of the working directory
      included. *)
Record CreateWorld := {
  agent_settings_work_dir : str -> option (option str);
  generate_system_prompt : str -> str -> str -> option str;
  bash_isolation_prompt : str -> str;
  build_client : ClientOptions -> option Client
}.

(** [create_agent_client(agent_id, agent_name, work_dir, session_id)],
    with [now] the value of [datetime.now()] at the store. *)
Definition create_agent_client (cfg : Config) (w : CreateWorld)
    (now : datetime) (agent_id agent_name work_dir : str)
    (session_id : option str) (st : AgentManager)
    : bool * AgentManager * list Event :=
  let '(st, log) :=
    match _clients st !! agent_id with
    | Some _ =>
        let '(_, st', evs) := close_agent_client agent_id st in (st', evs)
    | None => (st, [])
    end in
  match agent_settings_work_dir w agent_id with
  | None => (false, st, log)
  | Some custom_work_dir =>
      let work_dir :=
        match custom_work_dir with
        | Some d => if str_truthy d then d else work_dir
        | None => work_dir
        end in
      match generate_system_prompt w agent_name work_dir agent_id with
      | None => (false, st, log)
      | Some system_prompt =>
          let system_prompt :=
            if FIREWALL_ENABLED cfg then
              let isolation_prompt := bash_isolation_prompt w work_dir in
              if str_truthy isolation_prompt
                 && negb (contains isolation_prompt system_prompt)
              then system_prompt ++ isolation_prompt
              else system_prompt
            else system_prompt in
          let options := {| cwd := work_dir;
                            system_prompt := system_prompt;
                            resume := session_id |} in
          match build_client w options with
          | None => (false, st, log)
          | Some client =>
              (true,
               {| _clients := <[agent_id := client]> (_clients st);
                  _client_options :=
                    <[agent_id := options]> (_client_options st);
                  _client_connected :=
                    <[agent_id := false]> (_client_connected st);
                  _agent_last_active :=
                    <[agent_id := now]> (_agent_last_active st) |},
               log)
          end
      end
  end.

(** [get_agent_client(agent_id)] *)
Definition get_agent_client (agent_id : str) (st : AgentManager)
    : option Client :=
  _clients st !! agent_id.

(** [is_client_available(agent_id)] *)
Definition is_client_available (agent_id : str) (st : AgentManager) : bool :=
  bool_decide (is_Some (_clients st !! agent_id)).

(** [get_agent_session_id(agent_id)] *)
Definition get_agent_session_id (agent_id : str) (st : AgentManager)
    : option str :=
  match _client_options st !! agent_id with
  | Some options => resume options
  | None => None
  end.

(** Body of the loop of [close_all_clients]. *)
Definition close_all_step (s : AgentManager * Z * list Event)
    (agent_id : str) : AgentManager * Z * list Event :=
  let '(st, closed_count, log) := s in
  let '(ok, st', evs) := close_agent_client agent_id st in
  (st', (if ok then closed_count + 1 else closed_count), log ++ evs).

(** [close_all_clients()]: the keys of [_clients] are snapshotted, each
    one is closed, and the number of closes that returned [True] is
    returned. *)
Definition close_all_clients (st : AgentManager)
    : Z * AgentManager * list Event :=
  let agent_ids := fst <$> map_to_list (_clients st) in
  let '(st', closed_count, log) :=
    fold_left close_all_step agent_ids (st, 0, []) in
  (closed_count, st', log).

(** Number of [connect] calls in a log. *)
Definition count_connects (log : list Event) : nat :=
  length (List.filter
            (fun e => match e with EvConnect _ => true | _ => false end) log).

End AgentLifecycle.

Module ChatClient.
Import AgentManager AgentLifecycle.

(** [bool(x)] for an optional string. *)
Definition opt_truthy (x : option str) : bool :=
  match x with
  | Some s => str_truthy s
  | None => false
  end.

(** [a != b] for optional strings. *)
Definition opt_str_neqb (a b : option str) : bool :=
  match a, b with
  | Some s, Some t => negb (str_eqb s t)
  | None, None => false
  | _, _ => true
  end.

(** What [_ensure_agent_client] asks of its collaborators besides the
    registry; [None] stands for a call that raises.
    - [desired_work_dir]: the [work_dir] entry of
      [db.get_agent_settings(agent_id) or {}] read by the function
      itself;
    - [resolved_work_dir user_id agent_id]: [get_agent_work_dir];
    - [agent_username]: the [username] entry of
      [db.get_user_by_id(agent_id)], [None] also when there is no row;
    - [create_world]: the collaborators of [create_agent_client]. *)
Record EnsureWorld := {
  desired_work_dir : option (option str);
  resolved_work_dir : str -> str -> str;
  agent_username : option str;
  create_world : CreateWorld
}.

(** The [if client:] block of [_ensure_agent_client], entered with the
    client found for the agent: it decides whether that client has to be
    rebuilt, adopts the request's session id when the client's options
    carry no resume token, and closes the client when a rebuild is
    needed.  It leaves the variable [client], the registry and the calls
    made. *)
Definition check_existing_client (w : EnsureWorld) (agent_id : str)
    (session_claude_id : option str) (c : Client) (st : AgentManager)
    : option Client * AgentManager * list Event :=
  let options := _client_options st !! agent_id in
  let current_resume :=
    match options with
    | Some o => resume o
    | None => None
    end in
  let current_work_dir := cwd <$> options in
  let need_rebuild :=
    match desired_work_dir w with
    | Some desired =>
        opt_truthy desired && opt_str_neqb desired current_work_dir
    | None => false
    end in
  let '(need_rebuild, st) :=
    if opt_truthy session_claude_id
       && opt_str_neqb session_claude_id current_resume
    then
      if opt_truthy current_resume then (true, st)
      else
        match options with
        | Some o =>
            (need_rebuild,
             {| _clients := _clients st;
                _client_options :=
                  <[agent_id := {| cwd := cwd o;
                                   system_prompt := system_prompt o;
                                   resume := session_claude_id |}]>
                    (_client_options st);
                _client_connected := _client_connected st;
                _agent_last_active := _agent_last_active st |})
        | None => (true, st)
        end
    else (need_rebuild, st) in
  if need_rebuild then
    let '(_, st', evs) := close_agent_client agent_id st in
    (None, st', evs)
  else (Some c, st, []).

(** [_ensure_agent_client(agent_id, user_id, session_claude_id)].  The
    default agent name takes the first eight characters of the agent
    id. *)
Definition _ensure_agent_client (cfg : Config) (w : EnsureWorld)
    (now : datetime) (agent_id user_id : str)
    (session_claude_id : option str) (st : AgentManager)
    : option Client * AgentManager * list Event :=
  let '(client, st, log) :=
    match get_agent_client agent_id st with
    | Some c => check_existing_client w agent_id session_claude_id c st
    | None => (None, st, [])
    end in
  match client with
  | Some c => (Some c, st, log)
  | None =>
      let work_dir := resolved_work_dir w user_id agent_id in
      let agent_name :=
        match agent_username w with
        | Some u =>
            if str_truthy u then u
            else py "AI_" ++ concat (firstn 8 (utf8_chars agent_id))
        | None => py "AI_" ++ concat (firstn 8 (utf8_chars agent_id))
        end in
      let '(success, st', evs) :=
        create_agent_client cfg (create_world w) now agent_id agent_name
          work_dir session_claude_id st in
      if negb success then (None, st', log ++ evs)
      else (get_agent_client agent_id st', st', log ++ evs)
  end.

End ChatClient.

(* ===================================================================== *)
(** * Properties                                                          *)
(* ===================================================================== *)

(** ** Strings *)

Lemma str_eqb_eq a b : str_eqb a b = true <-> a = b.
Proof. unfold str_eqb. apply bool_decide_eq_true. Qed.

Lemma str_eqb_refl a : str_eqb a a = true.
Proof. by apply str_eqb_eq. Qed.

Lemma str_eqb_neq a b : str_eqb a b = false <-> a <> b.
Proof. unfold str_eqb. apply bool_decide_eq_false. Qed.

Lemma str_eqb_sym a b : str_eqb a b = str_eqb b a.
Proof.
  destruct (str_eqb b a) eqn:E.
  - apply str_eqb_eq in E. subst. apply str_eqb_refl.
  - apply str_eqb_neq in E. apply str_eqb_neq. congruence.
Qed.
(** ** Port allocator *)

Section PortAllocatorFacts.
Import PortAllocator.
Variable cfg : Config.

Lemma sql_max_port_end_none t : sql_max_port_end t = None -> t = [].
Proof.
  destruct t as [|r t]; [reflexivity|].
  simpl. destruct (sql_max_port_end t); discriminate.
Qed.

Lemma sql_max_port_end_upper t m :
  sql_max_port_end t = Some m -> Forall (fun r => port_end r <= m) t.
Proof.
  revert m. induction t as [|r t IH]; intros m Hm; [constructor|].
  simpl in Hm. destruct (sql_max_port_end t) as [m'|] eqn:E.
  - injection Hm as <-. constructor; [lia|].
    eapply List.Forall_impl; [|apply (IH m' eq_refl)].
    intros a Ha. simpl in Ha. lia.
  - injection Hm as <-. apply sql_max_port_end_none in E. subst t.
    constructor; [lia|constructor].
Qed.

Lemma select_max_end_upper d t :
  Forall (fun r => port_end r <= select_max_end d t) t.
Proof.
  unfold select_max_end. destruct (sql_max_port_end t) as [m|] eqn:E.
  - by apply sql_max_port_end_upper.
  - apply sql_max_port_end_none in E. subst. constructor.
Qed.

Lemma select_port_range_none uid t :
  select_port_range uid t = None ->
  Forall (fun r => row_user_id r <> uid) t.
Proof.
  unfold select_port_range. intros H.
  apply List.Forall_forall. intros r Hr Heq.
  destruct (List.find _ t) as [r'|] eqn:E; [discriminate|].
  eapply List.find_none in E; [|exact Hr].
  unfold str_eqb in E. rewrite bool_decide_eq_false in E. contradiction.
Qed.

Lemma select_port_range_some uid t ps pe :
  select_port_range uid t = Some (ps, pe) ->
  exists r, In r t /\ row_user_id r = uid /\ port_start r = ps /\ port_end r = pe.
Proof.
  unfold select_port_range. intros H.
  destruct (List.find _ t) as [r|] eqn:E; [|discriminate].
  injection H as <- <-. apply List.find_some in E as [Hin Heq].
  unfold str_eqb in Heq. rewrite bool_decide_eq_true in Heq. eauto.
Qed.

Lemma select_port_range_app uid t t' v :
  select_port_range uid t = Some v ->
  select_port_range uid (t ++ t') = Some v.
Proof.
  unfold select_port_range. induction t as [|r t IH]; simpl; [discriminate|].
  destruct (str_eqb (row_user_id r) uid); [trivial|exact IH].
Qed.

(** What one call does, case by case. *)
Lemma ensure_user_settings_cases env uid t :
  let res := ensure_user_settings cfg env uid t in
  (exists ps pe, select_port_range uid t = Some (ps, pe) /\
                 res = (Return (ps, pe), t))
  \/ (select_port_range uid t = None /\ res = (Raise pool_exhausted, t))
  \/ (exists row,
        select_port_range uid t = None /\
        res = (Return (port_start row, port_end row), t ++ [row]) /\
        row_user_id row = uid /\
        Forall (fun r => port_end r < port_start row) t /\
        USER_PORT_POOL_START cfg <= port_start row /\
        port_end row = port_start row + USER_PORT_BLOCK_SIZE cfg - 1 /\
        port_end row <= USER_PORT_POOL_END cfg).
Proof.
  unfold ensure_user_settings.
  destruct (select_port_range uid t) as [[ps pe]|] eqn:Hsel; cbn zeta.
  - left. eauto.
  - right.
    set (m := select_max_end (USER_PORT_POOL_START cfg - 1) t).
    destruct (Z.gtb_spec (Z.max (m + 1) (USER_PORT_POOL_START cfg)
                          + USER_PORT_BLOCK_SIZE cfg - 1)
                         (USER_PORT_POOL_END cfg)) as [Hgt|Hle].
    + left. split; reflexivity.
    + right.
      exists {| row_id := fresh_uuid env; row_user_id := uid;
                port_start := Z.max (m + 1) (USER_PORT_POOL_START cfg);
                port_end := Z.max (m + 1) (USER_PORT_POOL_START cfg)
                            + USER_PORT_BLOCK_SIZE cfg - 1;
                storage_quota_bytes := USER_DEFAULT_STORAGE_QUOTA_BYTES cfg;
                settings := py "{}";
                created_at := current_timestamp env;
                updated_at := current_timestamp env |}.
      split; [reflexivity|]. split; [reflexivity|]. simpl.
      split; [reflexivity|]. split; [|lia].
      eapply List.Forall_impl; [|apply (select_max_end_upper (USER_PORT_POOL_START cfg - 1) t)].
      intros a Ha. simpl in Ha. fold m in Ha. lia.
Qed.

Lemma ForallOrdPairs_snoc {A} (R : A -> A -> Prop) l x :
  ForallOrdPairs R l -> Forall (fun a => R a x) l -> ForallOrdPairs R (l ++ [x]).
Proof.
  induction 1 as [|a l Ha Hl IH]; intros Hx; simpl.
  - constructor; constructor.
  - inversion Hx; subst. constructor; [|auto].
    apply List.Forall_app. split; [assumption|]. constructor; [assumption|constructor].
Qed.

Lemma ensure_user_settings_ok env uid t :
  table_ok t -> table_ok (snd (ensure_user_settings cfg env uid t)).
Proof.
  intros [Hasc Hnd].
  destruct (ensure_user_settings_cases env uid t)
    as [(ps & pe & _ & ->)|[[_ ->]|(row & Hsel & -> & Huid & Hall & _)]];
    simpl; try (split; assumption).
  split.
  - apply ForallOrdPairs_snoc; assumption.
  - rewrite map_app. simpl. apply List.NoDup_app;
      [assumption|constructor; [simpl; tauto|constructor]|].
    intros x Hx [Hx'|[]]. subst x.
    apply select_port_range_none in Hsel.
    apply List.in_map_iff in Hx as (r & Hr & Hin).
    rewrite List.Forall_forall in Hsel. apply (Hsel r Hin). congruence.
Qed.

Lemma run_calls_ok calls t : table_ok t -> table_ok (run_calls cfg calls t).
Proof.
  revert t. induction calls as [|c calls IH]; intros t Ht; [exact Ht|].
  simpl. apply IH. apply ensure_user_settings_ok. exact Ht.
Qed.

Lemma reachable_ok t : reachable cfg t -> table_ok t.
Proof.
  intros [calls ->]. apply run_calls_ok.
  split; [constructor|constructor].
Qed.

(** The table only grows at its end: rows are never changed or removed. *)
Lemma ensure_user_settings_extends env uid t :
  exists ext, snd (ensure_user_settings cfg env uid t) = t ++ ext.
Proof.
  destruct (ensure_user_settings_cases env uid t)
    as [(ps & pe & _ & ->)|[[_ ->]|(row & _ & -> & _)]]; simpl.
  - exists []. by rewrite List.app_nil_r.
  - exists []. by rewrite List.app_nil_r.
  - eauto.
Qed.

Lemma run_calls_extends calls t :
  exists ext, run_calls cfg calls t = t ++ ext.
Proof.
  revert t. induction calls as [|c calls IH]; intros t.
  - exists []. simpl. by rewrite List.app_nil_r.
  - simpl. destruct (ensure_user_settings_extends (fst c) (snd c) t) as [e1 ->].
    destruct (IH (t ++ e1)) as [e2 ->]. exists (e1 ++ e2). by rewrite List.app_assoc.
Qed.

Lemma table_ok_disjoint t r1 r2 p :
  table_ok t -> In r1 t -> In r2 t -> row_user_id r1 <> row_user_id r2 ->
  in_block p r1 -> in_block p r2 -> False.
Proof.
  intros [Hasc _] H1 H2 Hne [Ha Hb] [Hc Hd].
  destruct (ForallOrdPairs_In Hasc r1 r2 H1 H2) as [->|[Hlt|Hlt]];
    [contradiction|lia|lia].
Qed.

Lemma table_ok_owner t r1 r2 :
  table_ok t -> In r1 t -> In r2 t -> row_user_id r1 = row_user_id r2 -> r1 = r2.
Proof.
  intros [_ Hnd]. revert Hnd. induction t as [|a t IH]; simpl; [tauto|].
  intros Hnd [->|H1] [->|H2] Heq; inversion Hnd as [|? ? Hnotin Hnd']; subst.
  - reflexivity.
  - exfalso. apply Hnotin. rewrite Heq. by apply List.in_map.
  - exfalso. apply Hnotin. rewrite <- Heq. by apply List.in_map.
  - auto.
Qed.

End PortAllocatorFacts.

Section PortAllocatorClaims.
Import PortAllocator.

Lemma select_max_end_attained d t :
  t <> [] -> exists r, In r t /\ port_end r = select_max_end d t.
Proof.
  unfold select_max_end. induction t as [|a t IH]; [congruence|]. intros _.
  simpl. destruct (sql_max_port_end t) as [m|] eqn:E.
  - destruct t as [|b t']; [discriminate|].
    destruct IH as (r & Hr & Hm); [discriminate|].
    destruct (Z.max_spec (port_end a) m) as [[_ ->]|[_ ->]].
    + exists r. split; [by right|exact Hm].
    + exists a. split; [by left|reflexivity].
  - exists a. split; [by left|reflexivity].
Qed.

(** C1.  Port-block allocation is monotonic and collision-free.
    (1) Whatever the table, a call that changes it appends exactly one
    row for the caller, whose block starts strictly after the end of
    every row already present and at or above the pool floor.
    (2) In every table produced by a sequence of calls from the empty
    table, the blocks of two distinct tenants share no port.
    (3) A row, once inserted, stays in the table through all later
    calls, and any row of a later table that shares a port with it is
    that very row: a block is never handed to another tenant.
    (4) With the default pool (floor 20001, block size 10) the first
    tenant receives (20001, 20010) and the next one (20011, 20020). *)
Theorem port_blocks_monotonic_disjoint :
  (forall cfg env uid t res t',
      ensure_user_settings cfg env uid t = (res, t') -> t' <> t ->
      exists row,
        t' = t ++ [row] /\ row_user_id row = uid /\
        res = Return (port_start row, port_end row) /\
        Forall (fun r => port_end r < port_start row) t /\
        USER_PORT_POOL_START cfg <= port_start row) /\
  (forall cfg calls r1 r2 p,
      In r1 (run_calls cfg calls []) -> In r2 (run_calls cfg calls []) ->
      row_user_id r1 <> row_user_id r2 ->
      ~ (in_block p r1 /\ in_block p r2)) /\
  (forall cfg calls more r,
      In r (run_calls cfg calls []) ->
      In r (run_calls cfg more (run_calls cfg calls [])) /\
      forall r' p,
        In r' (run_calls cfg more (run_calls cfg calls [])) ->
        in_block p r -> in_block p r' -> r' = r) /\
  (forall e1 e2 u1 u2, u1 <> u2 ->
      exists t1 t2,
        ensure_user_settings default_config e1 u1 [] = (Return (20001, 20010), t1) /\
        ensure_user_settings default_config e2 u2 t1 = (Return (20011, 20020), t2)).
Proof.
  split; [|split; [|split]].
  - intros cfg env uid t res t' Hcall Hne.
    destruct (ensure_user_settings_cases cfg env uid t)
      as [(ps & pe & _ & E)|[[_ E]|(row & _ & E & Huid & Hall & Hfloor & _)]];
      cbn zeta in E; rewrite Hcall in E; injection E as -> ->;
      try contradiction.
    exists row. auto.
  - intros cfg calls r1 r2 p H1 H2 Hne [Hp1 Hp2].
    assert (Hok : table_ok (run_calls cfg calls [])).
    { apply (reachable_ok cfg). by exists calls. }
    exact (table_ok_disjoint _ r1 r2 p Hok H1 H2 Hne Hp1 Hp2).
  - intros cfg calls more r Hr.
    destruct (run_calls_extends cfg more (run_calls cfg calls [])) as [ext Hext].
    assert (Hr' : In r (run_calls cfg more (run_calls cfg calls []))).
    { rewrite Hext. apply List.in_or_app. by left. }
    split; [exact Hr'|].
    intros r' p Hin Hp Hp'.
    assert (Hok : table_ok (run_calls cfg more (run_calls cfg calls []))).
    { apply run_calls_ok. apply (reachable_ok cfg). by exists calls. }
    destruct (decide (row_user_id r' = row_user_id r)) as [Heq|Hne].
    + exact (table_ok_owner _ r' r Hok Hin Hr' Heq).
    + exfalso. exact (table_ok_disjoint _ r' r p Hok Hin Hr' Hne Hp' Hp).
  - intros e1 e2 u1 u2 Hne. eexists. eexists. split; [reflexivity|].
    unfold ensure_user_settings, select_port_range. simpl.
    unfold str_eqb. rewrite bool_decide_eq_false_2 by exact Hne.
    reflexivity.
Qed.

Lemma port_blocks_monotonic_disjoint_witness :
  exists t1 t2,
    ensure_user_settings default_config
      {| fresh_uuid := py "id-1"; current_timestamp := 0 |} (py "u1") []
      = (Return (20001, 20010), t1) /\
    ensure_user_settings default_config
      {| fresh_uuid := py "id-2"; current_timestamp := 1 |} (py "u2") t1
      = (Return (20011, 20020), t2).
Proof.
  apply (proj2 (proj2 (proj2 port_blocks_monotonic_disjoint))).
  discriminate.
Defined.

(** C6.  [ensure_user_settings] is idempotent per tenant: once a tenant
    has a row, every later call for that tenant, whatever calls were made
    in between, returns exactly the pair stored in that row and leaves
    the table as it found it (so nothing is inserted). *)
Theorem ensure_user_settings_idempotent cfg uid t ps pe :
  _get_user_port_range uid t = Some (ps, pe) ->
  forall calls env,
    ensure_user_settings cfg env uid (run_calls cfg calls t)
    = (Return (ps, pe), run_calls cfg calls t).
Proof.
  unfold _get_user_port_range. intros Hsel calls env.
  destruct (run_calls_extends cfg calls t) as [ext ->].
  unfold ensure_user_settings.
  by rewrite (select_port_range_app uid t ext _ Hsel).
Qed.

Lemma ensure_user_settings_idempotent_witness :
  let row := {| row_id := py "id-1"; row_user_id := py "u1";
                port_start := 20001; port_end := 20010;
                storage_quota_bytes := 1073741824; settings := py "{}";
                created_at := 0; updated_at := 0 |} in
  let call2 := ({| fresh_uuid := py "id-2"; current_timestamp := 5 |}, py "u2") in
  let env := {| fresh_uuid := py "id-3"; current_timestamp := 9 |} in
  _get_user_port_range (py "u1") [row] = Some (20001, 20010) /\
  ensure_user_settings default_config env (py "u1")
    (run_calls default_config [call2] [row])
  = (Return (20001, 20010), run_calls default_config [call2] [row]).
Proof.
  split; [reflexivity|].
  apply (ensure_user_settings_idempotent default_config (py "u1")).
  reflexivity.
Defined.

(** C5.  Allocation fails with the pool-exhausted error exactly when the
    tenant has no row yet and the end of the block computed for it lies
    above the pool ceiling; no other error is raised by the allocator;
    a failing call leaves the table as it was; and the failure touches
    only that call: every tenant that has a row is still served from the
    table the failed call left behind. *)
Theorem pool_exhausted_iff cfg env uid t :
  let max_end := select_max_end (USER_PORT_POOL_START cfg - 1) t in
  let new_start := Z.max (max_end + 1) (USER_PORT_POOL_START cfg) in
  let new_end := new_start + USER_PORT_BLOCK_SIZE cfg - 1 in
  let res := ensure_user_settings cfg env uid t in
  (fst res = Raise pool_exhausted <->
     _get_user_port_range uid t = None /\ new_end > USER_PORT_POOL_END cfg) /\
  (forall e, fst res = Raise e -> e = pool_exhausted /\ snd res = t) /\
  (forall e, fst res = Raise e ->
     forall uid' env' v, _get_user_port_range uid' t = Some v ->
       ensure_user_settings cfg env' uid' (snd res) = (Return v, snd res)).
Proof.
  cbn zeta. unfold _get_user_port_range, ensure_user_settings.
  destruct (select_port_range uid t) as [[ps pe]|] eqn:Hsel; simpl.
  - split; [split; [discriminate|intros [? _]; discriminate]|].
    split; intros e He; discriminate.
  - destruct (Z.gtb_spec (Z.max (select_max_end (USER_PORT_POOL_START cfg - 1) t + 1)
                            (USER_PORT_POOL_START cfg) + USER_PORT_BLOCK_SIZE cfg - 1)
                         (USER_PORT_POOL_END cfg)) as [Hgt|Hle]; simpl.
    + split; [split; [intros _; split; [reflexivity|lia]|reflexivity]|].
      split.
      * intros e [= <-]. split; reflexivity.
      * intros e _ uid' env' [ps' pe'] Hsel'. by rewrite Hsel'.
    + split; [split; [discriminate|intros [_ ?]; lia]|].
      split; intros e He; discriminate.
Qed.

Lemma pool_exhausted_iff_witness :
  let cfg := {| FIREWALL_ENABLED := true; LINUX_USER_PREFIX := py "queen";
                USER_PORT_POOL_START := 20001; USER_PORT_POOL_END := 20015;
                USER_PORT_BLOCK_SIZE := 10;
                USER_DEFAULT_STORAGE_QUOTA_BYTES := 1073741824;
                WORK_BASE_DIR := py "/home/queen";
                IDLE_TIMEOUT_SECONDS := 1200;
                IDLE_AGENT_CLEANUP_INTERVAL := 300 |} in
  let row := {| row_id := py "id-1"; row_user_id := py "u1";
                port_start := 20001; port_end := 20010;
                storage_quota_bytes := 1073741824; settings := py "{}";
                created_at := 0; updated_at := 0 |} in
  let env := {| fresh_uuid := py "id-2"; current_timestamp := 7 |} in
  ensure_user_settings cfg env (py "u2") [row] = (Raise pool_exhausted, [row]) /\
  ensure_user_settings cfg env (py "u1") [row] = (Return (20001, 20010), [row]).
Proof.
  cbv zeta.
  match goal with
  | |- ensure_user_settings ?cfg ?env ?uid ?t = _ /\ _ =>
      pose proof (pool_exhausted_iff cfg env uid t) as H
  end.
  cbv zeta in H. destruct H as (Hiff & Hsame & Hothers).
  assert (Hraise : fst (ensure_user_settings
             {| FIREWALL_ENABLED := true; LINUX_USER_PREFIX := py "queen";
                USER_PORT_POOL_START := 20001; USER_PORT_POOL_END := 20015;
                USER_PORT_BLOCK_SIZE := 10;
                USER_DEFAULT_STORAGE_QUOTA_BYTES := 1073741824;
                WORK_BASE_DIR := py "/home/queen";
                IDLE_TIMEOUT_SECONDS := 1200;
                IDLE_AGENT_CLEANUP_INTERVAL := 300 |}
             {| fresh_uuid := py "id-2"; current_timestamp := 7 |} (py "u2")
             [{| row_id := py "id-1"; row_user_id := py "u1";
                 port_start := 20001; port_end := 20010;
                 storage_quota_bytes := 1073741824; settings := py "{}";
                 created_at := 0; updated_at := 0 |}]) = Raise pool_exhausted).
  { apply Hiff. split; [reflexivity|]. vm_compute. reflexivity. }
  split.
  - destruct (Hsame _ Hraise) as [_ Ht].
    rewrite (surjective_pairing (ensure_user_settings _ _ _ _)).
    by rewrite Hraise, Ht.
  - specialize (Hothers _ Hraise (py "u1")
      {| fresh_uuid := py "id-2"; current_timestamp := 7 |} (20001, 20010) eq_refl).
    destruct (Hsame _ Hraise) as [_ Ht]. by rewrite Ht in Hothers.
Defined.

End PortAllocatorClaims.

(** ** Agent registry and idle sweep *)

Section SweepFacts.
Import AgentManager BackgroundTasks.
Variables (now : datetime) (threshold : Z).

Lemma close_agent_client_other a agent_id st :
  a <> agent_id ->
  entries (close_agent_client a st).1.2 agent_id = entries st agent_id.
Proof.
  intros Hne. unfold close_agent_client, entries.
  destruct (_clients st !! a); simpl; [|reflexivity].
  by rewrite !lookup_delete_ne.
Qed.

Lemma close_agent_client_removed agent_id st c :
  _clients st !! agent_id = Some c ->
  entries (close_agent_client agent_id st).1.2 agent_id = (None, None, None, None).
Proof.
  intros Hc. unfold close_agent_client, entries. rewrite Hc. simpl.
  by rewrite !lookup_delete_eq.
Qed.

Lemma sweep_agent_other a agent_id st n log :
  a <> agent_id ->
  entries (sweep_agent now threshold (st, n, log) a).1.1 agent_id
  = entries st agent_id.
Proof.
  intros Hne. unfold sweep_agent; cbv beta iota.
  destruct (_agent_last_active st !! a) as [la|]; [|reflexivity].
  destruct (now - la >? threshold); [|reflexivity].
  pose proof (close_agent_client_other a agent_id st Hne) as H.
  destruct (close_agent_client a st) as [[b st'] evs]. exact H.
Qed.

Lemma sweep_agent_kept agent_id st n log la :
  _agent_last_active st !! agent_id = Some la ->
  now - la <= threshold ->
  sweep_agent now threshold (st, n, log) agent_id = (st, n, log).
Proof.
  intros Hla Hle. unfold sweep_agent; cbv beta iota. rewrite Hla.
  destruct (Z.gtb_spec (now - la) threshold) as [Hgt|_]; [lia|reflexivity].
Qed.

Lemma sweep_agent_absent agent_id st n log :
  _agent_last_active st !! agent_id = None ->
  sweep_agent now threshold (st, n, log) agent_id = (st, n, log).
Proof. intros Hla. unfold sweep_agent; cbv beta iota. by rewrite Hla. Qed.

Lemma sweep_agent_expired agent_id st n log c la :
  _clients st !! agent_id = Some c ->
  _agent_last_active st !! agent_id = Some la ->
  now - la > threshold ->
  entries (sweep_agent now threshold (st, n, log) agent_id).1.1 agent_id
  = (None, None, None, None).
Proof.
  intros Hc Hla Hgt. unfold sweep_agent; cbv beta iota. rewrite Hla.
  destruct (Z.gtb_spec (now - la) threshold) as [_|Hle]; [|lia].
  pose proof (close_agent_client_removed agent_id st c Hc) as H.
  destruct (close_agent_client agent_id st) as [[b st'] evs]. exact H.
Qed.

(** A session within the timeout goes through the whole sweep untouched,
    whatever happens to the other sessions. *)
Lemma fold_sweep_kept agent_ids agent_id s la :
  _agent_last_active s.1.1 !! agent_id = Some la ->
  now - la <= threshold ->
  entries (fold_left (sweep_agent now threshold) agent_ids s).1.1 agent_id
  = entries s.1.1 agent_id.
Proof.
  revert s. induction agent_ids as [|a ids IH]; intros [[st n] log] Hla Hle;
    [reflexivity|].
  cbn [fold_left fst snd] in *. destruct (decide (a = agent_id)) as [->|Hne].
  - rewrite (sweep_agent_kept agent_id st n log la Hla Hle). by apply IH.
  - pose proof (sweep_agent_other a agent_id st n log Hne) as Hstep.
    destruct (sweep_agent now threshold (st, n, log) a) as [[st1 n1] log1] eqn:E.
    cbn [fst snd] in Hstep. rewrite <- Hstep. apply IH; [|exact Hle].
    cbn [fst snd]. unfold entries in Hstep. injection Hstep as _ _ _ ->. exact Hla.
Qed.

(** Once the four entries are gone they stay gone. *)
Lemma fold_sweep_gone agent_ids agent_id s :
  entries s.1.1 agent_id = (None, None, None, None) ->
  entries (fold_left (sweep_agent now threshold) agent_ids s).1.1 agent_id
  = (None, None, None, None).
Proof.
  revert s. induction agent_ids as [|a ids IH]; intros [[st n] log] Hgone;
    [exact Hgone|].
  cbn [fold_left fst snd] in *. apply IH. destruct (decide (a = agent_id)) as [->|Hne].
  - rewrite sweep_agent_absent; [exact Hgone|].
    unfold entries in Hgone. by injection Hgone as _ _ _ ->.
  - pose proof (sweep_agent_other a agent_id st n log Hne) as Hstep.
    by rewrite Hstep.
Qed.

(** An expired session that appears in the snapshot is removed. *)
Lemma fold_sweep_expired agent_ids agent_id s c la :
  agent_id ∈ agent_ids ->
  _clients s.1.1 !! agent_id = Some c ->
  _agent_last_active s.1.1 !! agent_id = Some la ->
  now - la > threshold ->
  entries (fold_left (sweep_agent now threshold) agent_ids s).1.1 agent_id
  = (None, None, None, None).
Proof.
  revert s. induction agent_ids as [|a ids IH]; intros [[st n] log] Hin Hc Hla Hgt.
  - by apply elem_of_nil in Hin.
  - cbn [fold_left fst snd] in *. destruct (decide (a = agent_id)) as [->|Hne].
    + apply fold_sweep_gone.
      exact (sweep_agent_expired agent_id st n log c la Hc Hla Hgt).
    + apply elem_of_cons in Hin as [->|Hin]; [contradiction|].
      pose proof (sweep_agent_other a agent_id st n log Hne) as Hstep.
      destruct (sweep_agent now threshold (st, n, log) a) as [[st1 n1] log1] eqn:E.
      cbn [fst snd] in Hstep. unfold entries in Hstep.
      injection Hstep as Hc1 _ _ Hla1.
      apply (IH _ Hin); cbn [fst snd]; [by rewrite Hc1|by rewrite Hla1|exact Hgt].
Qed.

Lemma sweep_agent_cases st n log a :
  sweep_agent now threshold (st, n, log) a = (st, n, log) \/
  (exists la,
     _agent_last_active st !! a = Some la /\ now - la > threshold /\
     sweep_agent now threshold (st, n, log) a
     = ((close_agent_client a st).1.2, n + 1,
        log ++ (close_agent_client a st).2)).
Proof.
  unfold sweep_agent; cbv beta iota.
  destruct (_agent_last_active st !! a) as [la|]; [|by left].
  destruct (Z.gtb_spec (now - la) threshold) as [Hgt|Hle]; [|by left].
  right. exists la. split; [reflexivity|]. split; [lia|].
  by destruct (close_agent_client a st) as [[ok st1] evs].
Qed.

(** Every call [_force_kill_cli_process] and [close_agent_client] make is
    made for the agent they were asked about. *)
Lemma force_kill_events_agent client agent_id :
  Forall (fun e => event_agent e = agent_id)
         (_force_kill_cli_process client agent_id).
Proof.
  unfold _force_kill_cli_process.
  repeat match goal with
         | |- context [match ?x with _ => _ end] => destruct x
         end; repeat constructor.
Qed.

Lemma close_events_agent agent_id st :
  Forall (fun e => event_agent e = agent_id) (close_agent_client agent_id st).2.
Proof.
  unfold close_agent_client.
  destruct (_clients st !! agent_id) as [client|]; cbn [snd]; [|constructor].
  apply List.Forall_app. split; [destruct (has_disconnect client); repeat constructor|].
  apply List.Forall_app. split; [destruct (has_close client); repeat constructor|].
  apply force_kill_events_agent.
Qed.

(** What closing a registered client calls, in order. *)
Lemma close_events_present agent_id st client :
  _clients st !! agent_id = Some client ->
  (close_agent_client agent_id st).2
  = (if has_disconnect client then [EvDisconnect agent_id] else [])
    ++ (if has_close client then [EvClose agent_id] else [])
    ++ _force_kill_cli_process client agent_id.
Proof. intros Hc. unfold close_agent_client. by rewrite Hc. Qed.

(** One step of the sweep appends calls made for the agent it looks at
    and never lowers the count. *)
Lemma sweep_agent_log st n log a :
  exists evs,
    (sweep_agent now threshold (st, n, log) a).2 = log ++ evs /\
    Forall (fun e => event_agent e = a) evs /\
    n <= (sweep_agent now threshold (st, n, log) a).1.2.
Proof.
  destruct (sweep_agent_cases st n log a) as [->|(la & _ & _ & ->)].
  - exists []. cbn [fst snd]. rewrite List.app_nil_r.
    split; [reflexivity|]. split; [constructor|lia].
  - exists (close_agent_client a st).2. cbn [fst snd].
    split; [reflexivity|]. split; [apply close_events_agent|lia].
Qed.

Lemma events_other_agent a agent_id evs :
  a <> agent_id ->
  Forall (fun e => event_agent e = a) evs ->
  Forall (fun e => event_agent e <> agent_id) evs.
Proof.
  intros Hne. apply List.Forall_impl. intros e ->. exact Hne.
Qed.

(** A sweep over agents other than [agent_id] makes no call for it and
    leaves its entries alone. *)
Lemma fold_sweep_log_other agent_ids agent_id s :
  ~ In agent_id agent_ids ->
  exists evs,
    (fold_left (sweep_agent now threshold) agent_ids s).2 = s.2 ++ evs /\
    Forall (fun e => event_agent e <> agent_id) evs /\
    s.1.2 <= (fold_left (sweep_agent now threshold) agent_ids s).1.2 /\
    entries (fold_left (sweep_agent now threshold) agent_ids s).1.1 agent_id
    = entries s.1.1 agent_id.
Proof.
  revert s. induction agent_ids as [|a ids IH]; intros [[st n] log] Hnot.
  - exists []. cbn [fold_left fst snd]. rewrite List.app_nil_r.
    split; [reflexivity|]. split; [constructor|]. split; [lia|reflexivity].
  - cbn [fold_left].
    assert (Hne : a <> agent_id) by (intros ->; apply Hnot; by left).
    assert (Hnot' : ~ In agent_id ids) by (intros H; apply Hnot; by right).
    destruct (sweep_agent_log st n log a) as (evs1 & Hlog1 & Hev1 & Hn1).
    pose proof (sweep_agent_other a agent_id st n log Hne) as Hent1.
    destruct (sweep_agent now threshold (st, n, log) a) as [[st1 n1] log1].
    cbn [fst snd] in Hlog1, Hn1, Hent1. subst log1.
    destruct (IH (st1, n1, log ++ evs1) Hnot') as (evs & Hlog & Hev & Hn & Hent).
    cbn [fst snd] in *. exists (evs1 ++ evs).
    split; [by rewrite Hlog, List.app_assoc|].
    split; [apply List.Forall_app; split;
            [by apply (events_other_agent a)|exact Hev]|].
    split; [lia|]. by rewrite Hent.
Qed.

(** A session within the timeout sees no call made for it. *)
Lemma fold_sweep_log_kept agent_ids agent_id s la :
  _agent_last_active s.1.1 !! agent_id = Some la ->
  now - la <= threshold ->
  exists evs,
    (fold_left (sweep_agent now threshold) agent_ids s).2 = s.2 ++ evs /\
    Forall (fun e => event_agent e <> agent_id) evs.
Proof.
  revert s. induction agent_ids as [|a ids IH]; intros [[st n] log] Hla Hle.
  - exists []. cbn [fold_left fst snd]. rewrite List.app_nil_r.
    split; [reflexivity|constructor].
  - cbn [fold_left fst snd] in *. destruct (decide (a = agent_id)) as [->|Hne].
    + rewrite (sweep_agent_kept agent_id st n log la Hla Hle).
      by apply (IH (st, n, log)).
    + destruct (sweep_agent_log st n log a) as (evs1 & Hlog1 & Hev1 & _).
      pose proof (sweep_agent_other a agent_id st n log Hne) as Hent1.
      destruct (sweep_agent now threshold (st, n, log) a) as [[st1 n1] log1].
      cbn [fst snd] in Hlog1, Hent1. subst log1.
      destruct (IH (st1, n1, log ++ evs1)) as (evs & Hlog & Hev);
        [cbn [fst snd]; unfold entries in Hent1;
         injection Hent1 as _ _ _ ->; exact Hla|exact Hle|].
      cbn [fst snd] in *. exists (evs1 ++ evs).
      split; [by rewrite Hlog, List.app_assoc|].
      apply List.Forall_app. split; [by apply (events_other_agent a)|exact Hev].
Qed.

(** An expired session in the snapshot is torn down once: the calls of
    its teardown appear in the log as one block, and no other call is
    made for it. *)
Lemma fold_sweep_log_expired agent_ids agent_id s c la :
  List.NoDup agent_ids -> In agent_id agent_ids ->
  _clients s.1.1 !! agent_id = Some c ->
  _agent_last_active s.1.1 !! agent_id = Some la ->
  now - la > threshold ->
  s.1.2 + 1 <= (fold_left (sweep_agent now threshold) agent_ids s).1.2 /\
  exists before after,
    (fold_left (sweep_agent now threshold) agent_ids s).2
    = s.2 ++ before
      ++ ((if has_disconnect c then [EvDisconnect agent_id] else [])
          ++ (if has_close c then [EvClose agent_id] else [])
          ++ _force_kill_cli_process c agent_id)
      ++ after /\
    Forall (fun e => event_agent e <> agent_id) (before ++ after).
Proof.
  revert s. induction agent_ids as [|a ids IH];
    intros [[st n] log] Hnd Hin Hc Hla Hgt; [contradiction|].
  apply List.NoDup_cons_iff in Hnd as [Ha Hnd].
  cbn [fold_left fst snd] in *. destruct (decide (a = agent_id)) as [->|Hne].
  - destruct (sweep_agent_cases st n log agent_id)
      as [Hsame|(la' & Hla' & _ & ->)].
    { exfalso. pose proof (sweep_agent_expired agent_id st n log c la Hc Hla Hgt)
        as Hgone.
      rewrite Hsame in Hgone. cbn [fst snd] in Hgone. unfold entries in Hgone.
      rewrite Hc in Hgone. discriminate Hgone. }
    rewrite (close_events_present agent_id st c Hc).
    destruct (fold_sweep_log_other ids agent_id
                ((close_agent_client agent_id st).1.2, n + 1,
                 log ++ (if has_disconnect c then [EvDisconnect agent_id] else [])
                     ++ (if has_close c then [EvClose agent_id] else [])
                     ++ _force_kill_cli_process c agent_id) Ha)
      as (evs & Hlog & Hev & Hn & _).
    cbn [fst snd] in *. split; [lia|]. exists [], evs.
    split; [by rewrite Hlog, <- !List.app_assoc|exact Hev].
  - destruct Hin as [->|Hin]; [contradiction|].
    destruct (sweep_agent_log st n log a) as (evs1 & Hlog1 & Hev1 & Hn1).
    pose proof (sweep_agent_other a agent_id st n log Hne) as Hent1.
    destruct (sweep_agent now threshold (st, n, log) a) as [[st1 n1] log1].
    cbn [fst snd] in Hlog1, Hn1, Hent1. subst log1.
    unfold entries in Hent1. injection Hent1 as Hc1 _ _ Hla1.
    destruct (IH (st1, n1, log ++ evs1) Hnd Hin) as (Hn & before & after & Hlog & Hev);
      [cbn [fst snd]; by rewrite Hc1|cbn [fst snd]; by rewrite Hla1|exact Hgt|].
    cbn [fst snd] in *. split; [lia|]. exists (evs1 ++ before), after.
    split; [by rewrite Hlog, <- !List.app_assoc|].
    rewrite <- List.app_assoc. apply List.Forall_app.
    split; [by apply (events_other_agent a)|exact Hev].
Qed.

End SweepFacts.

Section AgentClaims.
Import AgentManager BackgroundTasks.

(** C7.  One tick of the idle sweep, for a registered session with a
    recorded last-activity time.  If its idle duration
    [now - last_active] exceeds the configured timeout, the tick closes
    it: the calls of its teardown are made, in this order and as one
    block of the tick's calls (disconnect and close, each if the client
    has the method, then the kill of its CLI process: terminate and wait
    when the process has not exited, and terminate again when the wait
    raises); no other call is made for it; the close is counted; and
    all four of its registry entries are gone afterwards.  If the idle
    duration is within the timeout, the tick makes no call for the
    session and leaves its entries exactly as they were.  The registry
    is arbitrary, so this holds whichever disconnect, close, terminate
    or wait calls of this or of any other session raise: such failures
    never keep the sweep from reaching the remaining sessions. *)
Theorem idle_sweep_closes_exactly_idle cfg now st agent_id client last_active :
  _clients st !! agent_id = Some client ->
  _agent_last_active st !! agent_id = Some last_active ->
  let st' := (idle_agent_cleanup_tick cfg now st).1.1 in
  let closed_count := (idle_agent_cleanup_tick cfg now st).1.2 in
  let log := (idle_agent_cleanup_tick cfg now st).2 in
  let timeout := timedelta_seconds (IDLE_TIMEOUT_SECONDS cfg) in
  (now - last_active > timeout ->
     entries st' agent_id = (None, None, None, None) /\
     1 <= closed_count /\
     exists before after,
       log = before
             ++ ((if has_disconnect client then [EvDisconnect agent_id] else [])
                 ++ (if has_close client then [EvClose agent_id] else [])
                 ++ _force_kill_cli_process client agent_id)
             ++ after /\
       Forall (fun e => event_agent e <> agent_id) (before ++ after)) /\
  (now - last_active <= timeout ->
     entries st' agent_id = entries st agent_id /\
     Forall (fun e => event_agent e <> agent_id) log) /\
  (forall t p,
     _transport client = Some t -> _process t = Some p ->
     returncode p = None ->
     _force_kill_cli_process client agent_id
     = [EvTerminate agent_id; EvWait agent_id]
       ++ (if wait_raises p then [EvTerminate agent_id] else [])).
Proof.
  intros Hc Hla. cbn zeta. unfold idle_agent_cleanup_tick, sweep.
  assert (Hin : agent_id ∈ (fst <$> map_to_list (_clients st))).
  { apply list_elem_of_fmap. exists (agent_id, client). split; [reflexivity|].
    by apply elem_of_map_to_list. }
  split; [|split].
  - intros Hgt. split; [eapply fold_sweep_expired; eauto|].
    destruct (fold_sweep_log_expired now
                (timedelta_seconds (IDLE_TIMEOUT_SECONDS cfg))
                (fst <$> map_to_list (_clients st)) agent_id (st, 0, [])
                client last_active)
      as (Hn & before & after & Hlog & Hev); try assumption.
    + apply NoDup_ListNoDup, NoDup_fst_map_to_list.
    + by apply list_elem_of_In.
    + cbn [fst snd] in *. split; [lia|]. exists before, after.
      split; [exact Hlog|exact Hev].
  - intros Hle.
    split;
      [by rewrite (fold_sweep_kept now _ _ agent_id (st, 0, []) last_active
                     Hla Hle)|].
    destruct (fold_sweep_log_kept now
                (timedelta_seconds (IDLE_TIMEOUT_SECONDS cfg))
                (fst <$> map_to_list (_clients st)) agent_id (st, 0, [])
                last_active Hla Hle) as (evs & -> & Hev).
    exact Hev.
  - intros t p Ht Hp Hrc. unfold _force_kill_cli_process.
    rewrite Ht. destruct (_query client); by rewrite Hp, Hrc.
Qed.

Lemma idle_sweep_closes_exactly_idle_witness :
  (entries (idle_agent_cleanup_tick default_config 2000000000
              sample_registry).1.1 (py "a1") = (None, None, None, None) /\
   exists before after,
     (idle_agent_cleanup_tick default_config 2000000000 sample_registry).2
     = before
       ++ [EvDisconnect (py "a1"); EvClose (py "a1"); EvTerminate (py "a1");
           EvWait (py "a1"); EvTerminate (py "a1")]
       ++ after /\
     Forall (fun e => event_agent e <> py "a1") (before ++ after)) /\
  (entries (idle_agent_cleanup_tick default_config 2000000000
              sample_registry).1.1 (py "a3") = entries sample_registry (py "a3") /\
   Forall (fun e => event_agent e <> py "a3")
     (idle_agent_cleanup_tick default_config 2000000000 sample_registry).2).
Proof.
  split.
  - destruct (idle_sweep_closes_exactly_idle default_config 2000000000
                sample_registry (py "a1") failing_client 500000000
                eq_refl eq_refl) as (Hexpired & _ & _).
    destruct Hexpired as (Hgone & _ & before & after & Hlog & Hev);
      [vm_compute; reflexivity|].
    split; [exact Hgone|]. exists before, after.
    split; [exact Hlog|exact Hev].
  - destruct (idle_sweep_closes_exactly_idle default_config 2000000000
                sample_registry (py "a3") quiet_client 800000000
                eq_refl eq_refl) as (_ & Hkept & _).
    apply Hkept. vm_compute. discriminate.
Defined.

(** The failing teardown of [a1] is attempted in full and the sweep goes
    on: two sessions are closed. *)
Example sweep_survives_failing_teardown :
  let '(st', closed_count, log) :=
    idle_agent_cleanup_tick default_config 2000000000 sample_registry in
  closed_count = 2 /\
  _clients st' = <[py "a3" := quiet_client]> ∅ /\
  Permutation log
    [EvDisconnect (py "a1"); EvClose (py "a1"); EvTerminate (py "a1");
     EvWait (py "a1"); EvTerminate (py "a1"); EvDisconnect (py "a2")].
Proof.
  vm_compute. split; [reflexivity|]. split; [reflexivity|].
  first [ reflexivity
        | apply (Permutation_app_comm [_] [_; _; _; _; _]) ].
Qed.

(** C9, as stated, fails: a registered, not yet connected session whose
    connect handshake raises gets [False] back and its last-activity
    time is not bumped. *)
Lemma ensure_connected_no_bump_on_failed_connect :
  let st := {| _clients := <[py "a1" := failing_client]> ∅;
               _client_options := ∅;
               _client_connected := <[py "a1" := false]> ∅;
               _agent_last_active := <[py "a1" := 500]> ∅ |} in
  let '(ok, st', _) := ensure_client_connected 900 (py "a1") st in
  _clients st !! py "a1" = Some failing_client /\
  ok = false /\
  _agent_last_active st' !! py "a1" = Some 500 /\
  _agent_last_active st' !! py "a1" <> Some 900.
Proof. vm_compute. repeat split; discriminate. Qed.

(** C9, amended.  [ensure_client_connected]:
    (1) for an id that is not registered returns [False], calls nothing
    and leaves the registry untouched;
    (2) for a registered session already marked connected makes no
    connect call, sets its last-activity time to now and returns [True];
    (3) for a registered session not marked connected calls connect and,
    when that succeeds, marks it connected, sets its last-activity time
    to now and returns [True];
    (4) when that connect raises, returns [False] and leaves the registry
    untouched: neither the connected flag nor the last-activity time
    changes.
    In cases (2) and (3) no other entry of the registry changes. *)
Theorem ensure_client_connected_spec now agent_id st :
  let '(ok, st', log) := ensure_client_connected now agent_id st in
  (_clients st !! agent_id = None ->
     ok = false /\ st' = st /\ log = []) /\
  (forall client, _clients st !! agent_id = Some client ->
     _client_connected st !! agent_id = Some true ->
     ok = true /\ log = [] /\
     _agent_last_active st' = <[agent_id := now]> (_agent_last_active st) /\
     _client_connected st' = _client_connected st /\
     _clients st' = _clients st /\ _client_options st' = _client_options st) /\
  (forall client, _clients st !! agent_id = Some client ->
     default false (_client_connected st !! agent_id) = false ->
     connect_raises client = false ->
     ok = true /\ log = [EvConnect agent_id] /\
     _agent_last_active st' = <[agent_id := now]> (_agent_last_active st) /\
     _client_connected st' = <[agent_id := true]> (_client_connected st) /\
     _clients st' = _clients st /\ _client_options st' = _client_options st) /\
  (forall client, _clients st !! agent_id = Some client ->
     default false (_client_connected st !! agent_id) = false ->
     connect_raises client = true ->
     ok = false /\ log = [EvConnect agent_id] /\ st' = st).
Proof.
  unfold ensure_client_connected.
  destruct (_clients st !! agent_id) as [c|] eqn:Hc.
  - destruct (_client_connected st !! agent_id) as [[|]|] eqn:Hf; simpl.
    + split; [discriminate|]. split; [auto 10|].
      split; intros client _ [=].
    + destruct (connect_raises c) eqn:Hr;
        (split; [discriminate|]); (split; [intros client _ [=]|]);
        split; intros client [= <-] _ Hr'; try congruence; auto 10.
    + destruct (connect_raises c) eqn:Hr;
        (split; [discriminate|]); (split; [intros client _ [=]|]);
        split; intros client [= <-] _ Hr'; try congruence; auto 10.
  - split; [auto|]. split; [intros client [=]|]. split; intros client [=].
Qed.

Lemma ensure_client_connected_spec_witness :
  let st := {| _clients := <[py "a1" := quiet_client]> ∅;
               _client_options := ∅;
               _client_connected := <[py "a1" := false]> ∅;
               _agent_last_active := <[py "a1" := 500]> ∅ |} in
  (ensure_client_connected 900 (py "a1") st).1.1 = true /\
  _agent_last_active (ensure_client_connected 900 (py "a1") st).1.2
    !! py "a1" = Some 900.
Proof.
  cbv zeta.
  pose proof (ensure_client_connected_spec 900 (py "a1")
    {| _clients := <[py "a1" := quiet_client]> ∅;
       _client_options := ∅;
       _client_connected := <[py "a1" := false]> ∅;
       _agent_last_active := <[py "a1" := 500]> ∅ |}) as H.
  destruct (ensure_client_connected 900 (py "a1") _) as [[ok st'] log].
  destruct H as (_ & _ & H & _). cbn [fst snd].
  destruct (H quiet_client) as (-> & _ & -> & _);
    [reflexivity|reflexivity|reflexivity|].
  split; [reflexivity|]. apply lookup_insert_eq.
Defined.

End AgentClaims.

(** ** Chat exchange recovery *)

Section ChatFacts.
Import ChatApi.

Lemma count_queries_app l1 l2 :
  count_queries (l1 ++ l2) = (count_queries l1 + count_queries l2)%nat.
Proof. unfold count_queries. by rewrite List.filter_app, List.length_app. Qed.

Lemma count_recoveries_app l1 l2 :
  count_recoveries (l1 ++ l2) = (count_recoveries l1 + count_recoveries l2)%nat.
Proof. unfold count_recoveries. by rewrite List.filter_app, List.length_app. Qed.

Lemma exchange_events_counts session_id agent_id saved :
  count_queries (map (exchange_event session_id agent_id) saved) = 0%nat /\
  count_recoveries (map (exchange_event session_id agent_id) saved) = 0%nat.
Proof.
  induction saved as [|[c m|c] saved [IH1 IH2]]; split; try reflexivity;
    assumption.
Qed.

(** One run of the [try] block queries the client at most once and takes
    no recovery action; the only text it ever sends is the message the
    handler sees, which extends the message it was called with. *)
Lemma try_block_shape w _retry session_id agent_id message :
  let r := try_block w _retry session_id agent_id message in
  (count_queries (body_log r) <= 1)%nat /\
  count_recoveries (body_log r) = 0%nat /\
  (forall log e m u, r = Raised log e m u ->
     (exists suffix, m = message ++ suffix) /\
     forall a q, In (EvQuery a q) log -> a = agent_id /\ q = m).
Proof.
  cbn zeta. unfold try_block.
  destruct (session_lookup w _retry) as [[info|]|e]; simpl.
  2:{ split; [cbv; lia|]. split; [reflexivity|]. intros ? ? ? ? [=]. }
  2:{ split; [cbv; lia|]. split; [reflexivity|]. intros ? ? ? ? [= <- <- <- <-].
      split; [exists []; by rewrite List.app_nil_r|]. intros a q []. }
  assert (Hext : exists suffix,
    with_kb_context message (kb_context w _retry (user_id info) message)
    = message ++ suffix).
  { unfold with_kb_context.
    destruct (kb_context w _retry (user_id info) message) as [ctx|];
      [|exists []; by rewrite List.app_nil_r].
    destruct (str_truthy ctx); [eauto|exists []; by rewrite List.app_nil_r]. }
  destruct (ensure_client w _retry) as [[|]|e]; simpl.
  - destruct (exchange w _retry _) as [saved [u|e]];
      destruct (exchange_events_counts session_id agent_id saved) as [Hq Hr];
      cbn [body_log]; unfold count_queries, count_recoveries in *; simpl;
      rewrite ?Hq, ?Hr; (split; [lia|]); (split; [reflexivity|]).
    + intros ? ? ? ? [=].
    + intros ? ? ? ? [= <- <- <- <-]. split; [exact Hext|].
      intros a q [[=]|[[= <- <-]|Hin]]; [auto|].
      exfalso. clear -Hin. induction saved as [|[c m|c] saved IH];
        simpl in Hin; [tauto| |]; destruct Hin as [[=]|Hin]; auto.
  - split; [cbv; lia|]. split; [reflexivity|]. intros ? ? ? ? [=].
  - split; [cbv; lia|]. split; [reflexivity|].
    intros ? ? ? ? [= <- <- <- <-]. split; [exact Hext|].
    intros a q [[=]|[]].
Qed.



End ChatFacts.

Section ChatClaims.
Import ChatApi.





(** The retry can come to nothing: when no client can be had by then,
    it returns without a query and without saving anything. *)
Example retry_without_client_saves_nothing :
  _process_ai_response ascii_unicode client_lost_world (py "s1") (py "a1")
    (py "hi") false
  = [EvEnsureClient (py "a1") (py "u1") (Some (py "c-1"));
     EvQuery (py "a1") (py "hi");
     EvCloseAgent (py "a1");
     EvUpdateSessionClaudeId (py "s1") None;
     EvEnsureClient (py "a1") (py "u1") None;
     EvEnsureClient (py "a1") (py "u1") (Some (py "c-1"))].
Proof. vm_compute. reflexivity. Qed.

End ChatClaims.

(** ** Shell quoting *)

Section ShlexFacts.
Import Shlex.

Lemma safe_char_plain c : is_safe_char c = true -> is_plain c = true.
Proof.
  destruct c as [[] [] [] [] [] [] [] []]; vm_compute; intros H;
    first [reflexivity | discriminate H].
Qed.

Lemma not_squote_inside c :
  Ascii.eqb c "'" = false ->
  (Ascii.eqb c "'" = false) /\ (is_escape c && Ascii.eqb "'" "034" = false).
Proof. intros H. split; [exact H|]. by rewrite andb_false_r. Qed.

(** Plain characters extend the current token. *)
Lemma lex_word_plain q t lit rest :
  forallb is_plain lit = true ->
  lex InWord q t (lit ++ rest) = lex InWord q (t ++ lit) rest.
Proof.
  revert t. induction lit as [|c lit IH]; intros t Hp.
  - by rewrite List.app_nil_r.
  - simpl in Hp. apply andb_true_iff in Hp as [Hc Hp].
    unfold is_plain in Hc. rewrite !andb_true_iff, !negb_true_iff in Hc.
    destruct Hc as [[Hw Hq] He].
    cbn [app lex]. rewrite Hw, Hq, He. rewrite (IH _ Hp).
    by rewrite <- List.app_assoc.
Qed.

Lemma lex_space_plain q c rest :
  is_plain c = true ->
  lex InSpace q [] (c :: rest) = lex InWord q [c] rest.
Proof.
  unfold is_plain. rewrite !andb_true_iff, !negb_true_iff.
  intros [[Hw Hq] He]. cbn [lex]. by rewrite Hw, Hq, He.
Qed.

(** Inside single quotes, the escaped text of [s] followed by the
    closing quote adds exactly [s] to the token. *)
Lemma lex_squoted_body q t s rest :
  lex (InQuote "'") q t (escape_squotes s ++ "'"%char :: rest)
  = lex InWord true (t ++ s) rest.
Proof.
  revert q t. induction s as [|c s IH]; intros q t.
  - cbn [escape_squotes flat_map app lex]. rewrite Ascii.eqb_refl.
    by rewrite List.app_nil_r.
  - cbn [escape_squotes flat_map]. fold (escape_squotes s).
    destruct (Ascii.eqb c "'") eqn:E.
    + apply Ascii.eqb_eq in E. subst c.
      rewrite <- List.app_assoc. cbn. rewrite (IH true).
      by rewrite <- List.app_assoc.
    + rewrite <- List.app_assoc. cbn [app lex]. rewrite E.
      replace (is_escape c && Ascii.eqb "'" "034") with false
        by (by rewrite andb_false_r).
      rewrite (IH true). by rewrite <- List.app_assoc.
Qed.

(** Reading [quote s] in the middle of a word adds [s] to the token. *)
Lemma lex_word_quote q t s rest :
  lex InWord q t (quote s ++ rest)
  = lex InWord (q || negb (is_safe_str s)) (t ++ s) rest.
Proof.
  unfold quote, is_safe_str. destruct s as [|c s].
  - cbn. by rewrite orb_true_r, List.app_nil_r.
  - cbn [str_truthy andb]. destruct (forallb is_safe_char (c :: s)) eqn:Hs.
    + rewrite orb_false_r. apply lex_word_plain.
      apply forallb_forall. intros x Hx. apply safe_char_plain.
      rewrite forallb_forall in Hs. by apply Hs.
    + rewrite orb_true_r. cbn [py list_ascii_of_string app].
      rewrite <- List.app_assoc. cbn [app].
      change (lex InWord q t ("'"%char :: escape_squotes (c :: s) ++ "'"%char :: rest))
        with (lex (InQuote "'") q t (escape_squotes (c :: s) ++ "'"%char :: rest)).
      apply lex_squoted_body.
Qed.

(** Reading [quote s] at the start of a token yields the token [s]. *)
Lemma lex_space_quote q s rest :
  lex InSpace q [] (quote s ++ rest)
  = lex InWord (q || negb (is_safe_str s)) s rest.
Proof.
  unfold quote, is_safe_str. destruct s as [|c s].
  - cbn. by rewrite orb_true_r.
  - cbn [str_truthy andb]. destruct (forallb is_safe_char (c :: s)) eqn:Hs.
    + rewrite orb_false_r. cbn [app].
      assert (Hall : forallb is_plain (c :: s) = true).
      { apply forallb_forall. intros x Hx. apply safe_char_plain.
        rewrite forallb_forall in Hs. by apply Hs. }
      cbn [forallb] in Hall. apply andb_true_iff in Hall as [Hc Hrest].
      rewrite (lex_space_plain q c _ Hc).
      apply (lex_word_plain q [c] s rest Hrest).
    + rewrite orb_true_r. cbn [py list_ascii_of_string app].
      rewrite <- List.app_assoc. cbn [app].
      change (lex InSpace q [] ("'"%char :: escape_squotes (c :: s) ++ "'"%char :: rest))
        with (lex (InQuote "'") q [] (escape_squotes (c :: s) ++ "'"%char :: rest)).
      apply (lex_squoted_body q [] (c :: s) rest).
Qed.

(** A token that ends with quoted text is never dropped: it is non-empty
    or a quote was seen. *)
Lemma quoted_token_emitted q t s :
  str_truthy (t ++ s) || (q || negb (is_safe_str s)) = true.
Proof.
  destruct s as [|c s].
  - by rewrite !orb_true_r.
  - destruct t; reflexivity.
Qed.

Lemma token_with_suffix_emitted q t s :
  str_truthy s = true -> str_truthy (t ++ s) || q = true.
Proof. destruct s; [discriminate|]. by destruct t. Qed.

Lemma lex_word_whitespace q t c rest :
  is_whitespace c = true ->
  str_truthy t || q = true ->
  lex InWord q t (c :: rest) = option_map (cons t) (lex InSpace false [] rest).
Proof. intros Hw He. cbn [lex]. by rewrite Hw, He. Qed.

Lemma lex_word_eof q t :
  str_truthy t || q = true -> lex InWord q t [] = Some [t].
Proof.
  intros He. cbn [lex]. unfold emit_at_eof.
  destruct (str_truthy t), q; try discriminate; reflexivity.
Qed.

End ShlexFacts.

(** ** Path normalisation *)

Section PathFacts.
Import PosixPath.

Lemma split_sep_nonempty s : split_sep sep s <> [].
Proof.
  induction s as [|c s IH]; [discriminate|]. simpl.
  destruct (Ascii.eqb c sep); [discriminate|].
  destruct (split_sep sep s); [contradiction|discriminate].
Qed.

Lemma split_sep_no_sep s : Forall (fun c => ~ In sep c) (split_sep sep s).
Proof.
  induction s as [|c s IH]; [repeat constructor; intros []|]. simpl.
  destruct (Ascii.eqb_spec c sep) as [->|Hne].
  - constructor; [intros []|exact IH].
  - pose proof (split_sep_nonempty s) as Hs.
    destruct (split_sep sep s) as [|comp comps]; [congruence|].
    inversion IH as [|? ? Hc Hcs]; subst. constructor; [|exact Hcs].
    intros [Heq|Hin]; [congruence|contradiction].
Qed.

Lemma split_sep_word c : ~ In sep c -> split_sep sep c = [c].
Proof.
  induction c as [|a c IH]; [reflexivity|]. intros Hno. simpl.
  destruct (Ascii.eqb_spec a sep) as [->|Hne]; [exfalso; apply Hno; by left|].
  rewrite IH; [reflexivity|]. intros Hin. apply Hno. by right.
Qed.

Lemma split_sep_app c s :
  ~ In sep c -> split_sep sep (c ++ sep :: s) = c :: split_sep sep s.
Proof.
  induction c as [|a c IH]; intros Hno.
  - cbn [app split_sep]. by rewrite Ascii.eqb_refl.
  - cbn [app split_sep]. destruct (Ascii.eqb_spec a sep) as [->|Hne];
      [exfalso; apply Hno; by left|].
    rewrite IH; [reflexivity|]. intros Hin. apply Hno. by right.
Qed.

Lemma split_sep_join comps :
  comps <> [] -> Forall (fun c => ~ In sep c) comps ->
  split_sep sep (join [sep] comps) = comps.
Proof.
  induction comps as [|c comps IH]; [congruence|]. intros _ Hall.
  inversion Hall as [|? ? Hc Hcs]; subst.
  destruct comps as [|c' comps].
  - simpl. by apply split_sep_word.
  - change (join [sep] (c :: c' :: comps))
      with (c ++ sep :: join [sep] (c' :: comps)).
    rewrite (split_sep_app c _ Hc). f_equal. apply IH; [discriminate|exact Hcs].
Qed.

Lemma clean_keep c :
  clean c -> str_truthy c && negb (str_eqb c (py ".")) = true.
Proof.
  intros (Hne & Hdot & _). destruct c; [contradiction|]. simpl.
  apply negb_true_iff. by apply str_eqb_neq.
Qed.

Lemma filter_clean comps :
  Forall clean comps ->
  List.filter (fun c => str_truthy c && negb (str_eqb c (py "."))) comps = comps.
Proof.
  induction 1 as [|c comps Hc Hcs IH]; [reflexivity|].
  cbn [List.filter]. rewrite (clean_keep c Hc). by rewrite IH.
Qed.

Lemma clean_no_sep comps :
  Forall clean comps -> Forall (fun c => ~ In sep c) comps.
Proof. apply List.Forall_impl. by intros c (_ & _ & H). Qed.

(** Splitting a normal form gives back its components. *)
Lemma components_normal n comps :
  Forall clean comps ->
  components (repeat sep n ++ join [sep] comps) = comps.
Proof.
  intros Hclean. unfold components. induction n as [|n IH].
  - simpl. destruct comps as [|c comps]; [reflexivity|].
    rewrite split_sep_join; [|discriminate|by apply clean_no_sep].
    by apply filter_clean.
  - cbn [repeat app split_sep]. rewrite Ascii.eqb_refl. simpl. exact IH.
Qed.

Lemma norm_step_clean n stack comp :
  ~ In sep comp -> Forall clean stack -> Forall clean (norm_step n stack comp).
Proof.
  intros Hno Hstack. unfold norm_step.
  destruct (str_eqb comp [] || str_eqb comp (py ".")) eqn:E; [exact Hstack|].
  apply orb_false_iff in E as [E1 E2].
  apply str_eqb_neq in E1. apply str_eqb_neq in E2.
  match goal with |- Forall clean (if ?b then _ else _) => destruct b end.
  - constructor; [|exact Hstack]. repeat split; assumption.
  - destruct stack; [constructor|]. by inversion Hstack.
Qed.

Lemma fold_norm_clean n comps stack :
  Forall (fun c => ~ In sep c) comps -> Forall clean stack ->
  Forall clean (fold_left (norm_step n) comps stack).
Proof.
  revert stack. induction comps as [|c comps IH]; intros stack Hc Hs;
    [exact Hs|].
  inversion Hc; subst. simpl. apply IH; [assumption|].
  by apply norm_step_clean.
Qed.

(** The normal form of an absolute path: one or two slashes followed by
    clean components joined by slashes. *)
Lemma normpath_abs path :
  startswith [sep] path = true ->
  exists n comps,
    (n = 1 \/ n = 2)%nat /\ Forall clean comps /\
    normpath path = repeat sep n ++ join [sep] comps.
Proof.
  intros Habs. destruct path as [|c path]; [discriminate|].
  exists (initial_slashes (c :: path)),
         (rev (fold_left (norm_step (initial_slashes (c :: path)))
                         (split_sep sep (c :: path)) [])).
  assert (Hn : (initial_slashes (c :: path) = 1
                \/ initial_slashes (c :: path) = 2)%nat).
  { unfold initial_slashes. rewrite Habs.
    destruct (startswith [sep; sep] (c :: path)
              && negb (startswith [sep; sep; sep] (c :: path))); auto. }
  split; [exact Hn|]. split.
  - apply List.Forall_rev. apply fold_norm_clean; [apply split_sep_no_sep|constructor].
  - unfold normpath.
    destruct Hn as [-> | ->]; reflexivity.
Qed.

Lemma path_join_abs a p :
  startswith [sep] a = true -> startswith [sep] (path_join a p) = true.
Proof.
  intros Ha. unfold path_join.
  destruct (startswith [sep] p) eqn:Hp; [exact Hp|].
  destruct a as [|c a]; [discriminate|].
  destruct (negb (str_truthy (c :: a)) || endswith [sep] (c :: a)); exact Ha.
Qed.

Lemma abspath_abs host p :
  startswith [sep] (getcwd host) = true ->
  exists n comps,
    (n = 1 \/ n = 2)%nat /\ Forall clean comps /\
    abspath host p = repeat sep n ++ join [sep] comps.
Proof.
  intros Hcwd. unfold abspath. apply normpath_abs.
  destruct (startswith [sep] p) eqn:Hp; [exact Hp|by apply path_join_abs].
Qed.

End PathFacts.

Section CommonPathFacts.
Import PosixPath.

Lemma str_compare_refl a : str_compare a a = Eq.
Proof.
  induction a as [|c a IH]; [reflexivity|]. simpl.
  by rewrite Nat.compare_refl.
Qed.

Lemma str_compare_eq a b : str_compare a b = Eq -> a = b.
Proof.
  revert b. induction a as [|c a IH]; intros [|d b]; simpl; try discriminate;
    [reflexivity|].
  destruct (Nat.compare_spec (nat_of_ascii c) (nat_of_ascii d)) as [E| |];
    try discriminate.
  intros H. f_equal; [|by apply IH].
  rewrite <- (ascii_nat_embedding c), <- (ascii_nat_embedding d). by rewrite E.
Qed.

Lemma str_compare_antisym a b : str_compare b a = CompOpp (str_compare a b).
Proof.
  revert b. induction a as [|c a IH]; intros [|d b]; simpl; try reflexivity.
  rewrite (Nat.compare_antisym (nat_of_ascii c) (nat_of_ascii d)).
  destruct (nat_of_ascii c ?= nat_of_ascii d)%nat; simpl; auto.
Qed.

Lemma list_compare_refl a : list_compare a a = Eq.
Proof.
  induction a as [|c a IH]; [reflexivity|]. simpl.
  by rewrite str_compare_refl.
Qed.

Lemma list_compare_eq a b : list_compare a b = Eq -> a = b.
Proof.
  revert b. induction a as [|c a IH]; intros [|d b]; simpl; try discriminate;
    [reflexivity|].
  destruct (str_compare c d) eqn:E; try discriminate.
  intros H. apply str_compare_eq in E. f_equal; [exact E|by apply IH].
Qed.

Lemma list_compare_antisym a b : list_compare b a = CompOpp (list_compare a b).
Proof.
  revert b. induction a as [|c a IH]; intros [|d b]; simpl; try reflexivity.
  rewrite (str_compare_antisym c d).
  destruct (str_compare c d); simpl; auto.
Qed.

(** When [s1] does not come after [s2] the loop of [commonpath] never
    indexes past the end of [s2] and returns the longest common initial
    segment. *)
Lemma common_loop_lcp s1 s2 :
  list_compare s1 s2 <> Gt -> common_loop s1 s2 = Return (lcp s1 s2).
Proof.
  revert s2. induction s1 as [|c s1 IH]; intros [|d s2] Hle; simpl in *;
    try reflexivity; try congruence.
  destruct (str_eqb c d) eqn:E; [|reflexivity].
  apply str_eqb_eq in E. subst d. rewrite str_compare_refl in Hle.
  by rewrite (IH s2 Hle).
Qed.

Lemma lcp_comm a b : lcp a b = lcp b a.
Proof.
  revert b. induction a as [|c a IH]; intros [|d b]; simpl; try reflexivity.
  rewrite (str_eqb_sym d c). destruct (str_eqb c d) eqn:E; [|reflexivity].
  apply str_eqb_eq in E. subst d. by rewrite IH.
Qed.

Lemma lcp_refl a : lcp a a = a.
Proof.
  induction a as [|c a IH]; [reflexivity|]. simpl.
  by rewrite str_eqb_refl, IH.
Qed.

Lemma lcp_prefix a b : lcp a b = a <-> is_prefix a b = true.
Proof.
  revert b. induction a as [|c a IH]; intros b; simpl.
  - by destruct b.
  - destruct b as [|d b]; [split; discriminate|].
    destruct (str_eqb c d) eqn:E; simpl.
    + rewrite <- IH. split; [by intros [= ->]|by intros ->].
    + split; discriminate.
Qed.

Lemma lcp_clean a b : Forall clean a -> Forall clean (lcp a b).
Proof.
  intros Ha. revert b. induction Ha as [|c a Hc Ha IH]; intros [|d b]; simpl;
    try constructor.
  destruct (str_eqb c d); constructor; [exact Hc|apply IH].
Qed.

(** The minimum and maximum of two lists are the two lists, in
    order. *)
Lemma common_loop_min_max x y :
  common_loop (list_min x [y]) (list_max x [y]) = Return (lcp x y).
Proof.
  unfold list_min, list_max. simpl.
  destruct (list_compare y x) eqn:E.
  - apply list_compare_eq in E. subst y.
    apply common_loop_lcp. by rewrite list_compare_refl.
  - rewrite (lcp_comm x y). apply common_loop_lcp. by rewrite E.
  - apply common_loop_lcp. rewrite (list_compare_antisym y x), E. discriminate.
Qed.

Lemma join_clean_head comps :
  Forall clean comps -> ~ startswith [sep] (join [sep] comps) = true.
Proof.
  intros Hc Hs. destruct comps as [|c comps]; [discriminate|].
  inversion Hc as [|? ? (Hne & _ & Hno) _]; subst.
  destruct c as [|a c]; [contradiction|].
  assert (Ha : Ascii.eqb sep a = true).
  { destruct comps; cbn [join app startswith] in Hs;
      by destruct (Ascii.eqb sep a). }
  apply Ascii.eqb_eq in Ha. subst a. apply Hno. by left.
Qed.

Lemma join_clean_inj a b :
  Forall clean a -> Forall clean b ->
  join [sep] a = join [sep] b -> a = b.
Proof.
  intros Ha Hb Heq.
  assert (Hnil : forall l, Forall clean l -> join [sep] l = [] -> l = []).
  { intros [|c l] Hl Hj; [reflexivity|]. exfalso.
    inversion Hl as [|? ? (Hne & _) _]; subst.
    destruct c; [contradiction|]. destruct l; discriminate. }
  destruct a as [|c a].
  - symmetry. apply Hnil; [exact Hb|by rewrite <- Heq].
  - destruct b as [|d b].
    + apply Hnil; [exact Ha|exact Heq].
    + rewrite <- (split_sep_join (c :: a)), <- (split_sep_join (d :: b));
        [by rewrite Heq|discriminate|by apply clean_no_sep
        |discriminate|by apply clean_no_sep].
Qed.

(** [commonpath] of two absolute normal forms. *)
Lemma commonpath_normal n m ca cb :
  (n = 1 \/ n = 2)%nat -> (m = 1 \/ m = 2)%nat ->
  Forall clean ca -> Forall clean cb ->
  commonpath [repeat sep n ++ join [sep] ca; repeat sep m ++ join [sep] cb]
  = Return ([sep] ++ join [sep] (lcp ca cb)).
Proof.
  intros Hn Hm Ha Hb. unfold commonpath.
  assert (Hsa : startswith [sep] (repeat sep n ++ join [sep] ca) = true)
    by (destruct Hn as [-> | ->]; reflexivity).
  assert (Hsb : startswith [sep] (repeat sep m ++ join [sep] cb) = true)
    by (destruct Hm as [-> | ->]; reflexivity).
  rewrite Hsa. cbn [forallb]. rewrite Hsb. cbn [Bool.eqb andb map].
  pose proof (components_normal n ca Ha) as Ea.
  pose proof (components_normal m cb Hb) as Eb.
  unfold components in Ea, Eb. rewrite Ea, Eb.
  by rewrite common_loop_min_max.
Qed.

(** The test of [_is_path_allowed] on two absolute normal forms: the
    allowed directory must start with a single slash and its components
    must be an initial segment of the path's. *)
Lemma common_equals_allowed n m ca cb :
  (n = 1 \/ n = 2)%nat -> (m = 1 \/ m = 2)%nat ->
  Forall clean ca -> Forall clean cb ->
  str_eqb ([sep] ++ join [sep] (lcp ca cb)) (repeat sep m ++ join [sep] cb)
  = is_prefix cb ca && Nat.eqb m 1.
Proof.
  intros Hn Hm Ha Hb.
  destruct Hm as [-> | ->]; cbn [repeat app Nat.eqb].
  - rewrite andb_true_r. destruct (is_prefix cb ca) eqn:E.
    + apply lcp_prefix in E. rewrite lcp_comm, E. apply str_eqb_refl.
    + apply str_eqb_neq. intros [= Heq].
      apply join_clean_inj in Heq; [|by apply lcp_clean|exact Hb].
      rewrite lcp_comm in Heq. apply lcp_prefix in Heq. congruence.
  - rewrite andb_false_r. apply str_eqb_neq. intros [= Heq].
    apply (join_clean_head (lcp ca cb)); [by apply lcp_clean|].
    by rewrite Heq.
Qed.

End CommonPathFacts.

(** ** The command wrapper *)

Section WrapFacts.
Import Shlex Firewall.

Local Arguments quote : simpl never.
Local Arguments job_unit : simpl never.

(** Literal text of the wrapper, read from the start of a token. *)
Ltac lex_literal :=
  match goal with
  | |- context [lex _ _ _ (py ?l ++ ?R)] =>
      let R' := fresh "R" in
      let HR := fresh "HR" in
      remember R as R' eqn:HR in |- *;
      cbn; subst R'
  end.

(** Literal text that starts with a space and so ends the token the
    preceding quoted piece belongs to. *)
Ltac lex_after_quote :=
  match goal with
  | |- context [lex InWord ?q ?t (py ?l ++ ?R)] =>
      let R' := fresh "R" in
      let HR := fresh "HR" in
      remember R as R' eqn:HR in |- *;
      cbn [py list_ascii_of_string app];
      rewrite lex_word_whitespace;
        [|reflexivity
         |first [apply quoted_token_emitted
                |apply (quoted_token_emitted _ [])
                |apply token_with_suffix_emitted; reflexivity
                |reflexivity]];
      cbn; subst R'
  end.

(** The words a shell-style lexer reads back from a wrapped command. *)
Lemma wrap_tokens env command linux_user work_dir :
  split (_wrap_bash_command env command linux_user work_dir) =
  Some [py "sudo"; py "chown"; py "-R";
        linux_user ++ py ":" ++ linux_user; work_dir; py "&&";
        py "sudo"; py "systemd-run"; py "--scope";
        py "--slice=user-" ++ linux_user ++ py ".slice";
        py "--unit=" ++ job_unit env linux_user;
        py "--working-directory=" ++ work_dir;
        py "--uid=" ++ linux_user; py "--gid=" ++ linux_user;
        py "--quiet"; py "bash"; py "-lc"; command].
Proof.
  unfold split, _wrap_bash_command.
  repeat rewrite <- List.app_assoc.
  lex_literal.
  rewrite lex_space_quote.
  rewrite (lex_word_plain _ _ (py ":")) by reflexivity.
  rewrite lex_word_quote.
  lex_after_quote.
  rewrite lex_space_quote.
  lex_after_quote. lex_literal.
  rewrite lex_word_quote.
  change (py ".slice ") with (py ".slice" ++ py " ").
  rewrite <- (List.app_assoc (py ".slice") (py " ")).
  rewrite (lex_word_plain _ _ (py ".slice")) by reflexivity.
  lex_after_quote. lex_literal.
  rewrite lex_word_quote.
  lex_after_quote. lex_literal.
  rewrite lex_word_quote.
  lex_after_quote. lex_literal.
  rewrite lex_word_quote.
  lex_after_quote.
  rewrite lex_word_quote.
  lex_after_quote. lex_literal.
  rewrite <- (List.app_nil_r (quote command)), lex_space_quote.
  rewrite lex_word_eof by apply (quoted_token_emitted _ []).
  cbn. rewrite <- !List.app_assoc. reflexivity.
Qed.

Lemma escape_squotes_length s : (length s <= length (escape_squotes s))%nat.
Proof.
  induction s as [|c s IH]; [reflexivity|].
  cbn [escape_squotes flat_map]. fold (escape_squotes s).
  rewrite List.length_app. destruct (Ascii.eqb c "'"); simpl; lia.
Qed.

Lemma quote_length s : (length s <= length (quote s))%nat.
Proof.
  unfold quote. destruct s as [|c s]; [simpl; lia|].
  destruct (forallb is_safe_char (c :: s)); [lia|].
  rewrite !List.length_app. pose proof (escape_squotes_length (c :: s)).
  simpl in *. lia.
Qed.

(** A wrapped command is strictly longer than the command it wraps. *)
Lemma wrap_longer env command linux_user work_dir :
  (length command
   < length (_wrap_bash_command env command linux_user work_dir))%nat.
Proof.
  unfold _wrap_bash_command. rewrite !List.length_app.
  pose proof (quote_length command). simpl. lia.
Qed.

End WrapFacts.

Section WrapClaims.
Import Shlex Firewall.



End WrapClaims.

(** ** The tool permission handler *)

Section HandlerFacts.
Import Shlex Firewall.

Lemma strip_prefix_some p s after :
  strip_prefix p s = Some after <-> s = p ++ after.
Proof.
  revert s. induction p as [|c p IH]; intros s; simpl.
  - split; [by intros [= ->]|by intros ->].
  - destruct s as [|d s]; [split; discriminate|].
    destruct (Ascii.eqb_spec c d) as [->|Hne].
    + rewrite IH. split; [by intros ->|by intros [= ->]].
    + split; [discriminate|intros [= ? ?]; congruence].
Qed.

(** [match_user_id_here] succeeds exactly on [userid_] followed by at
    least one character that is neither a slash nor a backslash. *)
Lemma match_user_id_here_some s :
  (exists g, match_user_id_here s = Some g) <->
  (exists c rest, s = py "userid_" ++ c :: rest /\ is_id_char c = true).
Proof.
  unfold match_user_id_here. split.
  - intros [g Hg]. destruct (strip_prefix (py "userid_") s) as [after|] eqn:E;
      [|discriminate].
    apply strip_prefix_some in E. subst s.
    destruct after as [|c rest]; [discriminate|].
    simpl in Hg. destruct (is_id_char c) eqn:Hc; [eauto|discriminate].
  - intros (c & rest & -> & Hc).
    assert (E : strip_prefix (py "userid_") (py "userid_" ++ c :: rest)
                = Some (c :: rest)) by (by apply strip_prefix_some).
    rewrite E. simpl. rewrite Hc. eauto.
Qed.

(** [_extract_user_id] finds nothing exactly when the directory contains
    no [userid_] followed by a character other than a slash or a
    backslash. *)
Lemma extract_user_id_none_iff work_dir :
  _extract_user_id work_dir = None <->
  (forall before c rest,
     work_dir = before ++ py "userid_" ++ c :: rest -> is_id_char c = false).
Proof.
  induction work_dir as [|a w IH].
  - split; [|reflexivity]. intros _ before c rest H.
    destruct before; discriminate.
  - cbn [_extract_user_id].
    destruct (match_user_id_here (a :: w)) as [g|] eqn:E.
    + split; [discriminate|]. intros H. exfalso.
      destruct (proj1 (match_user_id_here_some (a :: w)) (ex_intro _ g E))
        as (c & rest & Heq & Hc).
      specialize (H [] c rest Heq). congruence.
    + rewrite IH. split.
      * intros H before c rest Heq. destruct before as [|b before].
        -- destruct (is_id_char c) eqn:Hc; [|reflexivity]. exfalso.
           destruct (proj2 (match_user_id_here_some (a :: w))) as [g Hg];
             [eauto|congruence].
        -- injection Heq as -> ->. eauto.
      * intros H before c rest ->. apply (H (a :: before) c rest). reflexivity.
Qed.

Lemma match_user_id_here_nonempty s g :
  match_user_id_here s = Some g -> g <> [].
Proof.
  unfold match_user_id_here.
  destruct (strip_prefix (py "userid_") s) as [after|]; [|discriminate].
  destruct (take_while is_id_char after); [discriminate|].
  by intros [= <-].
Qed.

Lemma extract_user_id_nonempty work_dir uid :
  _extract_user_id work_dir = Some uid -> uid <> [].
Proof.
  induction work_dir as [|a w IH]; [discriminate|].
  cbn [_extract_user_id].
  destruct (match_user_id_here (a :: w)) as [g|] eqn:E; [|exact IH].
  intros [= <-]. by apply match_user_id_here_nonempty in E.
Qed.

Lemma extract_user_id_truthy work_dir uid :
  _extract_user_id work_dir = Some uid -> str_truthy uid = true.
Proof.
  intros H. apply extract_user_id_nonempty in H. by destruct uid.
Qed.

(** The checker needs the slice marker of the identity among the words
    of the command. *)
Lemma has_systemd_run_needs_slice linux_user tokens idx :
  ~ In (py "--slice=user-" ++ linux_user ++ py ".slice") tokens ->
  has_systemd_run linux_user tokens idx = false.
Proof.
  intros Hno. unfold has_systemd_run.
  destruct (skipn idx tokens) as [|t0 [|t1 after]] eqn:E; try reflexivity.
  destruct (negb (str_eqb t0 (py "sudo")) || negb (str_eqb t1 (py "systemd-run")));
    [reflexivity|].
  cbn zeta. apply andb_false_intro2. apply not_true_is_false. intros Hex.
  apply existsb_exists in Hex as (x & Hx & Heq). apply str_eqb_eq in Heq.
  subst x. apply Hno.
  rewrite <- (List.firstn_skipn idx tokens), E.
  apply List.in_or_app. right. right. right. exact Hx.
Qed.

Lemma legacy_scan_needs_slice linux_user work_dir command parts idxs :
  ~ In (py "--slice=user-" ++ linux_user ++ py ".slice") parts ->
  legacy_scan linux_user work_dir command parts idxs = false.
Proof.
  intros Hno. induction idxs as [|i idxs IH]; [reflexivity|].
  cbn [legacy_scan]. rewrite (has_systemd_run_needs_slice _ _ _ Hno).
  by rewrite andb_false_r.
Qed.

Lemma checker_needs_slice command linux_user work_dir :
  (forall parts, split command = Some parts ->
     ~ In (py "--slice=user-" ++ linux_user ++ py ".slice") parts) ->
  _is_allowed_wrapped_command command linux_user work_dir = false.
Proof.
  intros Hno. unfold _is_allowed_wrapped_command.
  set (parts0 := match split command with Some parts => parts | None => [] end).
  assert (H0 : ~ In (py "--slice=user-" ++ linux_user ++ py ".slice") parts0).
  { unfold parts0. destruct (split command) as [parts|]; [by apply Hno|].
    intros []. }
  set (parts1 := match parts0 with
                 | first :: others =>
                     if str_eqb first (py "time") then others else parts0
                 | [] => parts0
                 end).
  assert (H1 : ~ In (py "--slice=user-" ++ linux_user ++ py ".slice") parts1).
  { unfold parts1. destruct parts0 as [|first others]; [exact H0|].
    destruct (str_eqb first (py "time")); [|exact H0].
    intros Hin. apply H0. by right. }
  rewrite (has_systemd_run_needs_slice _ _ _ H1).
  by apply legacy_scan_needs_slice.
Qed.

(** For a Bash call with a non-empty string command, made for a
    directory that yields a non-empty Linux user on a non-Windows host
    with the firewall on, the handler wraps the command. *)
Lemma handler_wraps_bash cfg u host sdk work_dir env d uid command :
  FIREWALL_ENABLED cfg = true ->
  str_eqb (os_name host) (py "nt") = false ->
  _extract_user_id work_dir = Some uid ->
  str_truthy (_to_linux_user cfg u uid) = true ->
  d !! py "command" = Some (PStr command) ->
  str_truthy command = true ->
  build_tool_permission_handler cfg u host sdk work_dir env (py "Bash") (Some d)
  = Return (_allow_permission_result sdk
      (<[py "command" :=
           PStr (_wrap_bash_command env command (_to_linux_user cfg u uid) work_dir)]> d)).
Proof.
  intros Hfw Hos Huid Huser Hcmd Hne.
  unfold build_tool_permission_handler.
  rewrite Hfw, Huid, (extract_user_id_truthy _ _ Huid).
  cbn [negb dict_or_empty default from_option id].
  rewrite Huser, Hos.
  change (str_truthy (py "Bash")) with true. cbv iota.
  replace (pyval_eqb (PStr (py "Bash")) (PStr (py "Read"))) with false
    by (symmetry; vm_compute; reflexivity).
  replace (pyval_eqb (PStr (py "Bash")) (PStr (py "Grep"))) with false
    by (symmetry; vm_compute; reflexivity).
  replace (pyval_eqb (PStr (py "Bash")) (PStr (py "Glob"))) with false
    by (symmetry; vm_compute; reflexivity).
  replace (pyval_eqb (PStr (py "Bash")) (PStr (py "Bash"))) with true
    by (symmetry; vm_compute; reflexivity).
  cbn [orb andb negb].
  assert (Hget : dict_get d "command" = PStr command).
  { unfold dict_get. by rewrite Hcmd. }
  rewrite Hget. cbn [truthy]. rewrite Hne. reflexivity.
Qed.

End HandlerFacts.

Section HandlerClaims.
Import Shlex Firewall.

(** C10.  If the working directory contains no [userid_] followed by a
    character other than a slash or a backslash, [_extract_user_id]
    finds no user id, and the handler built for that directory allows
    every tool call and hands back the input it was given (an absent
    input as the empty dictionary): no path is checked and no Bash
    command is wrapped, with the firewall enabled or not. *)
Theorem handler_without_user_id_allows_all
    cfg u host sdk work_dir env tool_name input_data :
  (forall before c rest,
      work_dir = before ++ py "userid_" ++ c :: rest -> is_id_char c = false) ->
  _extract_user_id work_dir = None /\
  build_tool_permission_handler cfg u host sdk work_dir env tool_name input_data
  = Return (_allow_permission_result sdk (dict_or_empty input_data)).
Proof.
  intros Hseg. apply extract_user_id_none_iff in Hseg as Hnone.
  split; [exact Hnone|].
  unfold build_tool_permission_handler. rewrite Hnone.
  destruct (FIREWALL_ENABLED cfg); cbn [negb]; [|reflexivity].
  cbn [andb]. by rewrite !andb_false_r.
Qed.

Lemma handler_without_user_id_allows_all_witness :
  build_tool_permission_handler default_config ascii_unicode
    {| os_name := py "posix"; getcwd := py "/srv/app" |} NoAllowClass
    (py "/opt/data/agent") {| time_ms := 0; uuid4_hex := py "00112233" |}
    (py "Read") (Some (<[py "file_path" := PStr (py "/etc/passwd")]> ∅))
  = Return (AllowDict (<[py "file_path" := PStr (py "/etc/passwd")]> ∅)).
Proof.
  apply (handler_without_user_id_allows_all default_config ascii_unicode
           {| os_name := py "posix"; getcwd := py "/srv/app" |} NoAllowClass
           (py "/opt/data/agent")).
  apply extract_user_id_none_iff. reflexivity.
Defined.

(** C3, as stated, fails.  For tenant [u1] with the default
    configuration, a command that [_wrap_bash_command] produced for this
    very identity and directory is not recognised by
    [_is_allowed_wrapped_command], and the handler, which never consults
    that check, wraps it a second time. *)
Lemma wrapped_command_is_wrapped_again :
  let host := {| os_name := py "posix"; getcwd := py "/srv/app" |} in
  let work_dir := py "/home/queen/userid_u1/agent1" in
  let linux_user := _to_linux_user default_config ascii_unicode (py "u1") in
  let env0 := {| time_ms := 1700000000123;
                 uuid4_hex := py "0123456789abcdef0123456789abcdef" |} in
  let env1 := {| time_ms := 1700000000456;
                 uuid4_hex := py "fedcba9876543210fedcba9876543210" |} in
  let once := _wrap_bash_command env0 (py "ls") linux_user work_dir in
  let twice := _wrap_bash_command env1 once linux_user work_dir in
  _extract_user_id work_dir = Some (py "u1") /\
  _is_allowed_wrapped_command once linux_user work_dir = false /\
  build_tool_permission_handler default_config ascii_unicode host NoAllowClass work_dir env1
    (py "Bash") (Some (<[py "command" := PStr once]> ∅))
  = Return (AllowDict (<[py "command" := PStr twice]> ∅)) /\
  twice <> once.
Proof.
  cbv zeta. split; [reflexivity|]. split; [vm_compute; reflexivity|].
  split; [vm_compute; reflexivity|].
  intros Heq. apply (f_equal (@length ascii)) in Heq.
  vm_compute in Heq. discriminate Heq.
Qed.

(** C3, amended.  On a non-Windows host with the firewall on, for a
    working directory that yields a non-empty Linux user, the handler
    wraps every non-empty Bash command it is given, whether or not that
    command is itself the output of the wrapper: it replaces the
    command in its input by [_wrap_bash_command] of the command it
    received, which is never that command itself, and answers with the
    allow result built from that input.  When the SDK's
    [PermissionResultAllow] takes an updated input, or when there is no
    such class and the answer is a dictionary, the answer carries the
    input with the wrapped command; when the class can only be built
    without arguments, the answer carries no input at all.  No command
    is therefore ever treated as already isolated, whatever marker text
    it embeds.  The separate check [_is_allowed_wrapped_command], which
    the handler does not call, rejects every command whose words do not
    include the slice marker of the identity it is asked about. *)
Theorem bash_commands_always_wrapped
    cfg u host sdk work_dir env d uid command :
  FIREWALL_ENABLED cfg = true ->
  str_eqb (os_name host) (py "nt") = false ->
  _extract_user_id work_dir = Some uid ->
  str_truthy (_to_linux_user cfg u uid) = true ->
  d !! py "command" = Some (PStr command) ->
  str_truthy command = true ->
  let linux_user := _to_linux_user cfg u uid in
  let wrapped := _wrap_bash_command env command linux_user work_dir in
  let updated_input := <[py "command" := PStr wrapped]> d in
  build_tool_permission_handler cfg u host sdk work_dir env (py "Bash") (Some d)
  = Return (match sdk with
            | TakesUpdatedInput | TakesInputData =>
                PermissionResultAllow (Some updated_input)
            | TakesNothing => PermissionResultAllow None
            | NoAllowClass => AllowDict updated_input
            end) /\
  updated_input !! py "command" = Some (PStr wrapped) /\
  (forall key, key <> py "command" -> updated_input !! key = d !! key) /\
  wrapped <> command /\
  (forall other,
      (forall parts, split other = Some parts ->
         ~ In (py "--slice=user-" ++ linux_user ++ py ".slice") parts) ->
      _is_allowed_wrapped_command other linux_user work_dir = false).
Proof.
  intros Hfw Hos Huid Huser Hcmd Hne. cbv zeta.
  split.
  { rewrite (handler_wraps_bash cfg u host sdk work_dir env d uid command)
      by assumption.
    by destruct sdk. }
  split; [apply lookup_insert_eq|].
  split; [intros key Hkey; by apply lookup_insert_ne|].
  split.
  - intros Heq.
    pose proof (wrap_longer env command (_to_linux_user cfg u uid) work_dir).
    rewrite Heq in H. lia.
  - intros other. apply checker_needs_slice.
Qed.

Lemma bash_commands_always_wrapped_witness :
  let host := {| os_name := py "posix"; getcwd := py "/srv/app" |} in
  let work_dir := py "/home/queen/userid_u1/agent1" in
  let env0 := {| time_ms := 1700000000123;
                 uuid4_hex := py "0123456789abcdef0123456789abcdef" |} in
  let env1 := {| time_ms := 1700000000456;
                 uuid4_hex := py "fedcba9876543210fedcba9876543210" |} in
  let once := _wrap_bash_command env0 (py "ls") (py "queenu1") work_dir in
  build_tool_permission_handler default_config ascii_unicode host
    TakesUpdatedInput work_dir env1 (py "Bash")
    (Some (<[py "command" := PStr once]> ∅))
  = Return (PermissionResultAllow (Some
      (<[py "command" :=
           PStr (_wrap_bash_command env1 once (py "queenu1") work_dir)]>
         (<[py "command" := PStr once]> ∅)))).
Proof.
  cbv zeta.
  apply (bash_commands_always_wrapped default_config ascii_unicode
           {| os_name := py "posix"; getcwd := py "/srv/app" |}
           TakesUpdatedInput (py "/home/queen/userid_u1/agent1")
           {| time_ms := 1700000000456;
              uuid4_hex := py "fedcba9876543210fedcba9876543210" |}
           (<[py "command" :=
                PStr (_wrap_bash_command
                        {| time_ms := 1700000000123;
                           uuid4_hex := py "0123456789abcdef0123456789abcdef" |}
                        (py "ls") (py "queenu1")
                        (py "/home/queen/userid_u1/agent1"))]> ∅)
           (py "u1"));
    first [reflexivity | vm_compute; reflexivity | apply lookup_insert_eq].
Defined.

End HandlerClaims.

(** ** Workspace confinement of the read tools *)

Section PathClaims.
Import PosixPath Firewall.

(** [_is_path_allowed] for a non-empty path, when the process's current
    directory is absolute: the components of the normalised allowed
    directory must be an initial segment of those of the normalised
    path, and the normalised allowed directory must not start with two
    slashes. *)
Lemma is_path_allowed_spec host p allowed_dir :
  startswith [sep] (getcwd host) = true ->
  str_truthy p = true ->
  _is_path_allowed host p allowed_dir
  = is_prefix (components (abspath host allowed_dir))
              (components (abspath host p))
    && negb (startswith [sep; sep] (abspath host allowed_dir)).
Proof.
  intros Hcwd Hp. unfold _is_path_allowed. rewrite Hp. cbn [negb].
  destruct (abspath_abs host p Hcwd) as (n & ca & Hn & Ha & ->).
  destruct (abspath_abs host allowed_dir Hcwd) as (m & cb & Hm & Hb & ->).
  rewrite (commonpath_normal n m ca cb Hn Hm Ha Hb).
  rewrite (common_equals_allowed n m ca cb Hn Hm Ha Hb).
  rewrite !components_normal by assumption. f_equal.
  destruct Hm as [-> | ->]; [|reflexivity].
  cbn [repeat app Nat.eqb startswith]. rewrite Ascii.eqb_refl.
  change (if Ascii.eqb sep sep then startswith [] (join [sep] cb) else false)
    with true.
  destruct (join [sep] cb) as [|c rest] eqn:E; [reflexivity|].
  destruct (Ascii.eqb sep c) eqn:Ec; [|reflexivity].
  exfalso. apply (join_clean_head cb Hb). rewrite E. cbn [startswith].
  by rewrite Ec.
Qed.




Example absolute_path_outside_denied :
  read_request "/srv/app" "/etc/passwd" = denied /\
  read_request "/srv/app" "/home/queen/userid_u2/notes.txt" = denied /\
  read_request "/srv/app" "/home/queen/userid_u1/../userid_u2/notes.txt" = denied /\
  read_request "/srv/app" "/home/queen/userid_u10/notes.txt" = denied.
Proof. repeat split; vm_compute; reflexivity. Qed.

Example path_under_workspace_allowed :
  read_request "/srv/app" "/home/queen/userid_u1/subdir/file.txt"
  = allowed "/home/queen/userid_u1/subdir/file.txt" /\
  read_request "/home/queen/userid_u1" "subdir/file.txt"
  = allowed "subdir/file.txt".
Proof. split; vm_compute; reflexivity. Qed.

Example traversal_denied :
  read_request "/home/queen/userid_u1" "../../etc/passwd" = denied /\
  read_request "/home/queen/userid_u1/agent1" "../../etc/passwd" = denied.
Proof. split; vm_compute; reflexivity. Qed.

(** From a current directory deep enough inside the workspace, the same
    traversal stays inside it and is allowed. *)
Example traversal_inside_workspace_allowed :
  read_request "/home/queen/userid_u1/a/b/c" "../../etc/passwd"
  = allowed "../../etc/passwd".
Proof. vm_compute. reflexivity. Qed.

End PathClaims.

(** ** Port layout, pool capacity and storage quota *)

Section PortLayout.
Import PortAllocator Quota.
Variable cfg : Config.
Hypothesis block_positive : 0 < USER_PORT_BLOCK_SIZE cfg.

Lemma packed_from_snoc start t row :
  packed_from cfg start t ->
  port_start row = start + Z.of_nat (length t) * USER_PORT_BLOCK_SIZE cfg ->
  port_end row = port_start row + USER_PORT_BLOCK_SIZE cfg - 1 ->
  packed_from cfg start (t ++ [row]).
Proof.
  revert start. induction t as [|r t IH]; intros start Hp Hs He.
  - simpl in *. split; [lia|]. split; [lia|exact I].
  - destruct Hp as (H1 & H2 & H3). cbn [app packed_from].
    split; [exact H1|]. split; [exact H2|].
    apply IH; [exact H3| |exact He].
    rewrite Hs. cbn [length]. lia.
Qed.

Lemma packed_from_max_end start t :
  packed_from cfg start t ->
  select_max_end (start - 1) t
  = start + Z.of_nat (length t) * USER_PORT_BLOCK_SIZE cfg - 1.
Proof.
  unfold select_max_end. revert start.
  induction t as [|r t IH]; intros start Hp; [simpl; lia|].
  destruct Hp as (H1 & H2 & H3). specialize (IH _ H3).
  cbn [sql_max_port_end length].
  destruct (sql_max_port_end t) as [m|] eqn:E.
  - rewrite H2. replace (start + USER_PORT_BLOCK_SIZE cfg - 1) with
      (start + USER_PORT_BLOCK_SIZE cfg - 1) in IH by reflexivity.
    assert (m = start + USER_PORT_BLOCK_SIZE cfg
                + Z.of_nat (length t) * USER_PORT_BLOCK_SIZE cfg - 1) by lia.
    subst m. nia.
  - apply sql_max_port_end_none in E. subst t. simpl. lia.
Qed.

(** The call on a packed table, for a tenant without a row. *)
Lemma ensure_user_settings_packed env uid t :
  packed_from cfg (USER_PORT_POOL_START cfg) t ->
  select_port_range uid t = None ->
  let n := Z.of_nat (length t) in
  let ps := USER_PORT_POOL_START cfg + n * USER_PORT_BLOCK_SIZE cfg in
  let pe := ps + USER_PORT_BLOCK_SIZE cfg - 1 in
  (pe > USER_PORT_POOL_END cfg ->
     ensure_user_settings cfg env uid t = (Raise pool_exhausted, t)) /\
  (pe <= USER_PORT_POOL_END cfg ->
     exists row,
       ensure_user_settings cfg env uid t = (Return (ps, pe), t ++ [row]) /\
       row_user_id row = uid /\ port_start row = ps /\ port_end row = pe /\
       storage_quota_bytes row = USER_DEFAULT_STORAGE_QUOTA_BYTES cfg).
Proof.
  intros Hp Hsel. cbn zeta. unfold ensure_user_settings. rewrite Hsel.
  rewrite (packed_from_max_end _ _ Hp).
  set (n := Z.of_nat (length t)).
  assert (Hn : 0 <= n) by (unfold n; lia).
  replace (Z.max (USER_PORT_POOL_START cfg + n * USER_PORT_BLOCK_SIZE cfg - 1 + 1)
                 (USER_PORT_POOL_START cfg))
    with (USER_PORT_POOL_START cfg + n * USER_PORT_BLOCK_SIZE cfg) by nia.
  cbn zeta.
  destruct (Z.gtb_spec (USER_PORT_POOL_START cfg + n * USER_PORT_BLOCK_SIZE cfg
                        + USER_PORT_BLOCK_SIZE cfg - 1) (USER_PORT_POOL_END cfg))
    as [Hgt|Hle]; split; intros H; try lia; [reflexivity|].
  eexists. split; [reflexivity|]. simpl. auto.
Qed.

Lemma ensure_user_settings_keeps_packed env uid t :
  packed_from cfg (USER_PORT_POOL_START cfg) t ->
  packed_from cfg (USER_PORT_POOL_START cfg)
    (snd (ensure_user_settings cfg env uid t)).
Proof.
  intros Hp.
  destruct (select_port_range uid t) as [[ps pe]|] eqn:Hsel.
  - unfold ensure_user_settings. rewrite Hsel. exact Hp.
  - destruct (ensure_user_settings_packed env uid t Hp Hsel) as [Hfail Hok].
    destruct (Z_gt_le_dec
      (USER_PORT_POOL_START cfg + Z.of_nat (length t) * USER_PORT_BLOCK_SIZE cfg
       + USER_PORT_BLOCK_SIZE cfg - 1) (USER_PORT_POOL_END cfg)) as [Hgt|Hle].
    + rewrite (Hfail Hgt). exact Hp.
    + destruct (Hok Hle) as (row & -> & _ & Hs & He & _). simpl.
      apply packed_from_snoc; [exact Hp|exact Hs|]. rewrite He, Hs. lia.
Qed.

Lemma reachable_packed t :
  reachable cfg t -> packed_from cfg (USER_PORT_POOL_START cfg) t.
Proof.
  intros [calls ->]. unfold run_calls.
  assert (H : forall t0, packed_from cfg (USER_PORT_POOL_START cfg) t0 ->
    packed_from cfg (USER_PORT_POOL_START cfg)
      (fold_left (fun t c => snd (ensure_user_settings cfg c.1 c.2 t)) calls t0)).
  { induction calls as [|c calls IH]; intros t0 H0; [exact H0|].
    simpl. apply IH. by apply ensure_user_settings_keeps_packed. }
  apply H. exact I.
Qed.

End PortLayout.

Section PortExtras.
Import PortAllocator Quota.

Lemma find_app_split {A} (f : A -> bool) l1 l2 :
  List.find f (l1 ++ l2)
  = match List.find f l1 with Some x => Some x | None => List.find f l2 end.
Proof.
  induction l1 as [|a l1 IH]; [reflexivity|]. simpl.
  destruct (f a); [reflexivity|exact IH].
Qed.

Lemma packed_from_nth cfg start t k r :
  packed_from cfg start t -> nth_error t k = Some r ->
  port_start r = start + Z.of_nat k * USER_PORT_BLOCK_SIZE cfg /\
  port_end r = port_start r + USER_PORT_BLOCK_SIZE cfg - 1.
Proof.
  revert start k. induction t as [|a t IH]; intros start k Hp Hk.
  - destruct k; discriminate.
  - destruct Hp as (H1 & H2 & H3). destruct k as [|k].
    + injection Hk as <-. rewrite H1, H2. lia.
    + destruct (IH _ _ H3 Hk) as [Hs He]. rewrite Hs, He. lia.
Qed.

(** X1.  With a positive block size, the blocks of every table built by
    the allocator are packed: the k-th row inserted (counting from 0)
    holds the block that starts at [POOL_START + k * BLOCK_SIZE] and has
    exactly [BLOCK_SIZE] ports.  The next new tenant gets the block after
    the last one if its end is at most [POOL_END], and the pool-exhausted
    error otherwise: the pool serves exactly as many tenants as whole
    blocks fit in it. *)
Theorem port_blocks_packed cfg t :
  0 < USER_PORT_BLOCK_SIZE cfg ->
  reachable cfg t ->
  (forall k r, nth_error t k = Some r ->
     port_start r = USER_PORT_POOL_START cfg
                    + Z.of_nat k * USER_PORT_BLOCK_SIZE cfg /\
     port_end r = port_start r + USER_PORT_BLOCK_SIZE cfg - 1) /\
  (forall env uid, _get_user_port_range uid t = None ->
     let ps := USER_PORT_POOL_START cfg
               + Z.of_nat (length t) * USER_PORT_BLOCK_SIZE cfg in
     let pe := ps + USER_PORT_BLOCK_SIZE cfg - 1 in
     fst (ensure_user_settings cfg env uid t)
     = if pe >? USER_PORT_POOL_END cfg then Raise pool_exhausted
       else Return (ps, pe)).
Proof.
  intros Hpos Hreach. pose proof (reachable_packed cfg Hpos t Hreach) as Hp.
  split.
  - intros k r Hk. exact (packed_from_nth cfg _ t k r Hp Hk).
  - intros env uid Hsel. cbn zeta.
    destruct (ensure_user_settings_packed cfg Hpos env uid t Hp Hsel) as [Hf Hok].
    cbn zeta in Hf, Hok.
    destruct (Z.gtb_spec
      (USER_PORT_POOL_START cfg + Z.of_nat (length t) * USER_PORT_BLOCK_SIZE cfg
       + USER_PORT_BLOCK_SIZE cfg - 1) (USER_PORT_POOL_END cfg)) as [Hgt|Hle].
    + rewrite Hf by lia. reflexivity.
    + destruct (Hok Hle) as (row & -> & _). reflexivity.
Qed.

Lemma port_blocks_packed_witness :
  let t := run_calls default_config
    [({| fresh_uuid := py "id-1"; current_timestamp := 1 |}, py "u1");
     ({| fresh_uuid := py "id-2"; current_timestamp := 2 |}, py "u2");
     ({| fresh_uuid := py "id-3"; current_timestamp := 3 |}, py "u3")] [] in
  fst (ensure_user_settings default_config
         {| fresh_uuid := py "id-4"; current_timestamp := 4 |} (py "u4") t)
  = Return (20031, 20040).
Proof.
  cbv zeta.
  refine (proj2 (port_blocks_packed default_config _ _ _) _ (py "u4") _).
  - reflexivity.
  - eexists. reflexivity.
  - reflexivity.
Defined.

(** X2.  Pool exhaustion is permanent: once a call has failed on a
    table, no later sequence of calls changes the table, and every later
    call for a tenant without a row fails the same way. *)
Theorem pool_exhaustion_permanent cfg env uid t e :
  fst (ensure_user_settings cfg env uid t) = Raise e ->
  forall calls,
    run_calls cfg calls t = t /\
    forall env' uid', _get_user_port_range uid' t = None ->
      ensure_user_settings cfg env' uid' (run_calls cfg calls t)
      = (Raise pool_exhausted, t).
Proof.
  intros Hraise.
  assert (Hfull : forall env' uid', select_port_range uid' t = None ->
            ensure_user_settings cfg env' uid' t = (Raise pool_exhausted, t)).
  { intros env' uid' Hsel'. revert Hraise. unfold ensure_user_settings.
    destruct (select_port_range uid t) as [[? ?]|]; [discriminate|].
    rewrite Hsel'. cbn zeta.
    destruct (_ >? _); [reflexivity|discriminate]. }
  assert (Hstep : forall env' uid', snd (ensure_user_settings cfg env' uid' t) = t).
  { intros env' uid'.
    destruct (select_port_range uid' t) as [[ps pe]|] eqn:Hsel'.
    - unfold ensure_user_settings. by rewrite Hsel'.
    - by rewrite (Hfull env' uid' Hsel'). }
  assert (Hrun : forall calls, run_calls cfg calls t = t).
  { induction calls as [|c calls IH]; [reflexivity|].
    unfold run_calls in *. simpl. by rewrite Hstep. }
  intros calls. split; [apply Hrun|].
  intros env' uid' Hsel'. rewrite Hrun. by apply Hfull.
Qed.

Lemma pool_exhaustion_permanent_witness :
  let cfg := {| FIREWALL_ENABLED := true; LINUX_USER_PREFIX := py "queen";
                USER_PORT_POOL_START := 20001; USER_PORT_POOL_END := 20015;
                USER_PORT_BLOCK_SIZE := 10;
                USER_DEFAULT_STORAGE_QUOTA_BYTES := 1073741824;
                WORK_BASE_DIR := py "/home/queen";
                IDLE_TIMEOUT_SECONDS := 1200;
                IDLE_AGENT_CLEANUP_INTERVAL := 300 |} in
  let env := {| fresh_uuid := py "id"; current_timestamp := 7 |} in
  let t := run_calls cfg [(env, py "u1")] [] in
  run_calls cfg [(env, py "u2"); (env, py "u1"); (env, py "u3")] t = t.
Proof.
  cbv zeta.
  refine (proj1 (pool_exhaustion_permanent _
            {| fresh_uuid := py "id"; current_timestamp := 7 |} (py "u2") _
            pool_exhausted _ _)).
  reflexivity.
Defined.

(** X3.  Insert and lookup agree: after a successful call for a tenant,
    [_get_user_port_range] returns for that tenant the pair the call
    returned, and for every other tenant what it returned before. *)
Theorem ensure_then_get_port_range cfg env uid t ps pe t' :
  ensure_user_settings cfg env uid t = (Return (ps, pe), t') ->
  _get_user_port_range uid t' = Some (ps, pe) /\
  forall other, other <> uid ->
    _get_user_port_range other t' = _get_user_port_range other t.
Proof.
  intros Hcall. unfold _get_user_port_range.
  destruct (ensure_user_settings_cases cfg env uid t)
    as [(ps0 & pe0 & Hsel & E)|[[_ E]|(row & Hsel & E & Huid & _)]];
    cbn zeta in E; rewrite Hcall in E; try discriminate.
  - injection E as -> -> ->. split; [exact Hsel|reflexivity].
  - injection E as -> -> ->. split.
    + unfold select_port_range in *. rewrite find_app_split.
      destruct (List.find _ t); [discriminate|]. simpl.
      by rewrite Huid, str_eqb_refl.
    + intros other Hne. unfold select_port_range. rewrite find_app_split.
      destruct (List.find _ t); [reflexivity|]. simpl.
      rewrite Huid. apply str_eqb_neq in Hne. rewrite str_eqb_sym in Hne.
      by rewrite Hne.
Qed.

Lemma ensure_then_get_port_range_witness :
  _get_user_port_range (py "u1")
    (snd (ensure_user_settings default_config
            {| fresh_uuid := py "id-1"; current_timestamp := 1 |} (py "u1") []))
  = Some (20001, 20010).
Proof.
  refine (proj1 (ensure_then_get_port_range default_config
            {| fresh_uuid := py "id-1"; current_timestamp := 1 |}
            (py "u1") [] 20001 20010 _ _)).
  reflexivity.
Defined.

(** X4.  With a positive block size, every port the allocator ever hands
    out lies inside the configured pool: each row of a table it built
    satisfies [POOL_START <= port_start <= port_end <= POOL_END]. *)
Theorem allocated_ports_within_pool cfg t r :
  0 < USER_PORT_BLOCK_SIZE cfg ->
  reachable cfg t -> In r t ->
  USER_PORT_POOL_START cfg <= port_start r /\
  port_start r <= port_end r /\
  port_end r <= USER_PORT_POOL_END cfg.
Proof.
  intros Hpos [calls ->]. revert r. unfold run_calls.
  assert (H : forall t0,
    (forall r, In r t0 -> USER_PORT_POOL_START cfg <= port_start r /\
                          port_start r <= port_end r /\
                          port_end r <= USER_PORT_POOL_END cfg) ->
    forall r,
      In r (fold_left (fun t c => snd (ensure_user_settings cfg c.1 c.2 t))
                      calls t0) ->
      USER_PORT_POOL_START cfg <= port_start r /\
      port_start r <= port_end r /\
      port_end r <= USER_PORT_POOL_END cfg).
  { induction calls as [|c calls IH]; intros t0 H0; [exact H0|].
    simpl. apply IH. intros r Hr.
    destruct (ensure_user_settings_cases cfg c.1 c.2 t0)
      as [(ps & pe & _ & E)|[[_ E]|(row & _ & E & _ & _ & Hfl & Hend & Hceil)]];
      cbn zeta in E; rewrite E in Hr; simpl in Hr; auto.
    apply List.in_app_or in Hr as [Hr|[<-|[]]]; [auto|]. lia. }
  apply H. intros r [].
Qed.

Lemma allocated_ports_within_pool_witness :
  let row := {| row_id := py "id-1"; row_user_id := py "u1";
                port_start := 20001; port_end := 20010;
                storage_quota_bytes := 1073741824; settings := py "{}";
                created_at := 1; updated_at := 1 |} in
  20001 <= port_start row /\ port_start row <= port_end row /\
  port_end row <= 40000.
Proof.
  cbv zeta.
  refine (allocated_ports_within_pool default_config
    (run_calls default_config
       [({| fresh_uuid := py "id-1"; current_timestamp := 1 |}, py "u1")] [])
    _ _ _ _).
  - reflexivity.
  - eexists. reflexivity.
  - left. reflexivity.
Defined.

End PortExtras.

Section QuotaExtras.
Import PortAllocator Quota.

Lemma reachable_default_quota cfg t r :
  reachable cfg t -> In r t ->
  storage_quota_bytes r = USER_DEFAULT_STORAGE_QUOTA_BYTES cfg.
Proof.
  intros [calls ->]. revert r. unfold run_calls.
  assert (H : forall t0,
    (forall r, In r t0 ->
       storage_quota_bytes r = USER_DEFAULT_STORAGE_QUOTA_BYTES cfg) ->
    forall r,
      In r (fold_left (fun t c => snd (ensure_user_settings cfg c.1 c.2 t))
                      calls t0) ->
      storage_quota_bytes r = USER_DEFAULT_STORAGE_QUOTA_BYTES cfg).
  { induction calls as [|c calls IH]; intros t0 H0; [exact H0|].
    simpl. apply IH. intros r. unfold ensure_user_settings.
    destruct (select_port_range c.2 t0) as [[? ?]|]; [apply H0|].
    cbn zeta. destruct (_ >? _); [apply H0|]. simpl.
    intros Hr. apply List.in_app_or in Hr as [Hr|[<-|[]]]; [auto|reflexivity]. }
  apply H. intros r [].
Qed.

(** X5.  On a table built by the allocator, the storage check refuses a
    tenant only when the firewall is on, the host is not Windows, the
    tenant has a row, the workspace size is known and that size exceeds
    the default quota.  In every other case (firewall off, Windows, no
    row, size unknown, size within quota) the tenant is allowed. *)
Theorem storage_quota_refuses_only_over_quota cfg host used uid t :
  reachable cfg t ->
  (check_user_storage_quota cfg host used uid t).1.1 = false <->
  FIREWALL_ENABLED cfg = true /\
  os_name host <> py "nt" /\
  _get_user_port_range uid t <> None /\
  exists n, used = Some n /\ n > USER_DEFAULT_STORAGE_QUOTA_BYTES cfg.
Proof.
  intros Hreach. unfold check_user_storage_quota, _get_user_storage_quota,
    _get_user_port_range, select_port_range.
  destruct (FIREWALL_ENABLED cfg); cbn [negb orb];
    [|split; [discriminate|intros [? _]; discriminate]].
  destruct (str_eqb (os_name host) (py "nt")) eqn:Hos.
  { apply str_eqb_eq in Hos. split; [discriminate|]. intros (_ & H & _).
    contradiction. }
  apply str_eqb_neq in Hos.
  destruct (List.find _ t) as [r|] eqn:Hfind.
  - apply List.find_some in Hfind as [Hin _].
    rewrite (reachable_default_quota cfg t r Hreach Hin).
    destruct used as [n|]; cbn [fst].
    + split.
      * intros Hle. apply Z.leb_gt in Hle. repeat split; try done.
        exists n. split; [reflexivity|lia].
      * intros (_ & _ & _ & m & [= <-] & Hgt). apply Z.leb_gt. lia.
    + split; [discriminate|]. intros (_ & _ & _ & m & [=] & _).
  - split; [discriminate|]. intros (_ & _ & H & _). contradiction.
Qed.

Lemma storage_quota_refuses_only_over_quota_witness :
  (check_user_storage_quota default_config
     {| os_name := py "posix"; getcwd := py "/srv/app" |}
     (Some 2000000000) (py "u1")
     (run_calls default_config
        [({| fresh_uuid := py "id-1"; current_timestamp := 1 |}, py "u1")] [])).1.1
  = false.
Proof.
  apply (storage_quota_refuses_only_over_quota default_config
           {| os_name := py "posix"; getcwd := py "/srv/app" |}
           (Some 2000000000) (py "u1")).
  - eexists. reflexivity.
  - split; [reflexivity|]. split; [discriminate|]. split; [discriminate|].
    exists 2000000000. split; [reflexivity|]. reflexivity.
Defined.

End QuotaExtras.

(** ** Tenant identity derived from the working directory *)

Section IdentityFacts.
Import Firewall ConfigPaths.

Lemma strip_prefix_before_slash q p s after :
  ~ In "/"%char q ->
  strip_prefix q (p ++ "/"%char :: s) = Some after ->
  exists after', strip_prefix q p = Some after' /\ after = after' ++ "/"%char :: s.
Proof.
  revert p. induction q as [|c q IH]; intros p Hno H.
  - simpl in *. injection H as <-. eauto.
  - destruct p as [|d p]; simpl in H.
    + destruct (Ascii.eqb_spec c "/") as [->|Hne]; [|discriminate].
      exfalso. apply Hno. by left.
    + simpl. destruct (Ascii.eqb c d); [|discriminate].
      apply IH; [|exact H]. intros Hin. apply Hno. by right.
Qed.

Lemma strip_prefix_extend q p s :
  forall after, strip_prefix q p = Some after ->
  strip_prefix q (p ++ s) = Some (after ++ s).
Proof.
  revert p. induction q as [|c q IH]; intros p after H.
  - simpl in *. by injection H as <-.
  - destruct p as [|d p]; [discriminate|]. simpl in *.
    destruct (Ascii.eqb c d); [by apply IH|discriminate].
Qed.

Lemma take_while_before_slash after s :
  take_while is_id_char (after ++ "/"%char :: s) = take_while is_id_char after.
Proof.
  induction after as [|c after IH]; [reflexivity|].
  simpl. destruct (is_id_char c); [by rewrite IH|reflexivity].
Qed.

(** A match of the pattern never runs across a slash. *)
Lemma match_user_id_here_before_slash p s :
  match_user_id_here (p ++ "/"%char :: s) = match_user_id_here p.
Proof.
  unfold match_user_id_here.
  destruct (strip_prefix (py "userid_") p) as [after'|] eqn:Ep.
  - rewrite (strip_prefix_extend _ _ ("/"%char :: s) _ Ep).
    by rewrite take_while_before_slash.
  - destruct (strip_prefix (py "userid_") (p ++ "/"%char :: s)) as [after|] eqn:E;
      [|reflexivity].
    apply strip_prefix_before_slash in E as (after' & E' & _); [congruence|].
    vm_compute. intuition discriminate.
Qed.

Lemma extract_user_id_across_slash pre s :
  _extract_user_id (pre ++ "/"%char :: s)
  = match _extract_user_id pre with
    | Some g => Some g
    | None => _extract_user_id s
    end.
Proof.
  induction pre as [|c pre IH].
  - cbn [app _extract_user_id].
    change (match_user_id_here ("/"%char :: s)) with (@None str). reflexivity.
  - cbn [app _extract_user_id].
    change (c :: pre ++ "/"%char :: s) with ((c :: pre) ++ "/"%char :: s).
    rewrite match_user_id_here_before_slash.
    destruct (match_user_id_here (c :: pre)); [reflexivity|exact IH].
Qed.

Lemma take_while_all f s :
  forallb f s = true -> take_while f s = s.
Proof.
  induction s as [|c s IH]; [reflexivity|]. simpl.
  destruct (f c); [intros H; by rewrite IH|discriminate].
Qed.

Lemma extract_user_id_at_segment uid s :
  uid <> [] -> forallb is_id_char uid = true ->
  _extract_user_id (py "userid_" ++ uid ++ "/"%char :: s) = Some uid.
Proof.
  intros Hne Hid.
  assert (Hm : match_user_id_here (py "userid_" ++ uid ++ "/"%char :: s)
               = Some uid).
  { change (py "userid_" ++ uid ++ "/"%char :: s)
      with ((py "userid_" ++ uid) ++ "/"%char :: s) at 1.
    rewrite <- (List.app_assoc (py "userid_") uid).
    rewrite List.app_assoc, match_user_id_here_before_slash.
    unfold match_user_id_here.
    rewrite (proj2 (strip_prefix_some (py "userid_") (py "userid_" ++ uid) uid)
               eq_refl).
    rewrite (take_while_all _ _ Hid). destruct uid; [contradiction|reflexivity]. }
  destruct (py "userid_" ++ uid ++ "/"%char :: s) eqn:E; [discriminate|].
  cbn [_extract_user_id]. by rewrite Hm.
Qed.

(** The directory [path_child] builds is the base, a slash, and the
    name, unless the base is [.]. *)
Lemma path_child_shape base name :
  base <> py "." ->
  exists pre, path_child base name = pre ++ "/"%char :: name /\
              (base = pre \/ base = pre ++ py "/").
Proof.
  intros Hdot. unfold path_child.
  apply str_eqb_neq in Hdot. rewrite Hdot.
  destruct (endswith (py "/") base) eqn:E.
  - unfold endswith in E. cbn [py list_ascii_of_string rev app] in E.
    destruct (rev base) as [|c r] eqn:Er; [discriminate|].
    cbn [startswith] in E. destruct (Ascii.eqb_spec "/" c) as [<-|]; [|discriminate].
    exists (rev r).
    assert (Hb : base = rev r ++ py "/").
    { rewrite <- (List.rev_involutive base), Er. reflexivity. }
    split; [|by right]. rewrite Hb at 1. by rewrite <- List.app_assoc.
  - exists base. split; [reflexivity|by left].
Qed.

End IdentityFacts.

Section IdentityExtras.
Import Firewall ConfigPaths.

Lemma endswith_slash_id_tail x uid :
  uid <> [] -> forallb is_id_char uid = true ->
  endswith (py "/") (x ++ uid) = false.
Proof.
  intros Hne Hid. destruct (List.exists_last Hne) as (u' & l & ->).
  rewrite forallb_app in Hid. apply andb_true_iff in Hid as [_ Hl].
  cbn [forallb] in Hl. rewrite andb_true_r in Hl.
  unfold endswith. rewrite List.app_assoc, List.rev_app_distr.
  cbn [py list_ascii_of_string rev app startswith].
  unfold is_id_char in Hl. apply negb_true_iff, orb_false_iff in Hl as [Hl _].
  rewrite Ascii.eqb_sym in Hl. by rewrite Hl.
Qed.

Lemma path_child_plain base name :
  base <> py "." -> endswith (py "/") base = false ->
  path_child base name = base ++ "/"%char :: name.
Proof.
  intros Hdot Hend. unfold path_child. apply str_eqb_neq in Hdot.
  by rewrite Hdot, Hend.
Qed.

Lemma path_child_extends base name :
  base <> py "." -> exists rest, path_child base name = base ++ rest.
Proof.
  intros Hdot. unfold path_child. apply str_eqb_neq in Hdot. rewrite Hdot.
  destruct (endswith (py "/") base); eauto.
Qed.

(** The agent work directory is the tenant's workspace followed by a
    slash and more. *)
Lemma agent_work_dir_under_workspace cfg uid aid :
  uid <> [] -> forallb is_id_char uid = true ->
  exists rest,
    get_agent_work_dir cfg uid aid
    = get_user_work_base_dir cfg uid ++ "/"%char :: rest.
Proof.
  intros Hne Hid. unfold get_agent_work_dir.
  set (ws := get_user_work_base_dir cfg uid).
  assert (Hws : exists x, ws = x ++ uid /\ x <> []).
  { unfold ws, get_user_work_base_dir, path_child.
    destruct (str_eqb (WORK_BASE_DIR cfg) (py "."));
      [|destruct (endswith (py "/") (WORK_BASE_DIR cfg))].
    - exists (py "userid_"). split; [reflexivity|discriminate].
    - exists (WORK_BASE_DIR cfg ++ py "userid_").
      split; [by rewrite <- List.app_assoc|]. intros H.
      apply List.app_eq_nil in H as [_ H]. discriminate.
    - exists (WORK_BASE_DIR cfg ++ py "/" ++ py "userid_").
      split; [by rewrite <- !List.app_assoc|]. intros H.
      apply List.app_eq_nil in H as [_ H]. discriminate. }
  destruct Hws as (x & Hx & Hxne).
  assert (Hdot : ws <> py ".").
  { rewrite Hx. intros H. apply (f_equal (@length ascii)) in H.
    rewrite List.length_app in H. destruct x; [contradiction|].
    destruct uid; [contradiction|]. simpl in H. lia. }
  assert (Hend : endswith (py "/") ws = false)
    by (rewrite Hx; by apply endswith_slash_id_tail).
  rewrite (path_child_plain ws _ Hdot Hend).
  destruct (path_child_extends (ws ++ "/"%char :: py "agentid_" ++ aid) (py "work"))
    as [rest ->].
  - intros H. apply (f_equal (@length ascii)) in H.
    rewrite List.length_app in H. simpl in H. lia.
  - rewrite <- List.app_assoc. cbn [app]. eauto.
Qed.

Lemma extract_agent_work_dir cfg uid aid :
  _extract_user_id (WORK_BASE_DIR cfg) = None ->
  uid <> [] -> forallb is_id_char uid = true ->
  _extract_user_id (get_agent_work_dir cfg uid aid) = Some uid.
Proof.
  intros Hbase Hne Hid.
  destruct (agent_work_dir_under_workspace cfg uid aid Hne Hid) as [rest ->].
  unfold get_user_work_base_dir.
  destruct (str_eqb (WORK_BASE_DIR cfg) (py ".")) eqn:Hdot.
  - unfold path_child. rewrite Hdot. rewrite <- List.app_assoc.
    by apply extract_user_id_at_segment.
  - apply str_eqb_neq in Hdot.
    destruct (path_child_shape (WORK_BASE_DIR cfg) (py "userid_" ++ uid) Hdot)
      as (pre & -> & Hpre).
    assert (Hpre_none : _extract_user_id pre = None).
    { destruct Hpre as [<-|Hb]; [exact Hbase|].
      rewrite Hb in Hbase. change (pre ++ py "/") with (pre ++ "/"%char :: [])
        in Hbase.
      rewrite extract_user_id_across_slash in Hbase.
      by destruct (_extract_user_id pre). }
    rewrite <- List.app_assoc. cbn [app].
    rewrite extract_user_id_across_slash, Hpre_none.
    rewrite <- List.app_assoc. by apply extract_user_id_at_segment.
Qed.

(** X6.  The working directory the configuration gives an agent leads
    back to its owner: when the work base directory itself contains no
    [userid_<id>] segment and the user id is non-empty and free of
    slashes and backslashes, [_extract_user_id] applied to
    [get_agent_work_dir(user_id, agent_id)] returns [user_id], and
    [_resolve_user_workspace] then gives that user's workspace
    [get_user_work_base_dir(user_id)]. *)
Theorem agent_work_dir_identifies_tenant cfg uid aid :
  _extract_user_id (WORK_BASE_DIR cfg) = None ->
  uid <> [] -> forallb is_id_char uid = true ->
  _extract_user_id (get_agent_work_dir cfg uid aid) = Some uid /\
  _resolve_user_workspace cfg (get_agent_work_dir cfg uid aid)
    (_extract_user_id (get_agent_work_dir cfg uid aid))
  = get_user_work_base_dir cfg uid.
Proof.
  intros Hbase Hne Hid.
  pose proof (extract_agent_work_dir cfg uid aid Hbase Hne Hid) as Hex.
  split; [exact Hex|]. rewrite Hex. unfold _resolve_user_workspace.
  destruct uid; [contradiction|reflexivity].
Qed.

Lemma agent_work_dir_identifies_tenant_witness :
  _extract_user_id
    (get_agent_work_dir default_config
       (py "3f2504e0-4f89-11d3-9a0c-0305e82c3301") (py "a-17"))
  = Some (py "3f2504e0-4f89-11d3-9a0c-0305e82c3301").
Proof.
  refine (proj1 (agent_work_dir_identifies_tenant default_config
            (py "3f2504e0-4f89-11d3-9a0c-0305e82c3301") (py "a-17") _ _ _)).
  - reflexivity.
  - discriminate.
  - reflexivity.
Defined.







(** With the letters of other scripts known to the Unicode tables, they
    are kept, and the limit of sixteen counts characters, not bytes;
    text that is not ASCII is lowered as the tables say. *)
Example linux_user_keeps_unicode_letters :
  let letters := {| str_lower := lower; char_isalnum := fun _ => true |} in
  _to_linux_user default_config letters (py "用户A") = py "queen用户a" /\
  _to_linux_user default_config letters (py "ééééééééééééééééé-x")
  = py "queenéééééééééééééééé" /\
  _to_linux_user default_config
    {| str_lower := fun _ => py "straße"; char_isalnum := fun _ => true |}
    (py "STRAẞE") = py "queenstraße".
Proof. repeat split; vm_compute; reflexivity. Qed.

End IdentityExtras.

(** ** More on the wrapper and the wrapped-command check *)

Section WrapExtras.
Import Shlex Firewall.

Lemma legacy_scan_found linux_user work_dir command parts idxs idx :
  In idx idxs ->
  str_eqb (nth idx parts []) (py "sudo")
  && str_eqb (nth (S idx) parts []) (py "systemd-run")
  && has_systemd_run linux_user parts idx = true ->
  legacy_scan linux_user work_dir command parts idxs
  = _has_required_workdir work_dir command.
Proof.
  intros Hin Hcond. induction idxs as [|i idxs IH]; [contradiction|].
  cbn [legacy_scan].
  destruct (str_eqb (nth i parts []) (py "sudo")
            && str_eqb (nth (S i) parts []) (py "systemd-run")
            && has_systemd_run linux_user parts i) eqn:E; [reflexivity|].
  destruct Hin as [->|Hin]; [congruence|by apply IH].
Qed.

(** X8.  What the wrapped-command check says about the wrapper's own
    output, for the same identity and directory: it finds the
    [sudo systemd-run] launch with its scope and slice markers, and its
    answer is that of the working-directory test alone.  With an empty
    working directory the output is accepted; otherwise it is accepted
    exactly when the text [cd <quoted directory>] occurs somewhere in
    the wrapped string. *)
Theorem checker_on_wrapper_output env command linux_user work_dir :
  let wrapped := _wrap_bash_command env command linux_user work_dir in
  _is_allowed_wrapped_command wrapped linux_user work_dir
  = (if str_truthy work_dir
     then contains (py "cd " ++ quote work_dir) wrapped
     else true).
Proof.
  cbn zeta.
  set (wrapped := _wrap_bash_command env command linux_user work_dir).
  assert (Hscan : _is_allowed_wrapped_command wrapped linux_user work_dir
                  = _has_required_workdir work_dir wrapped).
  { unfold _is_allowed_wrapped_command, wrapped.
    rewrite wrap_tokens. fold wrapped.
    change (str_eqb (py "sudo") (py "time")) with false. cbv iota.
    match goal with
    | |- (if has_systemd_run _ ?parts 0 then _ else _) = _ =>
        set (tokens := parts)
    end.
    assert (H0 : has_systemd_run linux_user tokens 0 = false) by reflexivity.
    rewrite H0.
    apply (legacy_scan_found linux_user work_dir wrapped tokens _ 6).
    - unfold tokens. cbn [length Nat.sub seq]. do 6 right. by left.
    - unfold tokens, has_systemd_run.
      cbn [nth skipn existsb].
      change (str_eqb (py "sudo") (py "sudo")) with true.
      change (str_eqb (py "systemd-run") (py "systemd-run")) with true.
      change (str_eqb (py "--scope") (py "--scope")) with true.
      cbn [negb orb andb]. rewrite str_eqb_refl. by rewrite orb_true_r. }
  rewrite Hscan. unfold _has_required_workdir.
  destruct (str_truthy work_dir); cbn [negb]; [|reflexivity].
  assert (Hb : contains (py "bash -lc") wrapped = true).
  { unfold wrapped, _wrap_bash_command. rewrite !List.app_assoc.
    rewrite <- (List.app_assoc _ (py "bash -lc ") (quote command)).
    generalize (quote command). intros q.
    match goal with |- contains _ (?pre ++ _) = true => generalize pre end.
    intros pre. induction pre as [|c pre IH].
    - reflexivity.
    - cbn [app contains]. rewrite IH. by rewrite orb_true_r. }
  by rewrite Hb.
Qed.

(** X9.  The wrapped string determines what was wrapped: two wrappings
    that produce the same string were given the same command, the same
    Linux user and the same working directory. *)
Theorem wrap_bash_command_injective env1 env2 c1 c2 u1 u2 d1 d2 :
  _wrap_bash_command env1 c1 u1 d1 = _wrap_bash_command env2 c2 u2 d2 ->
  c1 = c2 /\ u1 = u2 /\ d1 = d2.
Proof.
  intros Heq. apply (f_equal split) in Heq. rewrite !wrap_tokens in Heq.
  injection Heq. intros. repeat split; assumption.
Qed.

Lemma wrap_bash_command_injective_witness :
  py "ls" = py "ls" /\ py "queenu1" = py "queenu1" /\ py "/w" = py "/w".
Proof.
  apply (wrap_bash_command_injective
           {| time_ms := 5; uuid4_hex := py "abcdef01" |}
           {| time_ms := 5; uuid4_hex := py "abcdef01" |}).
  reflexivity.
Defined.

End WrapExtras.

(** ** More on the tool permission handler *)

Section HandlerExtras.
Import Shlex PosixPath Firewall.

(** X10.  The handler never refuses a call to a tool other than Read,
    Grep and Glob, and a call to a tool that is neither one of these nor
    Bash (Write and Edit among them) is allowed with its input as given,
    whatever path it names. *)
Theorem handler_confines_read_tools_only
    cfg u host sdk work_dir env tool_name input_data :
  str_truthy tool_name = true ->
  tool_name <> py "Read" -> tool_name <> py "Grep" -> tool_name <> py "Glob" ->
  (forall message,
      build_tool_permission_handler cfg u host sdk work_dir env tool_name input_data
      <> Return (DenyDict message)) /\
  (tool_name <> py "Bash" ->
      build_tool_permission_handler cfg u host sdk work_dir env tool_name input_data
      = Return (_allow_permission_result sdk (dict_or_empty input_data))).
Proof.
  intros Ht Hr Hg Hb. unfold build_tool_permission_handler.
  destruct (FIREWALL_ENABLED cfg); cbn [negb];
    [|split; [intros m; by destruct sdk|reflexivity]].
  rewrite Ht. cbn [pyval_eqb].
  apply str_eqb_neq in Hr, Hg, Hb. rewrite Hr, Hg, Hb.
  cbn [orb]. rewrite andb_false_r. cbn [andb].
  split.
  - intros m.
    destruct (negb (str_eqb (os_name host) (py "nt")) && _ && _ && _);
      [|by destruct sdk].
    destruct (dict_get (dict_or_empty input_data) "command");
      try discriminate.
    destruct (match _extract_user_id work_dir with
              | Some uid => _ | None => None end); [|discriminate].
    by destruct sdk.
  - intros Hbash. apply str_eqb_neq in Hbash. rewrite Hbash.
    by rewrite andb_false_r.
Qed.

Lemma handler_confines_read_tools_only_witness :
  build_tool_permission_handler default_config ascii_unicode
    {| os_name := py "posix"; getcwd := py "/srv/app" |} NoAllowClass
    (py "/home/queen/userid_u1/agentid_a1/work")
    {| time_ms := 0; uuid4_hex := py "00112233" |}
    (py "Write")
    (Some (<[py "file_path" := PStr (py "/etc/cron.d/job")]> ∅))
  = Return (AllowDict (<[py "file_path" := PStr (py "/etc/cron.d/job")]> ∅)).
Proof.
  refine (proj2 (handler_confines_read_tools_only default_config ascii_unicode
            {| os_name := py "posix"; getcwd := py "/srv/app" |} NoAllowClass
            (py "/home/queen/userid_u1/agentid_a1/work")
            {| time_ms := 0; uuid4_hex := py "00112233" |}
            (py "Write")
            (Some (<[py "file_path" := PStr (py "/etc/cron.d/job")]> ∅))
            _ _ _ _) _); first [reflexivity | discriminate].
Defined.

(** X11.  Calls that carry nothing to check pass through unchanged: a
    Read, Grep or Glob call in which [file_path], [path] and [pattern]
    are all missing or empty, and a Bash call whose [command] is missing
    or empty, are allowed with their input as given. *)
Theorem handler_passes_empty_requests
    cfg u host sdk work_dir env tool_name input_data :
  let d := dict_or_empty input_data in
  (tool_name = py "Read" \/ tool_name = py "Grep" \/ tool_name = py "Glob") /\
  truthy (dict_get d "file_path") = false /\
  truthy (dict_get d "path") = false /\
  truthy (dict_get d "pattern") = false
  \/ tool_name = py "Bash" /\ truthy (dict_get d "command") = false ->
  build_tool_permission_handler cfg u host sdk work_dir env tool_name input_data
  = Return (_allow_permission_result sdk d).
Proof.
  cbn zeta. intros H. unfold build_tool_permission_handler.
  destruct (FIREWALL_ENABLED cfg); cbn [negb]; [|reflexivity].
  destruct H as [(Htool & H1 & H2 & H3)|[-> Hc]].
  - assert (Hfp : truthy (py_or (dict_get (dict_or_empty input_data) "file_path")
             (py_or (dict_get (dict_or_empty input_data) "path")
                    (dict_get (dict_or_empty input_data) "pattern"))) = false).
    { unfold py_or. rewrite H1, H2. exact H3. }
    rewrite Hfp. rewrite andb_false_r. cbn [andb].
    destruct Htool as [-> | [-> | ->]];
      match goal with
      | |- context [str_truthy (py ?t)] =>
          change (str_truthy (py t)) with true; cbv iota;
          replace (pyval_eqb (PStr (py t)) (PStr (py "Bash")))
            with false by (symmetry; vm_compute; reflexivity)
      end;
      by rewrite andb_false_r.
  - rewrite Hc. rewrite !andb_false_r.
    change (str_truthy (py "Bash")) with true. cbv iota.
    replace (pyval_eqb (PStr (py "Bash")) (PStr (py "Read"))) with false
      by (symmetry; vm_compute; reflexivity).
    replace (pyval_eqb (PStr (py "Bash")) (PStr (py "Grep"))) with false
      by (symmetry; vm_compute; reflexivity).
    replace (pyval_eqb (PStr (py "Bash")) (PStr (py "Glob"))) with false
      by (symmetry; vm_compute; reflexivity).
    cbn [orb andb]. rewrite ?andb_false_r. reflexivity.
Qed.

Lemma handler_passes_empty_requests_witness :
  build_tool_permission_handler default_config ascii_unicode
    {| os_name := py "posix"; getcwd := py "/srv/app" |} NoAllowClass
    (py "/home/queen/userid_u1/agentid_a1/work")
    {| time_ms := 0; uuid4_hex := py "00112233" |}
    (py "Bash") (Some (<[py "command" := PStr []]> ∅))
  = Return (AllowDict (<[py "command" := PStr []]> ∅)).
Proof.
  exact (handler_passes_empty_requests default_config ascii_unicode
           {| os_name := py "posix"; getcwd := py "/srv/app" |} NoAllowClass
           (py "/home/queen/userid_u1/agentid_a1/work")
           {| time_ms := 0; uuid4_hex := py "00112233" |}
           (py "Bash") (Some (<[py "command" := PStr []]> ∅))
           (or_intror (conj eq_refl eq_refl))).
Defined.

End HandlerExtras.

(** ** Paths under and outside a workspace *)

Section PathExtraFacts.
Import PosixPath Firewall ConfigPaths.

Lemma split_sep_app_sep a b :
  split_sep sep (a ++ sep :: b) = split_sep sep a ++ split_sep sep b.
Proof.
  induction a as [|c a IH].
  - cbn [app split_sep]. by rewrite Ascii.eqb_refl.
  - cbn [app split_sep]. rewrite IH.
    destruct (Ascii.eqb c sep); [reflexivity|].
    pose proof (split_sep_nonempty a) as Hne.
    destruct (split_sep sep a); [contradiction|reflexivity].
Qed.

Lemma norm_step_push n stack comp :
  comp <> py ".." ->
  norm_step n stack comp
  = if str_truthy comp && negb (str_eqb comp (py ".")) then comp :: stack
    else stack.
Proof.
  intros Hdd. unfold norm_step. apply str_eqb_neq in Hdd. rewrite Hdd.
  destruct comp as [|c comp]; [reflexivity|].
  replace (str_eqb (c :: comp) []) with false
    by (symmetry; by apply str_eqb_neq).
  cbn [orb negb str_truthy andb].
  by destruct (str_eqb (c :: comp) (py ".")).
Qed.

(** Components other than [..] are only ever pushed. *)
Lemma fold_norm_push n comps stack :
  Forall (fun c => c <> py "..") comps ->
  fold_left (norm_step n) comps stack
  = rev (List.filter (fun c => str_truthy c && negb (str_eqb c (py "."))) comps)
    ++ stack.
Proof.
  revert stack. induction comps as [|c comps IH]; intros stack Hall;
    [reflexivity|].
  inversion Hall as [|? ? Hc Hcs]; subst. cbn [fold_left List.filter].
  rewrite (IH _ Hcs), (norm_step_push n stack c Hc).
  destruct (str_truthy c && negb (str_eqb c (py "."))); [|reflexivity].
  cbn [rev]. by rewrite <- List.app_assoc.
Qed.




(** The components of the normal form of an absolute path. *)
Lemma components_abspath_abs host p :
  startswith [sep] p = true ->
  components (abspath host p) = norm_comps p /\
  abspath host p = repeat sep (initial_slashes p) ++ join [sep] (norm_comps p).
Proof.
  intros Habs. unfold abspath. rewrite Habs.
  destruct p as [|c p]; [discriminate|].
  assert (Hn : (initial_slashes (c :: p) = 1 \/ initial_slashes (c :: p) = 2)%nat).
  { unfold initial_slashes. rewrite Habs.
    destruct (startswith [sep; sep] (c :: p)
              && negb (startswith [sep; sep; sep] (c :: p))); auto. }
  assert (Hclean : Forall clean (norm_comps (c :: p))).
  { unfold norm_comps. apply List.Forall_rev.
    apply fold_norm_clean; [apply split_sep_no_sep|constructor]. }
  assert (Hnorm : normpath (c :: p)
    = repeat sep (initial_slashes (c :: p)) ++ join [sep] (norm_comps (c :: p))).
  { unfold normpath. fold (norm_comps (c :: p)).
    destruct Hn as [-> | ->]; reflexivity. }
  split; [|exact Hnorm]. rewrite Hnorm. by apply components_normal.
Qed.

Lemma is_prefix_app a b : is_prefix a (a ++ b) = true.
Proof.
  induction a as [|c a IH]; [reflexivity|]. simpl.
  by rewrite str_eqb_refl, IH.
Qed.

Lemma is_prefix_diverge a x y b :
  x <> y -> is_prefix (a ++ [x]) (a ++ y :: b) = false.
Proof.
  intros Hne. induction a as [|c a IH]; simpl.
  - apply str_eqb_neq in Hne. by rewrite Hne.
  - by rewrite str_eqb_refl, IH.
Qed.

Lemma initial_slashes_extend p rest :
  (3 <= length p)%nat -> initial_slashes (p ++ rest) = initial_slashes p.
Proof.
  intros Hlen. destruct p as [|a [|b [|c p]]]; simpl in Hlen; try lia.
  reflexivity.
Qed.

(** The stack of [root/more] is that of [root] with the components of
    [more] on top, when [more] has no [..]. *)
Lemma norm_comps_under root more :
  startswith [sep] root = true -> (3 <= length root)%nat ->
  Forall (fun c => c <> py "..") (split_sep sep more) ->
  norm_comps (root ++ sep :: more) = norm_comps root ++ components more.
Proof.
  intros Habs Hlen Hmore. unfold norm_comps, components.
  rewrite (initial_slashes_extend root _ Hlen).
  rewrite split_sep_app_sep, List.fold_left_app.
  rewrite (fold_norm_push _ _ _ Hmore).
  by rewrite List.rev_app_distr, List.rev_involutive.
Qed.

(** A path written as the allowed directory, a
    slash, and a remainder without [..] is allowed. *)
Lemma path_under_root_allowed host root more :
  startswith [sep] (getcwd host) = true ->
  startswith [sep] root = true -> (3 <= length root)%nat ->
  initial_slashes root = 1%nat ->
  Forall (fun c => c <> py "..") (split_sep sep more) ->
  _is_path_allowed host (root ++ sep :: more) root = true.
Proof.
  intros Hcwd Habs Hlen Hone Hmore.
  rewrite (is_path_allowed_spec host _ root Hcwd)
    by (destruct root; [discriminate|reflexivity]).
  assert (Habs' : startswith [sep] (root ++ sep :: more) = true)
    by (destruct root; [discriminate|exact Habs]).
  destruct (components_abspath_abs host root Habs) as [-> Hr].
  destruct (components_abspath_abs host _ Habs') as [-> _].
  rewrite (norm_comps_under root more Habs Hlen Hmore), is_prefix_app.
  rewrite Hr, Hone. cbn [repeat app startswith andb].
  rewrite Ascii.eqb_refl.
  assert (Hclean : Forall clean (norm_comps root)).
  { unfold norm_comps. apply List.Forall_rev.
    apply fold_norm_clean; [apply split_sep_no_sep|constructor]. }
  destruct (join [sep] (norm_comps root)) as [|c rest] eqn:E; [reflexivity|].
  destruct (Ascii.eqb sep c) eqn:Ec; [|reflexivity].
  exfalso. apply (join_clean_head _ Hclean). rewrite E. cbn [startswith].
  by rewrite Ec.
Qed.

End PathExtraFacts.

Section WorkspaceFacts.
Import PosixPath Firewall ConfigPaths.

Lemma endswith_slash_false x t :
  t <> [] -> ~ In "/"%char t -> endswith (py "/") (x ++ t) = false.
Proof.
  intros Hne Hno. destruct (List.exists_last Hne) as (t' & l & ->).
  unfold endswith. rewrite List.app_assoc, List.rev_app_distr.
  cbn [py list_ascii_of_string rev app startswith].
  destruct (Ascii.eqb_spec "/" l) as [<-|]; [|reflexivity].
  exfalso. apply Hno. apply List.in_or_app. right. by left.
Qed.





(** For a Read, Grep or Glob call with a non-empty requested string
    path, the handler's answer is that of [_is_path_allowed]. *)
Lemma handler_read_tool cfg u host sdk work_dir env tool_name d uid p :
  FIREWALL_ENABLED cfg = true ->
  _extract_user_id work_dir = Some uid ->
  str_truthy (_to_linux_user cfg u uid) = true ->
  tool_name = py "Read" \/ tool_name = py "Grep" \/ tool_name = py "Glob" ->
  py_or (dict_get d "file_path")
        (py_or (dict_get d "path") (dict_get d "pattern")) = PStr p ->
  str_truthy p = true ->
  build_tool_permission_handler cfg u host sdk work_dir env tool_name (Some d)
  = if _is_path_allowed host p (_resolve_user_workspace cfg work_dir (Some uid))
    then Return (_allow_permission_result sdk d)
    else Return (DenyDict (deny_message
                   (_resolve_user_workspace cfg work_dir (Some uid)))).
Proof.
  intros Hfw Huid Huser Htool Hpath Hp.
  unfold build_tool_permission_handler.
  rewrite Hfw, Huid, (extract_user_id_truthy _ _ Huid).
  cbn [negb dict_or_empty default from_option id].
  rewrite Huser, Hpath. cbn [truthy py_str]. rewrite Hp.
  destruct Htool as [-> | [-> | ->]];
    match goal with
    | |- context [str_truthy (py ?t)] =>
        change (str_truthy (py t)) with true; cbv iota;
        replace (pyval_eqb (PStr (py t)) (PStr (py "Read")))
          with (String.eqb t "Read") by (symmetry; vm_compute; reflexivity);
        replace (pyval_eqb (PStr (py t)) (PStr (py "Grep")))
          with (String.eqb t "Grep") by (symmetry; vm_compute; reflexivity);
        replace (pyval_eqb (PStr (py t)) (PStr (py "Glob")))
          with (String.eqb t "Glob") by (symmetry; vm_compute; reflexivity);
        replace (pyval_eqb (PStr (py t)) (PStr (py "Bash")))
          with false by (symmetry; vm_compute; reflexivity)
    end;
    cbn [String.eqb Ascii.eqb Bool.eqb orb andb negb];
    rewrite ?andb_false_r;
    by destruct (_is_path_allowed host p _).
Qed.

End WorkspaceFacts.


Section WorkspaceExtras.
Import PosixPath Firewall ConfigPaths.

Lemma agent_work_dir_explicit cfg uid aid :
  uid <> [] -> forallb is_id_char uid = true -> ~ In "/"%char aid ->
  get_agent_work_dir cfg uid aid
  = get_user_work_base_dir cfg uid
    ++ sep :: (py "agentid_" ++ aid) ++ sep :: py "work".
Proof.
  intros Hne Hid Haid. unfold get_agent_work_dir.
  set (ws := get_user_work_base_dir cfg uid).
  assert (Hws : exists x, ws = x ++ uid /\ x <> []).
  { unfold ws, get_user_work_base_dir, path_child.
    destruct (str_eqb (WORK_BASE_DIR cfg) (py "."));
      [|destruct (endswith (py "/") (WORK_BASE_DIR cfg))].
    - exists (py "userid_"). split; [reflexivity|discriminate].
    - exists (WORK_BASE_DIR cfg ++ py "userid_").
      split; [by rewrite <- List.app_assoc|]. intros H.
      apply List.app_eq_nil in H as [_ H]. discriminate.
    - exists (WORK_BASE_DIR cfg ++ py "/" ++ py "userid_").
      split; [by rewrite <- !List.app_assoc|]. intros H.
      apply List.app_eq_nil in H as [_ H]. discriminate. }
  destruct Hws as (x & Hx & Hxne).
  assert (Hlen : forall a b : str, a <> [] -> b <> [] -> a ++ b <> py ".").
  { intros a b Ha Hb H. apply (f_equal (@length ascii)) in H.
    rewrite List.length_app in H. destruct a; [contradiction|].
    destruct b; [contradiction|]. simpl in H. lia. }
  rewrite (path_child_plain ws);
    [|rewrite Hx; by apply Hlen
     |rewrite Hx; by apply endswith_slash_id_tail].
  change (ws ++ "/"%char :: py "agentid_" ++ aid)
    with (ws ++ py "/" ++ (py "agentid_" ++ aid)).
  rewrite List.app_assoc.
  rewrite path_child_plain.
  - rewrite <- !List.app_assoc. reflexivity.
  - apply Hlen; [|discriminate]. rewrite Hx. intros H.
    apply List.app_eq_nil in H as [H _].
    apply List.app_eq_nil in H as [H _]. contradiction.
  - apply endswith_slash_false; [discriminate|].
    intros Hin. apply List.in_app_or in Hin as [Hin|Hin]; [|contradiction].
    vm_compute in Hin. intuition discriminate.
Qed.

Lemma workspace_of_abs_base cfg uid :
  startswith [sep] (WORK_BASE_DIR cfg) = true ->
  initial_slashes (WORK_BASE_DIR cfg) = 1%nat ->
  startswith [sep] (get_user_work_base_dir cfg uid) = true /\
  (3 <= length (get_user_work_base_dir cfg uid))%nat /\
  initial_slashes (get_user_work_base_dir cfg uid) = 1%nat.
Proof.
  intros Habs Hone. unfold get_user_work_base_dir, path_child.
  assert (Hdot : str_eqb (WORK_BASE_DIR cfg) (py ".") = false).
  { apply str_eqb_neq. intros H. rewrite H in Habs. discriminate. }
  rewrite Hdot.
  destruct (WORK_BASE_DIR cfg) as [|a [|b [|c base]]] eqn:Eb;
    [discriminate| | |].
  - cbn [startswith] in Habs.
    destruct (Ascii.eqb_spec sep a) as [<-|]; [|discriminate].
    cbn. repeat split; lia.
  - cbn [startswith] in Habs.
    destruct (Ascii.eqb_spec sep a) as [<-|]; [|discriminate].
    destruct (Ascii.eqb_spec sep b) as [<-|Hb]; [discriminate Hone|].
    assert (Hend : endswith (py "/") [sep; b] = false).
    { apply (endswith_slash_false [sep] [b]); [discriminate|].
      intros [H|[]]. by apply Hb. }
    rewrite Hend. split; [reflexivity|]. split; [cbn; lia|].
    unfold initial_slashes. cbn [app startswith].
    rewrite Ascii.eqb_refl. destruct (Ascii.eqb_spec sep b); [contradiction|].
    reflexivity.
  - destruct (endswith (py "/") (a :: b :: c :: base));
      (split; [exact Habs|]); (split; [rewrite List.length_app; simpl; lia|]);
      by rewrite initial_slashes_extend by (simpl; lia).
Qed.

(** X12.  An agent may read inside its own working directory.  With the
    firewall on, an absolute work base directory that starts with a
    single slash and contains no [userid_<id>] segment, and ids free of
    slashes: for the handler built for the agent's working directory, a
    Read, Grep or Glob call whose requested path is that directory
    itself, or that directory followed by a slash and a remainder
    without [..] components, is allowed with its input as given. *)
Theorem agent_reads_inside_work_dir
    cfg u host sdk env uid aid tool_name d suffix :
  FIREWALL_ENABLED cfg = true ->
  LINUX_USER_PREFIX cfg <> [] ->
  startswith (py "/") (getcwd host) = true ->
  startswith (py "/") (WORK_BASE_DIR cfg) = true ->
  initial_slashes (WORK_BASE_DIR cfg) = 1%nat ->
  _extract_user_id (WORK_BASE_DIR cfg) = None ->
  uid <> [] -> forallb is_id_char uid = true -> ~ In "/"%char aid ->
  tool_name = py "Read" \/ tool_name = py "Grep" \/ tool_name = py "Glob" ->
  suffix = [] \/
    (exists rest, suffix = py "/" ++ rest /\
       Forall (fun c => c <> py "..") (split_sep sep rest)) ->
  py_or (dict_get d "file_path")
        (py_or (dict_get d "path") (dict_get d "pattern"))
  = PStr (get_agent_work_dir cfg uid aid ++ suffix) ->
  build_tool_permission_handler cfg u host sdk (get_agent_work_dir cfg uid aid)
    env tool_name (Some d)
  = Return (_allow_permission_result sdk d).
Proof.
  intros Hfw Hprefix Hcwd Habs Hone Hbase Hne Hid Haid Htool Hsuffix Hpath.
  pose proof (extract_agent_work_dir cfg uid aid Hbase Hne Hid) as Hex.
  assert (Huser : str_truthy (_to_linux_user cfg u uid) = true).
  { unfold _to_linux_user. destruct (LINUX_USER_PREFIX cfg); [contradiction|reflexivity]. }
  assert (Hp : str_truthy (get_agent_work_dir cfg uid aid ++ suffix) = true).
  { rewrite (agent_work_dir_explicit cfg uid aid Hne Hid Haid).
    destruct (get_user_work_base_dir cfg uid); reflexivity. }
  rewrite (handler_read_tool cfg u host sdk _ env tool_name d uid _
             Hfw Hex Huser Htool Hpath Hp).
  assert (Hws : _resolve_user_workspace cfg (get_agent_work_dir cfg uid aid)
                  (Some uid) = get_user_work_base_dir cfg uid).
  { unfold _resolve_user_workspace. destruct uid; [contradiction|reflexivity]. }
  rewrite Hws.
  destruct (workspace_of_abs_base cfg uid Habs Hone) as (Hwabs & Hwlen & Hwone).
  rewrite (agent_work_dir_explicit cfg uid aid Hne Hid Haid).
  rewrite <- List.app_assoc. cbn [app].
  rewrite path_under_root_allowed; try assumption; [reflexivity|].
  assert (Hagent : split_sep sep (py "agentid_" ++ aid) = [py "agentid_" ++ aid]).
  { apply split_sep_word. intros Hin.
    apply List.in_app_or in Hin as [Hin|Hin]; [|contradiction].
    vm_compute in Hin. intuition discriminate. }
  rewrite <- List.app_assoc. cbn [app].
  rewrite split_sep_app_sep, Hagent.
  constructor; [discriminate|].
  destruct Hsuffix as [-> | (rest & -> & Hrest)].
  - rewrite List.app_nil_r. repeat constructor; discriminate.
  - change (py "work" ++ py "/" ++ rest) with (py "work" ++ sep :: rest).
    rewrite split_sep_app_sep. constructor; [discriminate|exact Hrest].
Qed.

Lemma agent_reads_inside_work_dir_witness :
  build_tool_permission_handler default_config ascii_unicode
    {| os_name := py "posix"; getcwd := py "/srv/app" |} NoAllowClass
    (get_agent_work_dir default_config (py "u1") (py "a1"))
    {| time_ms := 0; uuid4_hex := py "00112233" |}
    (py "Read")
    (Some (<[py "file_path" :=
               PStr (get_agent_work_dir default_config (py "u1") (py "a1")
                     ++ py "/notes/todo.txt")]> ∅))
  = Return (AllowDict
      (<[py "file_path" :=
           PStr (get_agent_work_dir default_config (py "u1") (py "a1")
                 ++ py "/notes/todo.txt")]> ∅)).
Proof.
  apply (agent_reads_inside_work_dir default_config ascii_unicode
           {| os_name := py "posix"; getcwd := py "/srv/app" |} NoAllowClass
           {| time_ms := 0; uuid4_hex := py "00112233" |}
           (py "u1") (py "a1") (py "Read") _ (py "/notes/todo.txt"));
    try reflexivity; try discriminate.
  - vm_compute. intuition discriminate.
  - by left.
  - right. exists (py "notes/todo.txt"). split; [reflexivity|].
    vm_compute. repeat constructor; discriminate.
Defined.



End WorkspaceExtras.

(** ** Registry lifecycle: closing, creating and reconnecting clients *)

Section LifecycleFacts.
Import AgentManager AgentLifecycle.

Lemma close_agent_client_present agent_id st c :
  _clients st !! agent_id = Some c ->
  (close_agent_client agent_id st).1.1 = true.
Proof. intros Hc. unfold close_agent_client. by rewrite Hc. Qed.

Lemma close_agent_client_absent agent_id st :
  _clients st !! agent_id = None ->
  close_agent_client agent_id st = (false, st, []).
Proof. intros Hc. unfold close_agent_client. by rewrite Hc. Qed.

Lemma close_agent_client_no_client agent_id st :
  _clients (close_agent_client agent_id st).1.2 !! agent_id = None.
Proof.
  unfold close_agent_client.
  destruct (_clients st !! agent_id) eqn:Hc; cbn [fst snd _clients];
    [by rewrite lookup_delete_eq|exact Hc].
Qed.

Lemma entries_clients st1 st2 agent_id :
  entries st1 agent_id = entries st2 agent_id ->
  _clients st1 !! agent_id = _clients st2 !! agent_id.
Proof. unfold entries. by intros [= -> _ _ _]. Qed.

Lemma close_all_step_eq st n log a :
  close_all_step (st, n, log) a
  = ((close_agent_client a st).1.2,
     (if (close_agent_client a st).1.1 then n + 1 else n),
     log ++ (close_agent_client a st).2).
Proof.
  unfold close_all_step. by destruct (close_agent_client a st) as [[ok st1] evs].
Qed.

Lemma close_all_fold ids :
  forall st n log,
    NoDup ids ->
    (forall agent_id, agent_id ∈ ids -> is_Some (_clients st !! agent_id)) ->
    (fold_left close_all_step ids (st, n, log)).1.2
      = n + Z.of_nat (length ids) /\
    (forall agent_id, agent_id ∈ ids ->
       entries (fold_left close_all_step ids (st, n, log)).1.1 agent_id
       = (None, None, None, None)) /\
    (forall agent_id, agent_id ∉ ids ->
       entries (fold_left close_all_step ids (st, n, log)).1.1 agent_id
       = entries st agent_id).
Proof.
  induction ids as [|a ids IH]; intros st n log Hnd Hall.
  - cbn [fold_left fst snd length]. split; [lia|]. split; [|done].
    intros agent_id Hin. by apply elem_of_nil in Hin.
  - apply NoDup_cons in Hnd as [Ha Hnd].
    destruct (Hall a) as [c Hc]; [by left|].
    cbn [fold_left]. rewrite close_all_step_eq.
    rewrite (close_agent_client_present a st c Hc).
    pose proof (close_agent_client_removed a st c Hc) as Hgone.
    pose proof (fun agent_id => close_agent_client_other a agent_id st) as Hoth.
    set (st1 := (close_agent_client a st).1.2) in *.
    destruct (IH st1 (n + 1) (log ++ (close_agent_client a st).2) Hnd)
      as (Hn & Hin & Hout).
    { intros agent_id Hid.
      rewrite (entries_clients st1 st agent_id).
      - apply Hall. by right.
      - apply Hoth. intros ->. contradiction. }
    split; [rewrite Hn; cbn [length]; lia|]. split.
    + intros agent_id Hid. apply elem_of_cons in Hid as [->|Hid].
      * rewrite (Hout a Ha). exact Hgone.
      * by apply Hin.
    + intros agent_id Hid. apply not_elem_of_cons in Hid as [Hne Hid].
      rewrite (Hout agent_id Hid). apply Hoth. congruence.
Qed.

Lemma keys_clients st agent_id :
  agent_id ∈ (fst <$> map_to_list (_clients st))
  <-> is_Some (_clients st !! agent_id).
Proof.
  rewrite list_elem_of_fmap. split.
  - intros ([k c] & -> & Hin). apply elem_of_map_to_list in Hin. eauto.
  - intros [c Hc]. exists (agent_id, c). split; [reflexivity|].
    by apply elem_of_map_to_list.
Qed.

(** [create_agent_client] first closes whatever client the agent has;
    then it either fails, leaving the registry as the close left it, or
    stores a freshly built client with its options. *)
Lemma create_agent_client_cases cfg w now agent_id agent_name work_dir
    session_id st :
  let st0 := (close_agent_client agent_id st).1.2 in
  let r := create_agent_client cfg w now agent_id agent_name work_dir
             session_id st in
  r.2 = (close_agent_client agent_id st).2 /\
  ((r.1.1 = false /\ r.1.2 = st0) \/
   (exists client options,
      r.1.1 = true /\ build_client w options = Some client /\
      resume options = session_id /\
      r.1.2 = {| _clients := <[agent_id := client]> (_clients st0);
                 _client_options :=
                   <[agent_id := options]> (_client_options st0);
                 _client_connected :=
                   <[agent_id := false]> (_client_connected st0);
                 _agent_last_active :=
                   <[agent_id := now]> (_agent_last_active st0) |})).
Proof.
  cbv zeta. unfold create_agent_client.
  assert (Hpre :
    match _clients st !! agent_id with
    | Some _ =>
        let '(_, st', evs) := close_agent_client agent_id st in (st', evs)
    | None => (st, [])
    end = ((close_agent_client agent_id st).1.2,
           (close_agent_client agent_id st).2)).
  { destruct (_clients st !! agent_id) eqn:Hc.
    - by destruct (close_agent_client agent_id st) as [[ok st1] evs].
    - by rewrite (close_agent_client_absent agent_id st Hc). }
  rewrite Hpre. clear Hpre.
  destruct (agent_settings_work_dir w agent_id) as [custom|];
    [|split; [reflexivity|by left]].
  destruct (generate_system_prompt w agent_name _ agent_id) as [prompt|];
    [|split; [reflexivity|by left]].
  match goal with
  | |- context [build_client w ?o] =>
      destruct (build_client w o) as [client|] eqn:Hb;
        [|split; [reflexivity|by left]];
        split; [reflexivity|right; exists client, o; auto]
  end.
Qed.

Lemma create_agent_client_other cfg w now agent_id agent_name work_dir
    session_id st other :
  other <> agent_id ->
  entries (create_agent_client cfg w now agent_id agent_name work_dir
             session_id st).1.2 other = entries st other.
Proof.
  intros Hne.
  destruct (create_agent_client_cases cfg w now agent_id agent_name work_dir
              session_id st)
    as [_ [[_ ->]|(client & options & _ & _ & _ & ->)]].
  - by apply close_agent_client_other.
  - unfold entries. cbn [_clients _client_options _client_connected
      _agent_last_active].
    rewrite !lookup_insert_ne by congruence.
    by apply close_agent_client_other.
Qed.

Lemma create_agent_client_failed cfg w now agent_id agent_name work_dir
    session_id st :
  (create_agent_client cfg w now agent_id agent_name work_dir
     session_id st).1.1 = false ->
  _clients (create_agent_client cfg w now agent_id agent_name work_dir
              session_id st).1.2 !! agent_id = None.
Proof.
  intros Hno.
  destruct (create_agent_client_cases cfg w now agent_id agent_name work_dir
              session_id st)
    as [_ [[_ ->]|(client & options & Hok & _)]]; [|congruence].
  apply close_agent_client_no_client.
Qed.

Lemma create_agent_client_resume cfg w now agent_id agent_name work_dir
    session_id st :
  (create_agent_client cfg w now agent_id agent_name work_dir
     session_id st).1.1 = true ->
  get_agent_session_id agent_id
    (create_agent_client cfg w now agent_id agent_name work_dir
       session_id st).1.2 = session_id.
Proof.
  intros Hyes.
  destruct (create_agent_client_cases cfg w now agent_id agent_name work_dir
              session_id st)
    as [_ [[Hno _]|(client & options & _ & _ & Hr & ->)]]; [congruence|].
  unfold get_agent_session_id. cbn [_client_options].
  by rewrite lookup_insert_eq.
Qed.

End LifecycleFacts.

Section LifecycleExtras.
Import AgentManager AgentLifecycle BackgroundTasks.

(** X14.  [close_all_clients] closes every registered client: afterwards
    [_clients] is empty, the number returned is the number of clients
    that were registered, all four entries of each of them are gone, and
    an id that had no client keeps whatever entries it had.  This holds
    whichever disconnect, close, terminate or wait calls raise. *)
Theorem close_all_clients_closes_every_client st :
  _clients (close_all_clients st).1.2 = ∅ /\
  (close_all_clients st).1.1 = Z.of_nat (size (_clients st)) /\
  (forall agent_id c, _clients st !! agent_id = Some c ->
     entries (close_all_clients st).1.2 agent_id = (None, None, None, None)) /\
  (forall agent_id, _clients st !! agent_id = None ->
     entries (close_all_clients st).1.2 agent_id = entries st agent_id).
Proof.
  unfold close_all_clients.
  destruct (close_all_fold (fst <$> map_to_list (_clients st)) st 0 [])
    as (Hn & Hin & Hout).
  { apply NoDup_fst_map_to_list. }
  { intros agent_id. apply keys_clients. }
  destruct (fold_left close_all_step _ _) as [[st' n] log].
  cbn [fst snd] in *.
  assert (Hgone : forall agent_id c, _clients st !! agent_id = Some c ->
                    entries st' agent_id = (None, None, None, None)).
  { intros agent_id c Hc. apply Hin. apply keys_clients. eauto. }
  assert (Hkept : forall agent_id, _clients st !! agent_id = None ->
                    entries st' agent_id = entries st agent_id).
  { intros agent_id Hc. apply Hout. rewrite keys_clients, Hc.
    by intros [? ?]. }
  split; [|split; [|split; assumption]].
  - apply map_eq. intros agent_id. rewrite lookup_empty.
    destruct (_clients st !! agent_id) as [c|] eqn:Hc.
    + pose proof (Hgone agent_id c Hc) as H. unfold entries in H.
      by injection H.
    + pose proof (Hkept agent_id Hc) as H. apply entries_clients in H.
      by rewrite H.
  - rewrite Hn, length_fmap, length_map_to_list. lia.
Qed.

(** X15.  A closed agent stays closed.  After [close_agent_client] for
    an agent, whatever it returned: a second close returns [False],
    calls nothing and changes nothing; [ensure_client_connected] returns
    [False] without a connect call; and the entries of every other
    agent are as they were before the first close. *)
Theorem close_agent_client_is_final now agent_id st :
  let st' := (close_agent_client agent_id st).1.2 in
  close_agent_client agent_id st' = (false, st', []) /\
  ensure_client_connected now agent_id st' = (false, st', []) /\
  (forall other, other <> agent_id -> entries st' other = entries st other).
Proof.
  cbv zeta.
  pose proof (close_agent_client_no_client agent_id st) as Hnone.
  split; [by apply close_agent_client_absent|]. split.
  - unfold ensure_client_connected. by rewrite Hnone.
  - intros other Hne. by apply close_agent_client_other.
Qed.

(** X16.  The registry connects a client once.  When
    [ensure_client_connected] has returned [True] for an agent, the next
    call for that agent makes no connect call, returns [True] and
    changes nothing but the agent's last-activity time, which becomes
    the time of that call. *)
Theorem ensure_client_connected_connects_once now1 now2 agent_id st :
  (ensure_client_connected now1 agent_id st).1.1 = true ->
  let st1 := (ensure_client_connected now1 agent_id st).1.2 in
  ensure_client_connected now2 agent_id st1
  = (true,
     {| _clients := _clients st1;
        _client_options := _client_options st1;
        _client_connected := _client_connected st1;
        _agent_last_active := <[agent_id := now2]> (_agent_last_active st1) |},
     []).
Proof.
  cbv zeta. intros Hok.
  assert (H : exists client,
    _clients (ensure_client_connected now1 agent_id st).1.2 !! agent_id
      = Some client /\
    _client_connected (ensure_client_connected now1 agent_id st).1.2
      !! agent_id = Some true).
  { revert Hok. unfold ensure_client_connected.
    destruct (_clients st !! agent_id) as [client|] eqn:Hc; [|intros [=]].
    destruct (_client_connected st !! agent_id) as [[|]|] eqn:Hconn;
      simpl.
    - intros _. exists client. cbn [_clients _client_connected]. auto.
    - destruct (connect_raises client); [intros [=]|intros _].
      exists client. cbn [_clients _client_connected fst snd].
      by rewrite lookup_insert_eq.
    - destruct (connect_raises client); [intros [=]|intros _].
      exists client. cbn [_clients _client_connected fst snd].
      by rewrite lookup_insert_eq. }
  destruct H as (client & Hc & Hconn).
  clear Hok. revert Hc Hconn.
  generalize (ensure_client_connected now1 agent_id st).1.2.
  intros st1 Hc Hconn. unfold ensure_client_connected.
  by rewrite Hc, Hconn.
Qed.

Lemma ensure_client_connected_connects_once_witness :
  (ensure_client_connected 900 (py "a2")
     (ensure_client_connected 700 (py "a2") sample_registry).1.2).2 = [].
Proof.
  rewrite (ensure_client_connected_connects_once 700 900 (py "a2")
             sample_registry); reflexivity.
Defined.

(** X17.  Replacing a client is not atomic.  [create_agent_client]
    first closes the client the agent has, if any, making exactly the
    calls of [close_agent_client].  If anything it does after that
    raises, it returns [False] and the agent is left with no client: the
    old session's four entries are gone.  If it returns [True], the
    agent's entries are the new client, options whose resume token is
    the [session_id] passed in, a connected flag of [False] and the
    current time as last activity.  Either way no other agent's entries
    change. *)
Theorem create_agent_client_replaces cfg w now agent_id agent_name work_dir
    session_id st :
  let r := create_agent_client cfg w now agent_id agent_name work_dir
             session_id st in
  r.2 = (close_agent_client agent_id st).2 /\
  (forall other, other <> agent_id ->
     entries r.1.2 other = entries st other) /\
  (r.1.1 = false ->
     _clients r.1.2 !! agent_id = None /\
     (forall old, _clients st !! agent_id = Some old ->
        entries r.1.2 agent_id = (None, None, None, None))) /\
  (r.1.1 = true ->
     exists client options,
       build_client w options = Some client /\
       resume options = session_id /\
       entries r.1.2 agent_id
       = (Some client, Some options, Some false, Some now)).
Proof.
  cbv zeta.
  destruct (create_agent_client_cases cfg w now agent_id agent_name work_dir
              session_id st) as [Hlog Hcases].
  split; [exact Hlog|].
  destruct Hcases as [[Hok Hst]|(client & options & Hok & Hb & Hr & Hst)];
    rewrite Hok, Hst; (split; [|split]); try discriminate.
  - intros other Hne. by apply close_agent_client_other.
  - intros _. split; [apply close_agent_client_no_client|].
    intros old Hold. by apply (close_agent_client_removed agent_id st old).
  - intros other Hne. unfold entries. cbn [_clients _client_options
      _client_connected _agent_last_active].
    rewrite !lookup_insert_ne by congruence.
    by apply close_agent_client_other.
  - intros _. exists client, options. split; [exact Hb|]. split; [exact Hr|].
    unfold entries. cbn [_clients _client_options _client_connected
      _agent_last_active]. by rewrite !lookup_insert_eq.
Qed.

(** X18.  A client that has just been created is connected on first
    use, also when it replaced a connected one: after a successful
    [create_agent_client], [ensure_client_connected] calls connect on
    the new client once and returns whether that call succeeded. *)
Theorem created_client_connects_on_first_use cfg w now now' agent_id
    agent_name work_dir session_id st :
  (create_agent_client cfg w now agent_id agent_name work_dir session_id
     st).1.1 = true ->
  let st' := (create_agent_client cfg w now agent_id agent_name work_dir
                session_id st).1.2 in
  exists client,
    _clients st' !! agent_id = Some client /\
    (ensure_client_connected now' agent_id st').1.1
      = negb (connect_raises client) /\
    (ensure_client_connected now' agent_id st').2 = [EvConnect agent_id].
Proof.
  cbv zeta. intros Hok.
  destruct (create_agent_client_cases cfg w now agent_id agent_name work_dir
              session_id st)
    as [_ [[Hno _]|(client & options & _ & _ & _ & Hst)]];
    [congruence|].
  rewrite Hst. exists client. cbn [_clients].
  split; [by rewrite lookup_insert_eq|].
  unfold ensure_client_connected. cbn [_clients _client_connected].
  rewrite !lookup_insert_eq. simpl.
  by destruct (connect_raises client).
Qed.

Lemma created_client_connects_on_first_use_witness :
  let w := {| agent_settings_work_dir := fun _ => Some None;
              generate_system_prompt := fun _ _ _ => Some (py "prompt");
              bash_isolation_prompt := fun _ => [];
              build_client := fun _ => Some quiet_client |} in
  exists client,
    _clients (create_agent_client default_config w 100 (py "a1") (py "n")
                (py "/srv/w") None sample_registry).1.2 !! py "a1"
      = Some client /\
    (ensure_client_connected 200 (py "a1")
       (create_agent_client default_config w 100 (py "a1") (py "n")
          (py "/srv/w") None sample_registry).1.2).1.1
      = negb (connect_raises client) /\
    (ensure_client_connected 200 (py "a1")
       (create_agent_client default_config w 100 (py "a1") (py "n")
          (py "/srv/w") None sample_registry).1.2).2 = [EvConnect (py "a1")].
Proof.
  cbv zeta.
  apply (created_client_connects_on_first_use default_config
           {| agent_settings_work_dir := fun _ => Some None;
              generate_system_prompt := fun _ _ _ => Some (py "prompt");
              bash_isolation_prompt := fun _ => [];
              build_client := fun _ => Some quiet_client |}
           100 200 (py "a1") (py "n") (py "/srv/w") None sample_registry).
  reflexivity.
Defined.

End LifecycleExtras.

(** ** More on the idle sweep *)

Section SweepMoreFacts.
Import AgentManager BackgroundTasks.
Variables (now : datetime) (threshold : Z).

Lemma size_delete_present {A} (m : gmap str A) i c :
  m !! i = Some c -> S (size (delete i m)) = size m.
Proof.
  intros Hi. rewrite map_size_delete, Hi.
  assert (size m <> 0%nat) as Hne.
  { apply map_size_non_empty_iff. intros ->. by rewrite lookup_empty in Hi. }
  cbn. lia.
Qed.

(** The sweep only removes. *)
Lemma fold_sweep_only_removes agent_ids agent_id s :
  entries (fold_left (sweep_agent now threshold) agent_ids s).1.1 agent_id
    = entries s.1.1 agent_id \/
  entries (fold_left (sweep_agent now threshold) agent_ids s).1.1 agent_id
    = (None, None, None, None).
Proof.
  revert s. induction agent_ids as [|a ids IH]; intros [[st n] log];
    [by left|].
  cbn [fold_left fst snd].
  destruct (IH (sweep_agent now threshold (st, n, log) a)) as [Heq|Hgone];
    [|by right].
  rewrite Heq. clear Heq IH.
  destruct (decide (a = agent_id)) as [->|Hne];
    [|left; by apply sweep_agent_other].
  destruct (sweep_agent_cases now threshold st n log agent_id) as [->|(la & _ & _ & ->)];
    [by left|].
  cbn [fst snd]. destruct (_clients st !! agent_id) as [c|] eqn:Hc.
  - right. by apply (close_agent_client_removed agent_id st c).
  - left. unfold close_agent_client. by rewrite Hc.
Qed.

(** A session with no recorded last activity goes through the sweep
    untouched. *)
Lemma fold_sweep_untracked agent_ids agent_id s :
  _agent_last_active s.1.1 !! agent_id = None ->
  entries (fold_left (sweep_agent now threshold) agent_ids s).1.1 agent_id
  = entries s.1.1 agent_id.
Proof.
  revert s. induction agent_ids as [|a ids IH]; intros [[st n] log] Hla;
    [reflexivity|].
  cbn [fold_left fst snd] in *. destruct (decide (a = agent_id)) as [->|Hne].
  - rewrite (sweep_agent_absent now threshold agent_id st n log Hla).
    by apply IH.
  - pose proof (sweep_agent_other now threshold a agent_id st n log Hne)
      as Hstep.
    destruct (sweep_agent now threshold (st, n, log) a)
      as [[st1 n1] log1] eqn:E.
    cbn [fst snd] in Hstep. rewrite <- Hstep. apply IH.
    cbn [fst snd]. unfold entries in Hstep.
    injection Hstep as _ _ _ ->. exact Hla.
Qed.

(** The count kept by the sweep is the number of clients it removed. *)
Lemma fold_sweep_count agent_ids :
  forall st n log,
    NoDup agent_ids ->
    (forall a, a ∈ agent_ids -> is_Some (_clients st !! a)) ->
    Z.of_nat (size (_clients
                (fold_left (sweep_agent now threshold) agent_ids
                   (st, n, log)).1.1))
    + (fold_left (sweep_agent now threshold) agent_ids (st, n, log)).1.2
    = Z.of_nat (size (_clients st)) + n.
Proof.
  induction agent_ids as [|a ids IH]; intros st n log Hnd Hall;
    [reflexivity|].
  apply NoDup_cons in Hnd as [Ha Hnd]. cbn [fold_left].
  destruct (Hall a) as [c Hc]; [by left|].
  destruct (sweep_agent_cases now threshold st n log a) as [->|(la & _ & _ & ->)].
  - apply IH; [exact Hnd|]. intros b Hb. apply Hall. by right.
  - rewrite IH; [|exact Hnd|].
    + unfold close_agent_client. rewrite Hc. cbn [fst snd _clients].
      pose proof (size_delete_present (_clients st) a c Hc). lia.
    + intros b Hb.
      assert (a <> b) as Hne by (intros ->; contradiction).
      pose proof (close_agent_client_other a b st Hne) as Hoth.
      unfold entries in Hoth. injection Hoth as -> _ _ _.
      apply Hall. by right.
Qed.

(** A sweep over sessions none of which has expired does nothing. *)
Lemma fold_sweep_noop agent_ids s :
  (forall a la, a ∈ agent_ids ->
     _agent_last_active s.1.1 !! a = Some la -> now - la <= threshold) ->
  fold_left (sweep_agent now threshold) agent_ids s = s.
Proof.
  destruct s as [[st n] log]. cbn [fst snd].
  induction agent_ids as [|a ids IH]; intros Hall; [reflexivity|].
  cbn [fold_left].
  destruct (sweep_agent_cases now threshold st n log a) as [->|(la & Hla & Hgt & _)].
  - apply IH. intros b lb Hb. apply Hall. by right.
  - exfalso. assert (now - la <= threshold); [|lia].
    apply (Hall a la); [by left|exact Hla].
Qed.

End SweepMoreFacts.

Section SweepExtras.
Import AgentManager AgentLifecycle BackgroundTasks.

(** X19.  The idle sweep only removes, and counts what it removes.
    After a tick each agent's four entries are either exactly as before
    or all gone, and the tick's [closed_count] is the number of clients
    that left the registry. *)
Theorem idle_sweep_counts_removed_clients cfg now st :
  let r := idle_agent_cleanup_tick cfg now st in
  (forall agent_id,
     entries r.1.1 agent_id = entries st agent_id \/
     entries r.1.1 agent_id = (None, None, None, None)) /\
  Z.of_nat (size (_clients r.1.1)) + r.1.2 = Z.of_nat (size (_clients st)).
Proof.
  cbv zeta. unfold idle_agent_cleanup_tick, sweep. split.
  - intros agent_id. apply (fold_sweep_only_removes now _ _ agent_id (st, 0, [])).
  - rewrite fold_sweep_count; [lia|apply NoDup_fst_map_to_list|].
    intros a. apply keys_clients.
Qed.

(** X20.  A session without a recorded last-activity time is never
    swept: whatever the clock says, a tick leaves its entries as they
    were. *)
Theorem idle_sweep_skips_untracked cfg now st agent_id :
  _agent_last_active st !! agent_id = None ->
  entries (idle_agent_cleanup_tick cfg now st).1.1 agent_id
  = entries st agent_id.
Proof.
  intros Hla. unfold idle_agent_cleanup_tick, sweep.
  by apply (fold_sweep_untracked now _ _ agent_id (st, 0, [])).
Qed.

Lemma idle_sweep_skips_untracked_witness :
  let st := {| _clients := <[py "a9" := quiet_client]> (_clients sample_registry);
               _client_options := ∅;
               _client_connected := ∅;
               _agent_last_active := _agent_last_active sample_registry |} in
  _clients (idle_agent_cleanup_tick default_config 2000000000 st).1.1
    !! py "a9" = Some quiet_client.
Proof.
  cbv zeta.
  pose proof (idle_sweep_skips_untracked default_config 2000000000
    {| _clients := <[py "a9" := quiet_client]> (_clients sample_registry);
       _client_options := ∅;
       _client_connected := ∅;
       _agent_last_active := _agent_last_active sample_registry |}
    (py "a9") eq_refl) as H.
  apply entries_clients in H. rewrite H. reflexivity.
Defined.

(** X21.  A tick leaves nothing for an immediate second tick: run again
    on the registry a tick at time [now] produced, with a clock that
    has not advanced, the sweep closes no session, makes no call and
    changes nothing. *)
Theorem idle_sweep_idempotent cfg now now' st :
  now' <= now ->
  idle_agent_cleanup_tick cfg now' (idle_agent_cleanup_tick cfg now st).1.1
  = ((idle_agent_cleanup_tick cfg now st).1.1, 0, []).
Proof.
  intros Hle.
  set (st' := (idle_agent_cleanup_tick cfg now st).1.1).
  unfold idle_agent_cleanup_tick at 1. unfold sweep.
  apply fold_sweep_noop. cbn [fst snd]. intros a la Ha Hla.
  apply keys_clients in Ha as [c Hc].
  assert (Hsame : entries st' a = entries st a).
  { destruct (fold_sweep_only_removes now
                (timedelta_seconds (IDLE_TIMEOUT_SECONDS cfg))
                (fst <$> map_to_list (_clients st)) a (st, 0, []))
      as [H|H]; [exact H|].
    exfalso. unfold entries in H. injection H as H _ _ _.
    fold (sweep now (timedelta_seconds (IDLE_TIMEOUT_SECONDS cfg))
            (fst <$> map_to_list (_clients st)) st) in H.
    fold (idle_agent_cleanup_tick cfg now st) in H. fold st' in H.
    congruence. }
  unfold entries in Hsame. injection Hsame as Hc' _ _ Hla'.
  rewrite Hc in Hc'. rewrite Hla in Hla'. symmetry in Hc', Hla'.
  destruct (Z.le_gt_cases (now - la)
              (timedelta_seconds (IDLE_TIMEOUT_SECONDS cfg))) as [Hin|Hout];
    [lia|].
  exfalso.
  assert (Hgone : entries st' a = (None, None, None, None)).
  { apply (fold_sweep_expired now _ _ a (st, 0, []) c la);
      [apply keys_clients; by rewrite Hc'|exact Hc'|exact Hla'|lia]. }
  unfold entries in Hgone. injection Hgone as Hgone _ _ _. congruence.
Qed.

Lemma idle_sweep_idempotent_witness :
  idle_agent_cleanup_tick default_config 2000000000
    (idle_agent_cleanup_tick default_config 2000000000 sample_registry).1.1
  = ((idle_agent_cleanup_tick default_config 2000000000 sample_registry).1.1,
     0, []).
Proof.
  apply (idle_sweep_idempotent default_config 2000000000 2000000000
           sample_registry). lia.
Defined.

End SweepExtras.

(** ** More on the chat exchange *)

Section ChatMoreFacts.
Import ChatApi.

Lemma retry_run_counts u recurse w session_id agent_id message :
  count_recoveries (process_with u recurse w session_id agent_id message true)
    = 0%nat /\
  (count_queries (process_with u recurse w session_id agent_id message true)
     <= 1)%nat.
Proof.
  pose proof (try_block_shape w true session_id agent_id message) as H.
  cbn zeta in H. destruct H as (Hq & Hr & _).
  unfold process_with.
  destruct (try_block w true session_id agent_id message);
    cbn [body_log negb andb] in *; [auto|].
  rewrite count_recoveries_app, count_queries_app, Hr.
  split; [reflexivity|]. change (count_queries [_]) with 0%nat. lia.
Qed.

End ChatMoreFacts.

Section ChatExtras.
Import ChatApi.

(** X22.  Whatever the collaborators do, one call of
    [_process_ai_response] queries the client at most twice and takes at
    most two recovery actions (closings of the agent's client and
    clearings of the resume token, counted together); a call made with
    [_retry=True] queries at most once and takes no recovery action. *)
Theorem process_ai_response_bounded u w session_id agent_id message _retry :
  let run := _process_ai_response u w session_id agent_id message _retry in
  (count_queries run <= 2)%nat /\
  (count_recoveries run <= 2)%nat /\
  (_retry = true ->
     (count_queries run <= 1)%nat /\ count_recoveries run = 0%nat).
Proof.
  cbn zeta. destruct _retry.
  { destruct (retry_run_counts u
                (fun message =>
                   process_with u (fun _ => []) w session_id agent_id message
                     true)
                w session_id agent_id message) as [Hr Hq].
    unfold _process_ai_response. rewrite Hr. repeat split; lia. }
  split; [|split; [|discriminate]];
    pose proof (try_block_shape w false session_id agent_id message) as H;
    cbn zeta in H; destruct H as (Hq & Hr & _);
    unfold _process_ai_response, process_with at 1;
    destruct (try_block w false session_id agent_id message)
      as [log|log err message1 uid]; cbn [body_log negb andb] in *;
    try lia;
    (destruct (is_fatal_cli_error u err);
     [destruct (clear_resume w);
      [destruct uid as [uid|];
       [destruct (recover_client w);
        [destruct (retry_run_counts u (fun _ => []) w session_id agent_id
                     message1) as [Hr2 Hq2]|]
       |]
      |]
     |]);
    rewrite ?count_queries_app, ?count_recoveries_app, ?Hr, ?Hr2;
    repeat match goal with
    | |- context [count_queries [?e]] =>
        change (count_queries [e]) with 0%nat
    | |- context [count_recoveries [EvCloseAgent ?a]] =>
        change (count_recoveries [EvCloseAgent a]) with 1%nat
    | |- context [count_recoveries [EvUpdateSessionClaudeId ?s None]] =>
        change (count_recoveries [EvUpdateSessionClaudeId s None]) with 1%nat
    | |- context [count_recoveries [EvEnsureClient ?a ?x ?r]] =>
        change (count_recoveries [EvEnsureClient a x r]) with 0%nat
    | |- context [count_recoveries [error_message ?s ?a]] =>
        change (count_recoveries [error_message s a]) with 0%nat
    end;
    lia.
Qed.

(** X23.  An error that matches none of the fatal patterns is reported
    at once and not retried: when the [try] block raises such an error,
    the run is what the block did, followed by the saving of the error
    message for the user, with the text and metadata given here.  The
    agent's client is not closed, the resume token is not cleared, and
    the client has been queried at most once.  The same holds for any
    error raised in a call made with [_retry=True]. *)
Theorem nonfatal_error_reported_without_retry u w session_id agent_id message
    _retry log err message1 uid :
  try_block w _retry session_id agent_id message
    = Raised log err message1 uid ->
  _retry = true \/ is_fatal_cli_error u err = false ->
  let run := _process_ai_response u w session_id agent_id message _retry in
  run = log ++ [EvSaveMessage session_id agent_id
                  (py "抱歉，处理您的消息时出现了错误,请重新登陆系统方可解决")
                  (Some (py "{" ++ dquote ++ py "error" ++ dquote
                         ++ py ": true}"))] /\
  count_recoveries run = 0%nat /\
  (count_queries run <= 1)%nat.
Proof.
  intros Hbody Hcase. cbn zeta.
  pose proof (try_block_shape w _retry session_id agent_id message) as H.
  cbn zeta in H. rewrite Hbody in H. cbn [body_log] in H.
  destruct H as (Hq & Hr & _).
  assert (Hrun : _process_ai_response u w session_id agent_id message _retry
                 = log ++ [error_message session_id agent_id]).
  { unfold _process_ai_response, process_with at 1. rewrite Hbody.
    destruct Hcase as [-> | ->]; [reflexivity|].
    by rewrite andb_false_r. }
  rewrite Hrun. split; [reflexivity|].
  rewrite count_recoveries_app, count_queries_app, Hr.
  split; [reflexivity|]. change (count_queries [_]) with 0%nat. lia.
Qed.

Lemma nonfatal_error_reported_without_retry_witness :
  _process_ai_response ascii_unicode dying_cli_world (py "s1") (py "a1")
    (py "hi") true
  = [EvEnsureClient (py "a1") (py "u1") (Some (py "c-1"));
     EvQuery (py "a1") (py "hi");
     EvSaveMessage (py "s1") (py "a1") (py "thinking") None]
    ++ [EvSaveMessage (py "s1") (py "a1")
          (py "抱歉，处理您的消息时出现了错误,请重新登陆系统方可解决")
          (Some (py "{" ++ dquote ++ py "error" ++ dquote ++ py ": true}"))].
Proof.
  apply (nonfatal_error_reported_without_retry ascii_unicode dying_cli_world
           (py "s1") (py "a1") (py "hi") true
           [EvEnsureClient (py "a1") (py "u1") (Some (py "c-1"));
            EvQuery (py "a1") (py "hi");
            EvSaveMessage (py "s1") (py "a1") (py "thinking") None]
           (py "boom") (py "hi") (Some (py "u1")));
    [reflexivity|by left].
Defined.

End ChatExtras.

(** ** Getting a client for a chat request *)

Section EnsureClientFacts.
Import AgentManager AgentLifecycle ChatClient.

Lemma opt_str_neqb_false a b : opt_str_neqb a b = false -> a = b.
Proof.
  destruct a as [s|], b as [t|]; cbn; try discriminate; [|reflexivity].
  intros H. apply negb_false_iff, str_eqb_eq in H. by subst.
Qed.

(** What the [if client:] block leaves behind. *)
Lemma check_existing_client_spec w agent_id session_claude_id c st :
  _clients st !! agent_id = Some c ->
  let p := check_existing_client w agent_id session_claude_id c st in
  p.1.1 = _clients p.1.2 !! agent_id /\
  (forall other, other <> agent_id ->
     entries p.1.2 other = entries st other) /\
  (opt_truthy session_claude_id = true -> is_Some p.1.1 ->
     get_agent_session_id agent_id p.1.2 = session_claude_id).
Proof.
  intros Hc. cbv zeta. unfold check_existing_client.
  set (need0 := match desired_work_dir w with
                | Some desired => _
                | None => false
                end).
  clearbody need0.
  assert (Hclose : forall st0 : AgentManager,
    (forall other, other <> agent_id ->
       entries st0 other = entries st other) ->
    let q := (let '(_, st', evs) := close_agent_client agent_id st0 in
              (@None Client, st', evs)) in
    q.1.1 = _clients q.1.2 !! agent_id /\
    (forall other, other <> agent_id ->
       entries q.1.2 other = entries st other) /\
    (opt_truthy session_claude_id = true -> is_Some q.1.1 ->
       get_agent_session_id agent_id q.1.2 = session_claude_id)).
  { intros st0 Hframe. cbv zeta.
    pose proof (close_agent_client_no_client agent_id st0) as Hnone.
    pose proof (fun other => close_agent_client_other agent_id other st0)
      as Hoth.
    destruct (close_agent_client agent_id st0) as [[ok st1] evs].
    cbn [fst snd] in *. split; [by rewrite Hnone|]. split.
    - intros other Hne. rewrite Hoth by congruence. by apply Hframe.
    - intros _ [? [=]]. }
  destruct (opt_truthy session_claude_id
            && opt_str_neqb session_claude_id
                 match _client_options st !! agent_id with
                 | Some o => resume o
                 | None => None
                 end) eqn:Hcond.
  - destruct (opt_truthy match _client_options st !! agent_id with
                         | Some o => resume o
                         | None => None
                         end) eqn:Hcur.
    { by apply Hclose. }
    destruct (_client_options st !! agent_id) as [o|] eqn:Ho;
      [|by apply Hclose].
    destruct need0.
    + apply Hclose. intros other Hne. unfold entries.
      cbn [_clients _client_options _client_connected _agent_last_active].
      by rewrite lookup_insert_ne by congruence.
    + cbn [fst snd _clients]. split; [by rewrite Hc|]. split.
      * intros other Hne. unfold entries.
        cbn [_clients _client_options _client_connected _agent_last_active].
        by rewrite lookup_insert_ne by congruence.
      * intros _ _. unfold get_agent_session_id. cbn [_client_options].
        by rewrite lookup_insert_eq.
  - destruct need0; [by apply Hclose|].
    cbn [fst snd]. split; [by rewrite Hc|]. split; [done|].
    intros Htruthy _. rewrite Htruthy in Hcond. cbn [andb] in Hcond.
    apply opt_str_neqb_false in Hcond. unfold get_agent_session_id.
    by destruct (_client_options st !! agent_id).
Qed.

End EnsureClientFacts.

Section EnsureClientExtras.
Import AgentManager AgentLifecycle ChatClient.

(** X24.  The handle [_ensure_agent_client] returns is the one the
    registry holds: whatever the collaborators do, its result is the
    agent's entry in [_clients] afterwards, [None] included, so a
    request never proceeds on a client the registry has dropped and a
    failed rebuild leaves no stale client behind.  The entries of every
    other agent are left as they were. *)
Theorem ensure_agent_client_returns_registered cfg w now agent_id user_id
    session_claude_id st :
  let r := _ensure_agent_client cfg w now agent_id user_id
             session_claude_id st in
  r.1.1 = _clients r.1.2 !! agent_id /\
  (forall other, other <> agent_id ->
     entries r.1.2 other = entries st other).
Proof.
  cbv zeta. unfold _ensure_agent_client, get_agent_client.
  assert (Hp : exists p : option Client * AgentManager * list Event,
    match _clients st !! agent_id with
    | Some c => check_existing_client w agent_id session_claude_id c st
    | None => (None, st, [])
    end = p /\
    p.1.1 = _clients p.1.2 !! agent_id /\
    (forall other, other <> agent_id ->
       entries p.1.2 other = entries st other)).
  { destruct (_clients st !! agent_id) as [c|] eqn:Hc.
    - destruct (check_existing_client_spec w agent_id session_claude_id c st Hc)
        as (H1 & H2 & _). eauto.
    - exists (None, st, []). cbn [fst snd]. by rewrite Hc. }
  destruct Hp as ([[client st1] log] & -> & Hreg & Hframe).
  cbn [fst snd] in Hreg, Hframe.
  destruct client as [c|]; [cbn [fst snd]; auto|].
  match goal with
  | |- context [create_agent_client ?a ?b ?c ?d ?e ?f ?g ?h] =>
      pose proof (create_agent_client_failed a b c d e f g h) as Hfail;
      pose proof (fun other =>
                    create_agent_client_other a b c d e f g h other) as Hoth;
      destruct (create_agent_client a b c d e f g h) as [[success st2] evs]
  end.
  cbn [fst snd] in Hfail, Hoth.
  destruct success; cbn [negb fst snd].
  - split; [reflexivity|]. intros other Hne.
    rewrite Hoth by exact Hne. by apply Hframe.
  - split; [by rewrite Hfail|]. intros other Hne.
    rewrite Hoth by exact Hne. by apply Hframe.
Qed.

(** X25.  Conversation memory follows the request.  When a request
    carries a non-empty session id and [_ensure_agent_client] returns a
    client, the options registered for the agent carry that session id
    as their resume token: it was already there, or it was adopted by a
    client that had none, or the client was rebuilt with it. *)
Theorem ensure_agent_client_carries_session cfg w now agent_id user_id
    session_id st :
  str_truthy session_id = true ->
  is_Some (_ensure_agent_client cfg w now agent_id user_id
             (Some session_id) st).1.1 ->
  get_agent_session_id agent_id
    (_ensure_agent_client cfg w now agent_id user_id
       (Some session_id) st).1.2 = Some session_id.
Proof.
  intros Htruthy. unfold _ensure_agent_client, get_agent_client.
  assert (Hp : exists p : option Client * AgentManager * list Event,
    match _clients st !! agent_id with
    | Some c => check_existing_client w agent_id (Some session_id) c st
    | None => (None, st, [])
    end = p /\
    (is_Some p.1.1 ->
     get_agent_session_id agent_id p.1.2 = Some session_id)).
  { destruct (_clients st !! agent_id) as [c|] eqn:Hc.
    - destruct (check_existing_client_spec w agent_id (Some session_id) c st
                  Hc) as (_ & _ & H3). eauto.
    - exists (None, st, []). split; [reflexivity|]. by intros [? [=]]. }
  destruct Hp as ([[client st1] log] & -> & Hres).
  cbn [fst snd] in Hres.
  destruct client as [c|]; [cbn [fst snd]; intros _; apply Hres; eauto|].
  match goal with
  | |- context [create_agent_client ?a ?b ?c ?d ?e ?f ?g ?h] =>
      pose proof (create_agent_client_resume a b c d e f g h) as Hyes;
      destruct (create_agent_client a b c d e f g h) as [[success st2] evs]
  end.
  cbn [fst snd] in Hyes.
  destruct success; cbn [negb fst snd]; [|by intros [? [=]]].
  intros _. by apply Hyes.
Qed.

Lemma ensure_agent_client_carries_session_witness :
  let w := {| desired_work_dir := Some None;
              resolved_work_dir := fun _ _ => py "/home/queen/userid_u1/agentid_a2/work";
              agent_username := None;
              create_world :=
                {| agent_settings_work_dir := fun _ => Some None;
                   generate_system_prompt := fun _ _ _ => Some (py "prompt");
                   bash_isolation_prompt := fun _ => [];
                   build_client := fun _ => Some quiet_client |} |} in
  get_agent_session_id (py "a2")
    (_ensure_agent_client default_config w 900 (py "a2") (py "u1")
       (Some (py "c-1")) sample_registry).1.2 = Some (py "c-1").
Proof.
  cbv zeta.
  apply (ensure_agent_client_carries_session default_config
           {| desired_work_dir := Some None;
              resolved_work_dir := fun _ _ => py "/home/queen/userid_u1/agentid_a2/work";
              agent_username := None;
              create_world :=
                {| agent_settings_work_dir := fun _ => Some None;
                   generate_system_prompt := fun _ _ _ => Some (py "prompt");
                   bash_isolation_prompt := fun _ => [];
                   build_client := fun _ => Some quiet_client |} |}
           900 (py "a2") (py "u1") (py "c-1") sample_registry);
    [reflexivity|].
  vm_compute. eauto.
Defined.

End EnsureClientExtras.

(** ** What the wrapped-command check accepts *)

Section CheckerFacts.
Import Shlex Firewall.

Lemma existsb_str_eqb_In x l :
  existsb (str_eqb x) l = true -> In x l.
Proof.
  intros H. apply List.existsb_exists in H as (y & Hin & Heq).
  apply str_eqb_eq in Heq. by subst.
Qed.

Lemma has_systemd_run_true linux_user tokens idx :
  has_systemd_run linux_user tokens idx = true ->
  exists after,
    tokens = firstn idx tokens ++ py "sudo" :: py "systemd-run" :: after /\
    In (py "--scope") after /\
    In (py "--slice=user-" ++ linux_user ++ py ".slice") after.
Proof.
  unfold has_systemd_run. intros H.
  pose proof (List.firstn_skipn idx tokens) as Hsplit.
  destruct (skipn idx tokens) as [|t0 [|t1 after]]; try discriminate.
  destruct (str_eqb t0 (py "sudo")) eqn:E0; [|discriminate].
  destruct (str_eqb t1 (py "systemd-run")) eqn:E1; [|discriminate].
  cbn [negb orb] in H. apply andb_true_iff in H as [Hscope Hslice].
  apply str_eqb_eq in E0, E1. subst t0 t1.
  exists after. split; [by rewrite Hsplit|].
  split; by apply existsb_str_eqb_In.
Qed.

Lemma legacy_scan_true linux_user work_dir command parts idxs :
  legacy_scan linux_user work_dir command parts idxs = true ->
  exists idx,
    has_systemd_run linux_user parts idx = true /\
    _has_required_workdir work_dir command = true.
Proof.
  induction idxs as [|i idxs IH]; [discriminate|].
  cbn [legacy_scan].
  destruct (str_eqb (nth i parts []) (py "sudo")
            && str_eqb (nth (S i) parts []) (py "systemd-run")
            && has_systemd_run linux_user parts i) eqn:E; [|exact IH].
  intros H. exists i. apply andb_true_iff in E as [_ E]. auto.
Qed.

End CheckerFacts.

Section CheckerExtras.
Import Shlex Firewall.

(** X26.  What the wrapped-command check accepts.  A command it accepts
    splits into shell words, and somewhere among them the word [sudo]
    is followed at once by [systemd-run], with both [--scope] and the
    slice marker of the given Linux user among the words after them;
    and unless the working directory is empty, the command text
    contains [bash -lc] and [cd <quoted directory>].  A command that
    does not split (an unclosed quote, a trailing backslash) is never
    accepted. *)
Theorem checker_accepts_only_scoped_launches command linux_user work_dir :
  _is_allowed_wrapped_command command linux_user work_dir = true ->
  exists tokens before after,
    split command = Some tokens /\
    tokens = before ++ py "sudo" :: py "systemd-run" :: after /\
    In (py "--scope") after /\
    In (py "--slice=user-" ++ linux_user ++ py ".slice") after /\
    (work_dir = [] \/
     (contains (py "bash -lc") command = true /\
      contains (py "cd " ++ quote work_dir) command = true)).
Proof.
  unfold _is_allowed_wrapped_command. intros H.
  assert (Hwd : forall b, _has_required_workdir work_dir command = b ->
                  b = true ->
                  work_dir = [] \/
                  (contains (py "bash -lc") command = true /\
                   contains (py "cd " ++ quote work_dir) command = true)).
  { intros b <-. unfold _has_required_workdir.
    destruct work_dir as [|c wd]; [by left|]. cbn [str_truthy negb].
    intros Hc. right. by apply andb_true_iff in Hc. }
  destruct (split command) as [tokens|] eqn:Hsplit; [|discriminate H].
  set (parts := match tokens with
                | first :: others =>
                    if str_eqb first (py "time") then others else tokens
                | [] => tokens
                end) in H.
  assert (Hparts : exists pre, tokens = pre ++ parts).
  { subst parts. destruct tokens as [|first others]; [by exists []|].
    destruct (str_eqb first (py "time")); [by exists [first]|by exists []]. }
  destruct Hparts as [pre Hpre].
  assert (Hfound : exists idx,
            has_systemd_run linux_user parts idx = true /\
            _has_required_workdir work_dir command = true).
  { destruct (has_systemd_run linux_user parts 0) eqn:H0; [eauto|].
    by apply legacy_scan_true in H. }
  destruct Hfound as (idx & Hrun & Hreq).
  apply has_systemd_run_true in Hrun as (after & Hshape & Hscope & Hslice).
  exists tokens, (pre ++ firstn idx parts), after.
  split; [reflexivity|]. split.
  - rewrite Hpre at 1. rewrite Hshape at 1. by rewrite List.app_assoc.
  - split; [exact Hscope|]. split; [exact Hslice|]. by apply (Hwd true).
Qed.

Lemma checker_accepts_only_scoped_launches_witness :
  exists tokens before after,
    split (py "time sudo systemd-run --scope --slice=user-queenu1.slice bash -lc 'cd /w && ls'")
      = Some tokens /\
    tokens = before ++ py "sudo" :: py "systemd-run" :: after /\
    In (py "--scope") after /\
    In (py "--slice=user-" ++ py "queenu1" ++ py ".slice") after /\
    (py "/w" = [] \/
     (contains (py "bash -lc")
        (py "time sudo systemd-run --scope --slice=user-queenu1.slice bash -lc 'cd /w && ls'")
        = true /\
      contains (py "cd " ++ quote (py "/w"))
        (py "time sudo systemd-run --scope --slice=user-queenu1.slice bash -lc 'cd /w && ls'")
        = true)).
Proof.
  apply (checker_accepts_only_scoped_launches
           (py "time sudo systemd-run --scope --slice=user-queenu1.slice bash -lc 'cd /w && ls'")
           (py "queenu1") (py "/w")).
  vm_compute. reflexivity.
Defined.

End CheckerExtras.
